(** * In-place rollout of a MachineDeployment (machine-controller-manager)

    Shallow embedding of [pkg/controller/deployment_inplace.go], of the
    two machine-controller behaviours exercised by
    [pkg/util/provider/machinecontroller/machine_test.go], and of the
    object builders of
    [pkg/util/provider/machinecontroller/controller_suite_test.go].

    Modelling conventions.
    - [int32] values are integers in [Z]; every [int32] addition and
      subtraction of the source is written with its wrap-around ([add32],
      [sub32]).
    - A Go [map[string]string] (labels, selectors) is a [gmap string string].
    - The controller reads through its listers (the informer cache) and
      writes through its clients (the API server).  The cache is the pair
      of lists [machineLister]/[nodeLister] of the [controller] record, in
      the order in which the lister returns the objects; the API server is
      the [World], keyed by object name.  The cache is not refreshed while
      one of the functions below runs.
    - Every call that leaves the process (lister read or client write) is
      appended to the [log] of the world together with its outcome; a call
      fails when the controller's [fault] oracle says so for this position
      of the log, or when the object it addresses does not exist. *)

From stdpp Require Import gmap strings list fin_maps sorting pretty.
From Stdlib Require Import ZArith Lia.

Local Open Scope Z_scope.
Local Open Scope string_scope.
Local Open Scope list_scope.

(** ** Machine integers *)

Definition wrap32 (z : Z) : Z := (z + 2 ^ 31) mod 2 ^ 32 - 2 ^ 31.
Definition add32 (a b : Z) : Z := wrap32 (a + b).
Definition sub32 (a b : Z) : Z := wrap32 (a - b).
Definition int32_of_len {A} (l : list A) : Z := wrap32 (Z.of_nat (length l)).
Definition is_int32 (z : Z) : Prop := - 2 ^ 31 <= z < 2 ^ 31.

(** ** Label keys (constants of [v1alpha1]) *)

(** Modelled from the spec: the label-key constants are declared in package
    [v1alpha1], which is not embedded here; their values follow the label
    contract of the specification. *)
Definition NodeLabelKey := "node".
Definition LabelKeyMachineCandidateForUpdate := "node.machine.sapcloud.io/candidate-for-update".
Definition LabelKeyMachineSelectedForUpdate := "node.machine.sapcloud.io/selected-for-update".
Definition LabelKeyMachineDrainSuccessful := "node.machine.sapcloud.io/drain-successful".
Definition LabelKeyMachineUpdateSuccessful := "node.machine.sapcloud.io/update-successful".
Definition LabelKeyMachineReadyForUpdate := "node.machine.sapcloud.io/ready-for-update".

(** ** Objects *)

Record Machine := mkMachine {
  mName : string;
  mUID : string;
  mLabels : gmap string string;
  mOwner : string            (* name of the controlling MachineSet *)
}.

Record Node := mkNode {
  nName : string;
  nLabels : gmap string string;
  nUnschedulable : bool      (* Spec.Unschedulable *)
}.

Record MachineSet := mkMachineSet {
  isName : string;
  isUID : string;
  isCreationTimestamp : Z;
  isSelector : gmap string string;   (* Spec.Selector.MatchLabels *)
  isReplicas : Z;                    (* Spec.Replicas *)
  isAvailableReplicas : Z            (* Status.AvailableReplicas *)
}.

(** [dMaxUnavailable] is the value of [MaxUnavailable] at the deployment, a
    function of the deployment alone that belongs to the deployment
    utilities and is not embedded here. *)
Record MachineDeployment := mkMachineDeployment {
  dReplicas : Z;                     (* Spec.Replicas *)
  dMaxUnavailable : Z
}.

(** Go's [m[k]] on a string map: the zero value when the key is absent. *)
Definition label (ls : gmap string string) (k : string) : string :=
  default "" (ls !! k).

(** [labels.SelectorFromSet(set).Matches(ls)]: every pair of [set] is in [ls]. *)
Definition selects (set ls : gmap string string) : bool :=
  bool_decide (set ⊆ ls).

(** Modelled from the spec: [MergeStringMaps] belongs to another file of the
    repository; later maps take precedence over the first one. *)
Definition MergeStringMaps (old new : gmap string string) : gmap string string :=
  new ∪ old.

(** Modelled from the spec: [MergeWithOverwriteAndFilter] belongs to another
    file of the repository; the specification has the transfer "drop
    old-only labels" and make the labels match the new selector. *)
Definition MergeWithOverwriteAndFilter (current oldSel newSel : gmap string string)
  : gmap string string :=
  newSel ∪ filter (λ kv, oldSel !! kv.1 = None ∨ is_Some (newSel !! kv.1)) current.

(** ** Calls, errors, worlds *)

(** The three shapes of patch document that the file sends to
    [machineControl.PatchMachine]. *)
Inductive MachinePatch :=
| PatchAddLabels (ls : gmap string string)
| PatchRemoveLabels (ks : list string)
| PatchOwner (owner ownerUID : string) (ls : gmap string string) (machineUID : string).

(** The core client a node update goes through: the file uses
    [targetCoreClient] everywhere but in [reconcileNewMachineSetInPlace],
    which uses [controlCoreClient]. *)
Inductive Cluster := ControlCluster | TargetCluster.

Inductive Call :=
| CListMachines (sel : gmap string string)
| CListNodes (sel : gmap string string)
| CGetNode (name : string)
| CPatchMachine (name : string) (p : MachinePatch)
| CUpdateNode (cl : Cluster) (n : Node)
| CUpdateMachineSet (isCopy : MachineSet).

Record Event := Ev { evCall : Call; evOk : bool }.

Inductive Error :=
| ErrCall (c : Call)                      (* the error returned by a failed call *)
| ErrNotFound (name : string)             (* lister miss *)
| ErrNodeLabelNotFound (machine : string) (* "node label not found for machine %s" *)
| ErrGetNode (node : string)              (* "failed to get node %s" *)
| ErrUncordon (node : string)             (* "failed to uncordon the node %s" *)
| ErrListMachines (machineSet : string)   (* "failed to list machines for machine set %s" *)
| ErrScaleDown (machineSet : string)      (* "failed to scale down machine set %s" *)
| ErrInvalidRequest (machineSet : string) (* "... got invalid request %s %d -> %d" *)
| ErrPanic.                               (* slice bounds out of range *)

#[global] Instance Machine_eq_dec : EqDecision Machine.
Proof. solve_decision. Defined.
#[global] Instance Node_eq_dec : EqDecision Node.
Proof. solve_decision. Defined.
#[global] Instance MachineSet_eq_dec : EqDecision MachineSet.
Proof. solve_decision. Defined.
#[global] Instance MachinePatch_eq_dec : EqDecision MachinePatch.
Proof. solve_decision. Defined.
#[global] Instance Cluster_eq_dec : EqDecision Cluster.
Proof. solve_decision. Defined.
#[global] Instance Call_eq_dec : EqDecision Call.
Proof. solve_decision. Defined.
#[global] Instance Event_eq_dec : EqDecision Event.
Proof. solve_decision. Defined.
#[global] Instance Error_eq_dec : EqDecision Error.
Proof. solve_decision. Defined.

Record World := mkWorld {
  apiMachines : gmap string Machine;
  apiMachineSets : gmap string MachineSet;
  targetNodes : gmap string Node;    (* nodes as stored by the target cluster *)
  controlNodes : gmap string Node;   (* nodes as stored by the control cluster *)
  log : list Event                   (* newest call first *)
}.

Definition trace (w : World) : list Event := rev (log w).

Record controller := mkController {
  machineLister : list Machine;
  nodeLister : list Node;
  fault : nat → Call → bool
}.

Definition record (c : Call) (ok : bool) (w : World) : World :=
  mkWorld (apiMachines w) (apiMachineSets w) (targetNodes w) (controlNodes w)
          (Ev c ok :: log w).

Definition faulty (dc : controller) (w : World) (c : Call) : bool :=
  fault dc (length (log w)) c.

Definition findNode (name : string) (ns : list Node) : option Node :=
  head (filter (λ n, nName n = name) ns).

(** Modelled from the spec: [machineControl.PatchMachine] belongs to another
    file of the repository.  A label patch merges into the stored labels, a
    removal patch deletes the keys, and the ownership patch replaces the
    controller reference and rewrites the labels; the latter carries the
    machine's UID and is refused when the stored UID differs. *)
Definition applyMachinePatch (p : MachinePatch) (m : Machine) : option Machine :=
  match p with
  | PatchAddLabels ls => Some (mkMachine (mName m) (mUID m) (ls ∪ mLabels m) (mOwner m))
  | PatchRemoveLabels ks =>
      Some (mkMachine (mName m) (mUID m) (foldr delete (mLabels m) ks) (mOwner m))
  | PatchOwner owner _ ls uid =>
      if decide (uid = mUID m) then Some (mkMachine (mName m) (mUID m) ls owner) else None
  end.

Definition nodesOf (cl : Cluster) (w : World) : gmap string Node :=
  match cl with ControlCluster => controlNodes w | TargetCluster => targetNodes w end.

Definition setNodes (cl : Cluster) (ns : gmap string Node) (w : World) : World :=
  match cl with
  | ControlCluster => mkWorld (apiMachines w) (apiMachineSets w) (targetNodes w) ns (log w)
  | TargetCluster => mkWorld (apiMachines w) (apiMachineSets w) ns (controlNodes w) (log w)
  end.

(** What a call does to the stored objects when it goes through; [None]
    when the object it addresses is missing (or, for a lister read by name,
    not in the cache).  An update replaces the stored object of that name by
    the one sent. *)
Definition effect (dc : controller) (c : Call) (w : World) : option World :=
  match c with
  | CListMachines _ | CListNodes _ => Some w
  | CGetNode name => _ ← findNode name (nodeLister dc); Some w
  | CPatchMachine name p =>
      m' ← apiMachines w !! name ≫= applyMachinePatch p;
      Some (mkWorld (<[name := m']> (apiMachines w)) (apiMachineSets w)
                    (targetNodes w) (controlNodes w) (log w))
  | CUpdateNode cl n =>
      _ ← nodesOf cl w !! nName n;
      Some (setNodes cl (<[nName n := n]> (nodesOf cl w)) w)
  | CUpdateMachineSet isCopy =>
      _ ← apiMachineSets w !! isName isCopy;
      Some (mkWorld (apiMachines w) (<[isName isCopy := isCopy]> (apiMachineSets w))
                    (targetNodes w) (controlNodes w) (log w))
  end.

(** One call: it fails when the fault oracle says so or when it has no
    effect to apply; either way it is logged. *)
Definition invoke (dc : controller) (c : Call) (w : World) : bool * World :=
  if faulty dc w c then (false, record c false w)
  else match effect dc c w with
       | Some w1 => (true, record c true w1)
       | None => (false, record c false w)
       end.

(** ** Lister reads *)

Definition listMachines (dc : controller) (sel : gmap string string) (w : World)
  : list Machine * option Error * World :=
  let c := CListMachines sel in
  let '(ok, w1) := invoke dc c w in
  if ok then (filter (λ m, selects sel (mLabels m) = true) (machineLister dc), None, w1)
  else ([], Some (ErrCall c), w1).

Definition listNodes (dc : controller) (sel : gmap string string) (w : World)
  : list Node * option Error * World :=
  let c := CListNodes sel in
  let '(ok, w1) := invoke dc c w in
  if ok then (filter (λ n, selects sel (nLabels n) = true) (nodeLister dc), None, w1)
  else ([], Some (ErrCall c), w1).

(** [nodeLister.Get]: a miss is the NotFound error, which
    [labelNodesBackingMachineSets] tells apart from the others. *)
Definition getNode (dc : controller) (name : string) (w : World)
  : option Node * option Error * World :=
  let c := CGetNode name in
  let '(ok, w1) := invoke dc c w in
  match ok, findNode name (nodeLister dc) with
  | true, Some n => (Some n, None, w1)
  | _, None => (None, Some (ErrNotFound name), w1)
  | false, Some _ => (None, Some (ErrCall c), w1)
  end.

(** ** Client writes *)

Definition PatchMachine (dc : controller) (name : string) (p : MachinePatch) (w : World)
  : option Error * World :=
  let c := CPatchMachine name p in
  let '(ok, w1) := invoke dc c w in
  (if ok then None else Some (ErrCall c), w1).

(** [CoreV1().Nodes().Update] through the core client of cluster [cl]. *)
Definition UpdateNode (dc : controller) (cl : Cluster) (n : Node) (w : World)
  : option Error * World :=
  let c := CUpdateNode cl n in
  let '(ok, w1) := invoke dc c w in
  (if ok then None else Some (ErrCall c), w1).

Definition withReplicas (ms : MachineSet) (r : Z) : MachineSet :=
  mkMachineSet (isName ms) (isUID ms) (isCreationTimestamp ms) (isSelector ms) r
               (isAvailableReplicas ms).

(** Modelled from the spec: [scaleMachineSetAndRecordEvent] belongs to
    another file of the repository.  It scales a copy of the MachineSet it is
    given: nothing is sent when the requested scale is the one the object
    already has, otherwise the copy with the new replica count is sent as an
    update; the first result tells whether it scaled. *)
Definition scaleMachineSetAndRecordEvent (dc : controller) (ms : MachineSet) (newScale : Z)
    (w : World) : bool * option Error * World :=
  if decide (isReplicas ms = newScale) then (false, None, w)
  else
    let c := CUpdateMachineSet (withReplicas ms newScale) in
    let '(ok, w1) := invoke dc c w in
    (ok, if ok then None else Some (ErrCall c), w1).

(** ** Helpers of the deployment utilities *)

(** Modelled from the spec: [GetReplicaCountForMachineSets] belongs to
    another file of the repository; it adds up [Spec.Replicas]. *)
Definition GetReplicaCountForMachineSets (mss : list MachineSet) : Z :=
  foldl (λ acc ms, add32 acc (isReplicas ms)) 0 mss.

(** Modelled from the spec: [GetAvailableReplicaCountForMachineSets] belongs
    to another file of the repository; it adds up
    [Status.AvailableReplicas]. *)
Definition GetAvailableReplicaCountForMachineSets (mss : list MachineSet) : Z :=
  foldl (λ acc ms, add32 acc (isAvailableReplicas ms)) 0 mss.

Definition MaxUnavailable (d : MachineDeployment) : Z := dMaxUnavailable d.

(** Modelled from the spec: [MachineSetsByCreationTimestamp] belongs to
    another file of the repository; sorting by it puts the MachineSets in
    ascending order of creation time. *)
Definition MachineSetsByCreationTimestamp (a b : MachineSet) : Prop :=
  isCreationTimestamp a <= isCreationTimestamp b.

#[global] Instance MachineSetsByCreationTimestamp_dec (a b : MachineSet)
  : Decision (MachineSetsByCreationTimestamp a b) :=
  decide (isCreationTimestamp a <= isCreationTimestamp b).

Definition sortMachineSets (mss : list MachineSet) : list MachineSet :=
  merge_sort MachineSetsByCreationTimestamp mss.

(** Modelled from the spec: [filterMachinesWithUpdateSuccessfulLabel]
    belongs to another file of the repository; it keeps the machines
    labelled [update-successful=true]. *)
Definition filterMachinesWithUpdateSuccessfulLabel (ms : list Machine) : list Machine :=
  filter (λ m, mLabels m !! LabelKeyMachineUpdateSuccessful = Some "true") ms.

(** Modelled from the spec: [getMachineFromNode] belongs to another file of
    the repository; a machine refers to its node by the node-name label. *)
Definition getMachineFromNode (ms : list Machine) (n : Node) : option Machine :=
  head (filter (λ m, label (mLabels m) NodeLabelKey = nName n) ms).

(** Results of a loop body that may leave the enclosing function. *)
Inductive Flow (A R : Type) :=
| Next (a : A)
| Return (r : R).
Arguments Next {A R} a.
Arguments Return {A R} r.

(** ** [syncMachineSets] *)

Definition labelsToRemove : list string :=
  [LabelKeyMachineSelectedForUpdate; LabelKeyMachineDrainSuccessful;
   LabelKeyMachineUpdateSuccessful].

(** The loop "remove all the label from the machines related to the inplace
    update", over [machinesWithUpdateSuccessfulLabel]. *)
Fixpoint syncMachineSets_removeLabels (dc : controller) (machines : list Machine) (w : World)
  : option Error * World :=
  match machines with
  | [] => (None, w)
  | machine :: rest =>
      let '(err, w1) := PatchMachine dc (mName machine) (PatchRemoveLabels labelsToRemove) w in
      match err with
      | Some e => (Some e, w1)
      | None => syncMachineSets_removeLabels dc rest w1
      end
  end.

(** The node object written back by the uncordon loop. *)
Definition uncordoned (node : Node) : Node :=
  mkNode (nName node)
         (delete LabelKeyMachineReadyForUpdate
                 (delete LabelKeyMachineUpdateSuccessful (nLabels node)))
         false.

(** The loop "uncordon the node", over all listed machines. *)
Fixpoint syncMachineSets_uncordon (dc : controller) (machines : list Machine) (w : World)
  : option Error * World :=
  match machines with
  | [] => (None, w)
  | machine :: rest =>
      match mLabels machine !! NodeLabelKey with
      | None => (Some (ErrNodeLabelNotFound (mName machine)), w)
      | Some nodeName =>
          let '(node, err, w1) := getNode dc nodeName w in
          match node, err with
          | Some node, None =>
              let '(err, w2) := UpdateNode dc TargetCluster (uncordoned node) w1 in
              match err with
              | Some _ => (Some (ErrUncordon (nName node)), w2)
              | None => syncMachineSets_uncordon dc rest w2
              end
          | _, _ => (Some (ErrGetNode nodeName), w1)
          end
      end
  end.

(** The loop over the old MachineSets: scale each one down to the number of
    machines its selector still matches. *)
Fixpoint syncMachineSets_scaleDown (dc : controller) (olsISs : list MachineSet)
    (deployment : MachineDeployment) (w : World) : option Error * World :=
  match olsISs with
  | [] => (None, w)
  | ms :: rest =>
      let '(machines, err, w1) := listMachines dc (isSelector ms) w in
      match err with
      | Some _ => (Some (ErrListMachines (isName ms)), w1)
      | None =>
          if decide (Z.of_nat (length machines) < isReplicas ms) then
            let '(_, err, w2) :=
              scaleMachineSetAndRecordEvent dc ms (int32_of_len machines) w1 in
            match err with
            | Some _ => (Some (ErrScaleDown (isName ms)), w2)
            | None => syncMachineSets_scaleDown dc rest deployment w2
            end
          else syncMachineSets_scaleDown dc rest deployment w1
      end
  end.

Definition syncMachineSets (dc : controller) (olsISs : list MachineSet) (newIS : MachineSet)
    (deployment : MachineDeployment) (w : World) : option Error * World :=
  let '(machines, err, w1) := listMachines dc (isSelector newIS) w in
  match err with
  | Some e => (Some e, w1)
  | None =>
      let machinesWithUpdateSuccessfulLabel := filterMachinesWithUpdateSuccessfulLabel machines in
      let '(err, w2) :=
        if decide (isReplicas newIS < Z.of_nat (length machines)
                   ∧ (0 < length machinesWithUpdateSuccessfulLabel)%nat) then
          let scaleUpBy := Z.min (Z.of_nat (length machinesWithUpdateSuccessfulLabel))
                                 (Z.of_nat (length machines) - isReplicas newIS) in
          let '(_, err, w2) :=
            scaleMachineSetAndRecordEvent dc newIS
              (add32 (isReplicas newIS) (wrap32 scaleUpBy)) w1 in
          (err, w2)
        else (None, w1) in
      match err with
      | Some e => (Some e, w2)
      | None =>
          let '(err, w3) :=
            syncMachineSets_removeLabels dc machinesWithUpdateSuccessfulLabel w2 in
          match err with
          | Some e => (Some e, w3)
          | None =>
              let '(err, w4) := syncMachineSets_uncordon dc machines w3 in
              match err with
              | Some e => (Some e, w4)
              | None => syncMachineSets_scaleDown dc olsISs deployment w4
              end
          end
      end
  end.

(** ** [reconcileNewMachineSetInPlace] *)

(** The branch taken when the ownership patch of a machine fails with [err]:
    scale the new MachineSet to the replicas added so far, then the old
    MachineSet at hand down by what it has handed over. *)
Definition reconcileNew_patchFailed (dc : controller) (ms newIS : MachineSet)
    (deployment : MachineDeployment) (transfferedMachineCount addedNewReplicasCount : Z)
    (err : Error) (w : World) : bool * option Error * World :=
  let '(scaled, err2, w1) :=
    scaleMachineSetAndRecordEvent dc newIS
      (add32 (isReplicas newIS) addedNewReplicasCount) w in
  match err2 with
  | Some e2 => (bool_decide (0 < addedNewReplicasCount), Some e2, w1)
  | None =>
      let '(_, err2, w2) :=
        scaleMachineSetAndRecordEvent dc ms
          (sub32 (isReplicas ms) transfferedMachineCount) w1 in
      match err2 with
      | Some _ => (bool_decide (0 < addedNewReplicasCount), Some err, w2)
      | None => (scaled, Some err, w2)
      end
  end.

(** The loop over the nodes labelled [update-successful=true], for one old
    MachineSet [ms] whose machines are [machines]; the loop state is
    [(transfferedMachineCount, addedNewReplicasCount)]. *)
Fixpoint reconcileNew_nodes (dc : controller) (ms newIS : MachineSet)
    (deployment : MachineDeployment) (machines : list Machine) (nodes : list Node)
    (transfferedMachineCount addedNewReplicasCount : Z) (w : World)
  : Flow (Z * Z) (bool * option Error) * World :=
  match nodes with
  | [] => (Next (transfferedMachineCount, addedNewReplicasCount), w)
  | node :: rest =>
      match getMachineFromNode machines node with
      | None =>
          reconcileNew_nodes dc ms newIS deployment machines rest
            transfferedMachineCount addedNewReplicasCount w
      | Some machine =>
          let machineNewLabels :=
            MergeStringMaps
              (MergeWithOverwriteAndFilter (mLabels machine) (isSelector ms) (isSelector newIS))
              {[ LabelKeyMachineUpdateSuccessful := "true" ]} in
          let addControllerPatch :=
            PatchOwner (isName newIS) (isUID newIS) machineNewLabels (mUID machine) in
          let '(err, w1) := PatchMachine dc (mName machine) addControllerPatch w in
          match err with
          | Some e =>
              let '(scaled, err', w2) :=
                reconcileNew_patchFailed dc ms newIS deployment
                  transfferedMachineCount addedNewReplicasCount e w1 in
              (Return (scaled, err'), w2)
          | None =>
              let '(err, w2) :=
                UpdateNode dc ControlCluster
                  (mkNode (nName node) (nLabels node) false) w1 in
              match err with
              | Some _ => (Return (false, Some (ErrUncordon (nName node))), w2)
              | None =>
                  reconcileNew_nodes dc ms newIS deployment machines rest
                    (add32 transfferedMachineCount 1) (add32 addedNewReplicasCount 1) w2
              end
          end
      end
  end.

(** The loop over the old MachineSets; the loop state is
    [addedNewReplicasCount]. *)
Fixpoint reconcileNew_oldISs (dc : controller) (oldISs : list MachineSet) (newIS : MachineSet)
    (deployment : MachineDeployment) (addedNewReplicasCount : Z) (w : World)
  : Flow Z (bool * option Error) * World :=
  match oldISs with
  | [] => (Next addedNewReplicasCount, w)
  | ms :: rest =>
      let '(machines, err, w1) := listMachines dc (isSelector ms) w in
      match err with
      | Some e => (Return (false, Some e), w1)
      | None =>
          let '(nodes, err, w2) :=
            listNodes dc {[ LabelKeyMachineUpdateSuccessful := "true" ]} w1 in
          match err with
          | Some e => (Return (false, Some e), w2)
          | None =>
              match reconcileNew_nodes dc ms newIS deployment machines nodes
                      0 addedNewReplicasCount w2 with
              | (Return r, w3) => (Return r, w3)
              | (Next (transfferedMachineCount, added), w3) =>
                  let '(_, err, w4) :=
                    scaleMachineSetAndRecordEvent dc ms
                      (sub32 (isReplicas ms) transfferedMachineCount) w3 in
                  match err with
                  | Some e => (Return (bool_decide (0 < added), Some e), w4)
                  | None => reconcileNew_oldISs dc rest newIS deployment added w4
                  end
              end
          end
      end
  end.

Definition reconcileNewMachineSetInPlace (dc : controller) (oldISs : list MachineSet)
    (newIS : MachineSet) (deployment : MachineDeployment) (w : World)
  : bool * option Error * World :=
  if decide (isReplicas newIS = dReplicas deployment) then (false, None, w)
  else if decide (dReplicas deployment < isReplicas newIS) then
    scaleMachineSetAndRecordEvent dc newIS (dReplicas deployment) w
  else
    match reconcileNew_oldISs dc oldISs newIS deployment 0 w with
    | (Return (scaled, err), w1) => (scaled, err, w1)
    | (Next addedNewReplicasCount, w1) =>
        scaleMachineSetAndRecordEvent dc newIS
          (add32 (isReplicas newIS) addedNewReplicasCount) w1
    end.

(** ** Selecting machines for update *)

Fixpoint getMachinesUndergoingUpdate_loop (dc : controller) (oldISs : list MachineSet)
    (machineInUpdateProcess : Z) (w : World) : Z * option Error * World :=
  match oldISs with
  | [] => (machineInUpdateProcess, None, w)
  | ms :: rest =>
      let '(machines, err, w1) :=
        listMachines dc
          (MergeStringMaps (isSelector ms) {[ LabelKeyMachineSelectedForUpdate := "true" ]}) w in
      match err with
      | Some e => (0, Some e, w1)
      | None =>
          getMachinesUndergoingUpdate_loop dc rest
            (add32 machineInUpdateProcess (int32_of_len machines)) w1
      end
  end.

Definition getMachinesUndergoingUpdate (dc : controller) (oldISs : list MachineSet) (w : World)
  : Z * option Error * World :=
  getMachinesUndergoingUpdate_loop dc oldISs 0 w.

(** The machines of [getMachinesForDrain] once the lister has answered:
    those without the selected-for-update label, cut to [readyForDrain].
    A negative bound makes the slice expression panic. *)
Definition machinesForDrain (machines : list Machine) (readyForDrain : Z)
  : list Machine * option Error :=
  let machinesWithoutSelectedForUpdate :=
    filter (λ m, mLabels m !! LabelKeyMachineSelectedForUpdate = None) machines in
  if decide (readyForDrain < Z.of_nat (length machinesWithoutSelectedForUpdate)) then
    if decide (readyForDrain < 0) then ([], Some ErrPanic)
    else (take (Z.to_nat readyForDrain) machinesWithoutSelectedForUpdate, None)
  else (machinesWithoutSelectedForUpdate, None).

Definition getMachinesForDrain (dc : controller) (ms : MachineSet) (readyForDrain : Z)
    (w : World) : list Machine * option Error * World :=
  let '(machines, err, w1) :=
    listMachines dc
      (MergeStringMaps (isSelector ms) {[ LabelKeyMachineCandidateForUpdate := "true" ]}) w in
  match err with
  | Some e => ([], Some e, w1)
  | None => let '(r, err) := machinesForDrain machines readyForDrain in (r, err, w1)
  end.

(** The loop of [labelMachinesToSelectedForUpdate] over the machines to be
    drained; the loop state is [machinesSelectedForUpdate]. *)
Fixpoint labelMachinesToSelectedForUpdate_loop (dc : controller) (machines : list Machine)
    (machinesSelectedForUpdate : Z) (w : World) : Z * option Error * World :=
  match machines with
  | [] => (machinesSelectedForUpdate, None, w)
  | machine :: rest =>
      let labels :=
        MergeStringMaps (mLabels machine) {[ LabelKeyMachineSelectedForUpdate := "true" ]} in
      let '(err, w1) := PatchMachine dc (mName machine) (PatchAddLabels labels) w in
      match err with
      | Some e => (machinesSelectedForUpdate, Some e, w1)
      | None =>
          let nodeName := label (mLabels machine) NodeLabelKey in
          if decide (nodeName ≠ "") then
            let '(node, err, w2) := getNode dc nodeName w1 in
            match node, err with
            | Some node, None =>
                if decide (label (nLabels node) LabelKeyMachineSelectedForUpdate = "true") then
                  (* continue *)
                  labelMachinesToSelectedForUpdate_loop dc rest machinesSelectedForUpdate w2
                else
                  let nodeCopy :=
                    mkNode (nName node)
                           (<[ LabelKeyMachineSelectedForUpdate := "true" ]> (nLabels node))
                           (nUnschedulable node) in
                  let '(err, w3) := UpdateNode dc TargetCluster nodeCopy w2 in
                  match err with
                  | Some e => (machinesSelectedForUpdate, Some e, w3)
                  | None =>
                      labelMachinesToSelectedForUpdate_loop dc rest
                        (add32 machinesSelectedForUpdate 1) w3
                  end
            | _, Some e => (machinesSelectedForUpdate, Some e, w2)
            | None, None => (machinesSelectedForUpdate, Some (ErrNotFound nodeName), w2)
            end
          else
            labelMachinesToSelectedForUpdate_loop dc rest
              (add32 machinesSelectedForUpdate 1) w1
      end
  end.

Definition labelMachinesToSelectedForUpdate (dc : controller) (ms : MachineSet) (newScale : Z)
    (w : World) : Z * option Error * World :=
  let readyForDrain := sub32 (isReplicas ms) newScale in
  let '(machines, err, w1) := getMachinesForDrain dc ms readyForDrain w in
  match err with
  | Some e => (0, Some e, w1)
  | None => labelMachinesToSelectedForUpdate_loop dc machines 0 w1
  end.

(** The loop of [selectMachineForUpdate] over the sorted old MachineSets;
    the loop state is [totalReadyForUpdate]. *)
Fixpoint selectMachineForUpdate_loop (dc : controller) (oldISs : list MachineSet)
    (totalReadyForUpdateCount totalReadyForUpdate : Z) (w : World)
  : Z * option Error * World :=
  match oldISs with
  | [] => (totalReadyForUpdate, None, w)
  | targetIS :: rest =>
      if decide (totalReadyForUpdateCount <= totalReadyForUpdate) then
        (* break *)
        (totalReadyForUpdate, None, w)
      else if decide (isReplicas targetIS = 0) then
        (* continue *)
        selectMachineForUpdate_loop dc rest totalReadyForUpdateCount totalReadyForUpdate w
      else
        let readyForUpdateCount :=
          wrap32 (Z.min (isReplicas targetIS)
                        (sub32 totalReadyForUpdateCount totalReadyForUpdate)) in
        let newReplicasCount := sub32 (isReplicas targetIS) readyForUpdateCount in
        if decide (isReplicas targetIS < newReplicasCount) then
          (0, Some (ErrInvalidRequest (isName targetIS)), w)
        else
          let '(machinesSelectedForUpdate, err, w1) :=
            labelMachinesToSelectedForUpdate dc targetIS newReplicasCount w in
          match err with
          | Some e => (add32 totalReadyForUpdate machinesSelectedForUpdate, Some e, w1)
          | None =>
              selectMachineForUpdate_loop dc rest totalReadyForUpdateCount
                (add32 totalReadyForUpdate machinesSelectedForUpdate) w1
          end
  end.

Definition selectMachineForUpdate (dc : controller) (allISs oldISs : list MachineSet)
    (deployment : MachineDeployment) (oldISsMachinesUndergoingUpdate : Z) (w : World)
  : Z * option Error * World :=
  let maxUnavailable := MaxUnavailable deployment in
  let minAvailable := sub32 (dReplicas deployment) maxUnavailable in
  let availableMachineCount :=
    sub32 (GetAvailableReplicaCountForMachineSets allISs) oldISsMachinesUndergoingUpdate in
  if decide (availableMachineCount <= minAvailable) then (0, None, w)
  else
    let totalReadyForUpdateCount := sub32 availableMachineCount minAvailable in
    selectMachineForUpdate_loop dc (sortMachineSets oldISs) totalReadyForUpdateCount 0 w.

(** The loop "scale down old machine sets to zero". *)
Fixpoint reconcileOld_scaleToZero (dc : controller) (oldISs : list MachineSet) (w : World)
  : bool * option Error * World :=
  match oldISs with
  | [] => (true, None, w)
  | ms :: rest =>
      let '(_, err, w1) := scaleMachineSetAndRecordEvent dc ms 0 w in
      match err with
      | Some e => (false, Some e, w1)
      | None => reconcileOld_scaleToZero dc rest w1
      end
  end.

(** The value the source calls [maxUpdatePossible]. *)
Definition maxUpdatePossible (allISs : list MachineSet) (newIS : MachineSet)
    (deployment : MachineDeployment) (oldISsMachinesUndergoingUpdate : Z) : Z :=
  let allMachinesCount := GetReplicaCountForMachineSets allISs in
  let minAvailable := sub32 (dReplicas deployment) (MaxUnavailable deployment) in
  let newISUnavailableMachineCount := sub32 (isReplicas newIS) (isAvailableReplicas newIS) in
  sub32 (sub32 (sub32 allMachinesCount minAvailable) newISUnavailableMachineCount)
        oldISsMachinesUndergoingUpdate.

Definition reconcileOldMachineSetsInPlace (dc : controller) (allISs oldISs : list MachineSet)
    (newIS : MachineSet) (deployment : MachineDeployment) (w : World)
  : bool * option Error * World :=
  let oldMachinesCount := GetReplicaCountForMachineSets oldISs in
  if decide (oldMachinesCount = 0) then (false, None, w)
  else if decide (isReplicas newIS = dReplicas deployment) then
    reconcileOld_scaleToZero dc oldISs w
  else
    let '(oldISsMachinesUndergoingUpdate, err, w1) := getMachinesUndergoingUpdate dc oldISs w in
    match err with
    | Some e => (false, Some e, w1)
    | None =>
        if decide (maxUpdatePossible allISs newIS deployment oldISsMachinesUndergoingUpdate <= 0)
        then (false, None, w1)
        else
          let '(machinesSelectedForUpdate, err, w2) :=
            selectMachineForUpdate dc allISs oldISs deployment
              oldISsMachinesUndergoingUpdate w1 in
          match err with
          | Some e => (false, Some e, w2)
          | None => (bool_decide (0 < machinesSelectedForUpdate), None, w2)
          end
    end.

(** ** [labelNodesBackingMachineSets] *)

(** The loop over the machines of one MachineSet.  The [label] argument of
    the source function is only logged; the label written is
    candidate-for-update. *)
Fixpoint labelNodes_machines (dc : controller) (filteredMachines : list Machine) (w : World)
  : option Error * World :=
  match filteredMachines with
  | [] => (None, w)
  | machine :: rest =>
      if decide (label (mLabels machine) NodeLabelKey ≠ "") then
        let labels :=
          MergeStringMaps (mLabels machine) {[ LabelKeyMachineCandidateForUpdate := "true" ]} in
        let '(err, w1) := PatchMachine dc (mName machine) (PatchAddLabels labels) w in
        match err with
        | Some e => (Some e, w1)
        | None =>
            let '(node, err, w2) := getNode dc (label (mLabels machine) NodeLabelKey) w1 in
            match node, err with
            | _, Some (ErrNotFound _) => labelNodes_machines dc rest w2
            | _, Some e => (Some e, w2)
            | None, None => labelNodes_machines dc rest w2
            | Some node, None =>
                if decide (label (nLabels node) LabelKeyMachineCandidateForUpdate = "true") then
                  labelNodes_machines dc rest w2
                else
                  let nodeCopy :=
                    mkNode (nName node)
                           (<[ LabelKeyMachineCandidateForUpdate := "true" ]> (nLabels node))
                           (nUnschedulable node) in
                  let '(err, w3) := UpdateNode dc TargetCluster nodeCopy w2 in
                  match err with
                  | Some e => (Some e, w3)
                  | None => labelNodes_machines dc rest w3
                  end
            end
        end
      else labelNodes_machines dc rest w
  end.

(** A [nil] entry of the slice is [None]. *)
Fixpoint labelNodesBackingMachineSets (dc : controller) (machineSets : list (option MachineSet))
    (label : gmap string string) (w : World) : option Error * World :=
  match machineSets with
  | [] => (None, w)
  | None :: rest => labelNodesBackingMachineSets dc rest label w
  | Some machineSet :: rest =>
      let '(filteredMachines, err, w1) := listMachines dc (isSelector machineSet) w in
      match err with
      | Some e => (Some e, w1)
      | None =>
          let '(err, w2) := labelNodes_machines dc filteredMachines w1 in
          match err with
          | Some e => (Some e, w2)
          | None => labelNodesBackingMachineSets dc rest label w2
          end
      end
  end.

(** ** The machine controller: health and creation failures *)

Module MachineController.

Inductive ConditionStatus := ConditionTrue | ConditionFalse | ConditionUnknown.

#[global] Instance ConditionStatus_eq_dec : EqDecision ConditionStatus.
Proof. solve_decision. Defined.

Record NodeCondition := mkCondition {
  cType : string;
  cStatus : ConditionStatus
}.

(** Condition types of [corev1] used by the tests. *)
Definition NodeReady := "Ready".
Definition NodeMemoryPressure := "MemoryPressure".
Definition NodeDiskPressure := "DiskPressure".
Definition NodeNetworkUnavailable := "NetworkUnavailable".

(** [strings.Split(s, ",")]; 44 is the code of the comma. *)
Fixpoint splitComma (s : string) : list string :=
  match s with
  | EmptyString => [EmptyString]
  | String c rest =>
      if Ascii.eqb c (Ascii.ascii_of_nat 44) then EmptyString :: splitComma rest
      else match splitComma rest with
           | [] => [String c EmptyString]
           | h :: t => String c h :: t
           end
  end.

(** The controller as the tests build it: [nodeConditions] is the
    comma-separated list of disqualifying condition types. *)
Record controller := mkController {
  nodeConditions : string;
  MachineCreationTimeout : Z       (* seconds *)
}.

Definition disqualifying (c : controller) : list string :=
  splitComma (nodeConditions c).

(** The status of the first condition of type [t], if any. *)
Definition conditionStatus (t : string) (conds : list NodeCondition)
  : option ConditionStatus :=
  cStatus <$> head (filter (λ cond, cType cond = t) conds).

(** Modelled from the spec: [isHealthy] belongs to another file of the
    repository (its table test is embedded below).  "healthy =
    NodeReady==True and, for every disqualifying condition c,
    c.Status==False", read over the conditions recorded in the machine
    status. *)
Definition isHealthy (c : controller) (conditions : list NodeCondition) : bool :=
  bool_decide (conditionStatus NodeReady conditions = Some ConditionTrue)
  && forallb (λ cond,
                if decide (cType cond ∈ disqualifying c)
                then bool_decide (cStatus cond = ConditionFalse)
                else true)
             conditions.

(** The step of the table test: set the status of the first condition of
    the given type. *)
Fixpoint setCondition (t : string) (s : ConditionStatus) (conds : list NodeCondition)
  : list NodeCondition :=
  match conds with
  | [] => []
  | cond :: rest =>
      if decide (cType cond = t) then mkCondition (cType cond) s :: rest
      else cond :: setCondition t s rest
  end.

(** Provider error codes named by the driver contract. *)
Inductive Code :=
| Unimplemented | Uninitialized | ResourceExhausted | Internal | NotFound
| DeadlineExceeded.

Definition codeString (c : Code) : string :=
  match c with
  | Unimplemented => "Unimplemented"
  | Uninitialized => "Uninitialized"
  | ResourceExhausted => "ResourceExhausted"
  | Internal => "Internal"
  | NotFound => "NotFound"
  | DeadlineExceeded => "DeadlineExceeded"
  end.

Inductive RetryPeriod := ShortRetry | MediumRetry | LongRetry.

Inductive MachinePhase :=
| MachinePending | MachineAvailable | MachineRunning | MachineUnknown
| MachineFailed | MachineCrashLoopBackOff | MachineTerminating.

Record MachineStatus := mkStatus {
  phase : MachinePhase;             (* CurrentStatus.Phase *)
  errorCode : string                (* LastOperation.ErrorCode *)
}.

(** Modelled from the spec: the phase recorded when creation fails with
    [code]; the body of [triggerCreationFlow] belongs to another file of the
    repository.  The specification attaches the creation timeout to the
    Internal code ("On Internal: CrashLoopBackOff, MediumRetry; if
    creation-timestamp older than MachineCreationTimeout: Failed") and gives
    CrashLoopBackOff for the other codes it classifies. *)
Definition createFailurePhase (c : controller) (now creationTimestamp : Z) (code : Code)
  : MachinePhase :=
  match code with
  | Internal =>
      if decide (MachineCreationTimeout c < now - creationTimestamp) then MachineFailed
      else MachineCrashLoopBackOff
  | _ => MachineCrashLoopBackOff
  end.

(** Modelled from the spec: the retry period after a failed
    [CreateMachine], for the codes the specification classifies
    (ResourceExhausted: long; Internal, DeadlineExceeded: medium;
    Uninitialized: short). *)
Definition createFailureRetry (code : Code) : option RetryPeriod :=
  match code with
  | ResourceExhausted => Some LongRetry
  | Internal | DeadlineExceeded => Some MediumRetry
  | Uninitialized => Some ShortRetry
  | Unimplemented | NotFound => None
  end.

(** Modelled from the spec: the outcome of [triggerCreationFlow] when the
    driver's [CreateMachine] fails with [code]: the machine status written
    and the retry period returned. *)
Definition triggerCreationFlow_createFailed (c : controller) (now creationTimestamp : Z)
    (code : Code) : option (MachineStatus * RetryPeriod) :=
  retry ← createFailureRetry code;
  Some (mkStatus (createFailurePhase c now creationTimestamp code) (codeString code), retry).

(** The controller and the machine status conditions of the [isHealthy]
    table test; the creation timeout is the 20 minutes of the test suite. *)
Definition testController : controller :=
  mkController "ReadonlyFilesystem,KernelDeadlock,DiskPressure,NetworkUnavailable" 1200.

Definition testConditions : list NodeCondition :=
  [ mkCondition NodeDiskPressure ConditionFalse;
    mkCondition NodeMemoryPressure ConditionFalse;
    mkCondition NodeNetworkUnavailable ConditionFalse;
    mkCondition NodeReady ConditionTrue ].

End MachineController.

(** ** Replaying a log *)

(** The world after one logged call. *)
Definition after (dc : controller) (e : Event) (w : World) : option World :=
  if evOk e then record (evCall e) true <$> effect dc (evCall e) w
  else Some (record (evCall e) false w).

Arguments after : simpl never.

(** The world after a sequence of logged calls, oldest first. *)
Fixpoint replay (dc : controller) (evs : list Event) (w : World) : option World :=
  match evs with
  | [] => Some w
  | e :: rest => after dc e w ≫= replay dc rest
  end.

(** The stored objects, without the log. *)
Definition sameApi (w w' : World) : Prop :=
  apiMachines w' = apiMachines w ∧ apiMachineSets w' = apiMachineSets w
  ∧ targetNodes w' = targetNodes w ∧ controlNodes w' = controlNodes w.

Definition isRead (e : Event) : Prop :=
  match evCall e with
  | CListMachines _ | CListNodes _ | CGetNode _ => True
  | _ => False
  end.

Definition isPatch (e : Event) : Prop :=
  match evCall e with CPatchMachine _ _ => True | _ => False end.

#[global] Instance isRead_dec e : Decision (isRead e).
Proof. unfold isRead. destruct (evCall e); apply _. Defined.

#[global] Instance isPatch_dec e : Decision (isPatch e).
Proof. unfold isPatch. destruct (evCall e); apply _. Defined.

(** A world whose cache and API server agree: the objects of the cache,
    stored under their names, nodes on both clusters. *)
Definition byName {A} (name : A → string) (l : list A) : gmap string A :=
  list_to_map (map (λ x, (name x, x)) l).

Definition initialWorld (machines : list Machine) (nodes : list Node)
    (machineSets : list MachineSet) : World :=
  mkWorld (byName mName machines) (byName isName machineSets)
          (byName nName nodes) (byName nName nodes) [].

Definition noFault : nat → Call → bool := λ _ _, false.

(** A short form of an event, for reading traces. *)
Definition brief (e : Event) : string * string * Z * bool :=
  match evCall e with
  | CListMachines _ => ("ListMachines", "", 0, evOk e)
  | CListNodes _ => ("ListNodes", "", 0, evOk e)
  | CGetNode n => ("GetNode", n, 0, evOk e)
  | CPatchMachine n _ => ("PatchMachine", n, 0, evOk e)
  | CUpdateNode _ n => ("UpdateNode", nName n, 0, evOk e)
  | CUpdateMachineSet isCopy => ("UpdateMachineSet", isName isCopy, isReplicas isCopy, evOk e)
  end.

(** The names of the stored machines that carry label [k] with value "true". *)
Definition machinesLabelled (k : string) (w : World) : list string :=
  (map_to_list (filter (λ kv, mLabels kv.2 !! k = Some "true") (apiMachines w))).*1.

(** An event class establishes [Q] on machines when each of its successful
    patches turns any machine into one that satisfies [Q]; likewise for the
    nodes written to cluster [cl]. *)
Definition patchesEstablish (Q : Machine → Prop) (e : Event) : Prop :=
  ∀ name p, e = Ev (CPatchMachine name p) true →
            ∀ m m', applyMachinePatch p m = Some m' → Q m'.

Definition updatesEstablish (cl : Cluster) (Q : Node → Prop) (e : Event) : Prop :=
  ∀ n, e = Ev (CUpdateNode cl n) true → Q n.

Definition noError (err : option Error) : bool :=
  match err with None => true | Some _ => false end.

(** The calls [scaleMachineSetAndRecordEvent] logs. *)
Definition scaleEvents (ms : MachineSet) (newScale : Z) (err : option Error) : list Event :=
  if decide (isReplicas ms = newScale) then []
  else [Ev (CUpdateMachineSet (withReplicas ms newScale)) (noError err)].

(** ** Vocabulary of the claims on candidate marking *)

Definition isCandidate (ls : gmap string string) : Prop :=
  ls !! LabelKeyMachineCandidateForUpdate = Some "true".

(** The successful calls [labelNodesBackingMachineSets] can log: reads,
    label patches that carry the candidate label, and updates of target
    nodes that carry it. *)
Definition candidateEvent (e : Event) : Prop :=
  evOk e = true →
  match evCall e with
  | CListMachines _ | CGetNode _ => True
  | CPatchMachine _ (PatchAddLabels ls) => isCandidate ls
  | CUpdateNode TargetCluster n => isCandidate (nLabels n)
  | _ => False
  end.

(** What a successful run logs for machine [m]: a successful patch of the
    machine and, when the cache has its node, either nothing (the cached
    node is marked already) or a successful update of that node. *)
Definition markedBy (dc : controller) (evs : list Event) (m : Machine) : Prop :=
  (∃ p, Ev (CPatchMachine (mName m) p) true ∈ evs)
  ∧ ∀ node, findNode (label (mLabels m) NodeLabelKey) (nodeLister dc) = Some node →
            label (nLabels node) LabelKeyMachineCandidateForUpdate = "true"
            ∨ ∃ n, nName n = nName node ∧ Ev (CUpdateNode TargetCluster n) true ∈ evs.

(** ** Scenario: an old MachineSet with a machine that has no node yet *)

Module CandidateScenario.
Definition oldIS : MachineSet :=
  mkMachineSet "machineset-old" "uid-old" 1 {[ "machineset" := "old" ]} 2 1.
Definition machine0 : Machine :=
  mkMachine "machine-0" "uid-0" {[ "machineset" := "old"; NodeLabelKey := "node-0" ]}
            "machineset-old".
(** [machine1] has not been given a node name. *)
Definition machine1 : Machine :=
  mkMachine "machine-1" "uid-1" {[ "machineset" := "old" ]} "machineset-old".
Definition node0 : Node := mkNode "node-0" ∅ false.
Definition dc : controller := mkController [machine0; machine1] [node0] noFault.
Definition w0 : World := initialWorld [machine0; machine1] [node0] [oldIS].
Definition run : option Error * World :=
  labelNodesBackingMachineSets dc [Some oldIS]
    {[ LabelKeyMachineCandidateForUpdate := "true" ]} w0.
End CandidateScenario.

(** ** Vocabulary of the claims on [syncMachineSets] *)

(** The labels of a machine after the removal patch. *)
Definition updateLabelsRemoved (ls : gmap string string) : Prop :=
  ∀ k, k ∈ labelsToRemove → ls !! k = None.

(** The node state written by the uncordon loop. *)
Definition isUncordoned (n : Node) : Prop :=
  nUnschedulable n = false
  ∧ nLabels n !! LabelKeyMachineUpdateSuccessful = None
  ∧ nLabels n !! LabelKeyMachineReadyForUpdate = None.

(** The successful calls [syncMachineSets] can log. *)
Definition syncEvent (e : Event) : Prop :=
  evOk e = true →
  match evCall e with
  | CListMachines _ | CGetNode _ | CUpdateMachineSet _ => True
  | CPatchMachine _ p => p = PatchRemoveLabels labelsToRemove
  | CUpdateNode cl n => cl = TargetCluster ∧ isUncordoned n
  | CListNodes _ => False
  end.

Definition isNodeUpdate (e : Event) : Prop :=
  match evCall e with CUpdateNode _ _ => True | _ => False end.

(** A machine whose node cannot be uncordoned: it has no node-name label,
    or the lister has no node of that name. *)
Definition nodeUnavailable (dc : controller) (m : Machine) : Prop :=
  mLabels m !! NodeLabelKey = None
  ∨ ∃ name, mLabels m !! NodeLabelKey = Some name ∧ findNode name (nodeLister dc) = None.

(** ** Scenario: machines of the new MachineSet at the end of an update *)

Module SyncScenario.
Definition newIS : MachineSet :=
  mkMachineSet "machineset-new" "uid-new" 2 {[ "machineset" := "new" ]} 2 2.
Definition oldIS : MachineSet :=
  mkMachineSet "machineset-old" "uid-old" 1 {[ "machineset" := "old" ]} 0 0.
Definition deployment : MachineDeployment := mkMachineDeployment 2 1.
(** [machine0] was selected for update and has no update-successful label. *)
Definition machine0 : Machine :=
  mkMachine "machine-0" "uid-0"
    {[ "machineset" := "new"; NodeLabelKey := "node-0";
       LabelKeyMachineSelectedForUpdate := "true" ]} "machineset-new".
(** [machine1] has not been given a node name. *)
Definition machine1 : Machine :=
  mkMachine "machine-1" "uid-1" {[ "machineset" := "new" ]} "machineset-new".
Definition node0 : Node :=
  mkNode "node-0"
    {[ LabelKeyMachineCandidateForUpdate := "true";
       LabelKeyMachineSelectedForUpdate := "true" ]} true.
(** A run that succeeds: only [machine0] is listed. *)
Definition dcOk : controller := mkController [machine0] [node0] noFault.
Definition wOk : World := initialWorld [machine0] [node0] [oldIS; newIS].
Definition runOk : option Error * World := syncMachineSets dcOk [oldIS] newIS deployment wOk.
(** A run over a machine whose update has succeeded. *)
Definition machine2 : Machine :=
  mkMachine "machine-2" "uid-2"
    {[ "machineset" := "new"; NodeLabelKey := "node-2";
       LabelKeyMachineSelectedForUpdate := "true";
       LabelKeyMachineDrainSuccessful := "true";
       LabelKeyMachineUpdateSuccessful := "true" ]} "machineset-new".
Definition node2 : Node :=
  mkNode "node-2"
    {[ LabelKeyMachineUpdateSuccessful := "true";
       LabelKeyMachineReadyForUpdate := "true" ]} true.
Definition dcDone : controller := mkController [machine2] [node2] noFault.
Definition wDone : World := initialWorld [machine2] [node2] [oldIS; newIS].
Definition runDone : option Error * World :=
  syncMachineSets dcDone [oldIS] newIS deployment wDone.
End SyncScenario.

(** ** Vocabulary of the claims on selection for update *)

(** The number of machines of the old MachineSets that the lister shows
    with selected-for-update=true, as [getMachinesUndergoingUpdate] adds
    them up. *)
Definition machinesUndergoingUpdate (dc : controller) (oldISs : list MachineSet) : Z :=
  foldl (λ acc ms,
           add32 acc
             (int32_of_len
                (filter (λ m, selects (MergeStringMaps (isSelector ms)
                                         {[ LabelKeyMachineSelectedForUpdate := "true" ]})
                                      (mLabels m) = true)
                        (machineLister dc))))
        0 oldISs.

(** The machines of one MachineSet that may still be selected: candidates
    for update that are not selected yet, in the lister's order. *)
Definition eligibleForDrain (dc : controller) (ms : MachineSet) : list Machine :=
  filter (λ m, mLabels m !! LabelKeyMachineSelectedForUpdate = None)
    (filter (λ m, selects (MergeStringMaps (isSelector ms)
                             {[ LabelKeyMachineCandidateForUpdate := "true" ]})
                          (mLabels m) = true)
            (machineLister dc)).

Definition nameLe (a b : Machine) : Prop := String.leb (mName a) (mName b) = true.

#[global] Instance nameLe_dec (a b : Machine) : Decision (nameLe a b) :=
  decide (String.leb (mName a) (mName b) = true).


(** ** Scenario: the new MachineSet is at the desired size but not available *)

Module ScaleToZeroScenario.
Definition deployment : MachineDeployment := mkMachineDeployment 3 1.
Definition oldIS : MachineSet :=
  mkMachineSet "machineset-old" "uid-old" 1 {[ "machineset" := "old" ]} 2 2.
Definition newIS : MachineSet :=
  mkMachineSet "machineset-new" "uid-new" 2 {[ "machineset" := "new" ]} 3 0.
Definition machines : list Machine :=
  [ mkMachine "machine-0" "uid-0" {[ "machineset" := "old"; NodeLabelKey := "node-0" ]}
              "machineset-old";
    mkMachine "machine-1" "uid-1" {[ "machineset" := "old"; NodeLabelKey := "node-1" ]}
              "machineset-old" ].
Definition dc : controller := mkController machines [] noFault.
Definition w0 : World := initialWorld machines [] [oldIS; newIS].
Definition run : bool * option Error * World :=
  reconcileOldMachineSetsInPlace dc [oldIS; newIS] [oldIS] newIS deployment w0.
End ScaleToZeroScenario.

(** ** Scenario: the same machines listed in two orders *)

Module DrainScenario.
Definition deployment : MachineDeployment := mkMachineDeployment 3 1.
Definition oldIS : MachineSet :=
  mkMachineSet "machineset-old" "uid-old" 1 {[ "machineset" := "old" ]} 2 2.
Definition newIS : MachineSet :=
  mkMachineSet "machineset-new" "uid-new" 2 {[ "machineset" := "new" ]} 1 1.
Definition machine0 : Machine :=
  mkMachine "machine-0" "uid-0"
    {[ "machineset" := "old"; LabelKeyMachineCandidateForUpdate := "true" ]}
    "machineset-old".
Definition machine1 : Machine :=
  mkMachine "machine-1" "uid-1"
    {[ "machineset" := "old"; LabelKeyMachineCandidateForUpdate := "true" ]}
    "machineset-old".
(** The new MachineSet with its only machine unavailable. *)
Definition newISUnavailable : MachineSet :=
  mkMachineSet "machineset-new" "uid-new" 2 {[ "machineset" := "new" ]} 1 0.
Definition dcA : controller := mkController [machine1; machine0] [] noFault.
Definition w0 : World := initialWorld [machine0; machine1] [] [oldIS; newIS].
Definition runA : bool * option Error * World :=
  reconcileOldMachineSetsInPlace dcA [oldIS; newIS] [oldIS] newIS deployment w0.
End DrainScenario.

(** ** Scenario: a node that still carries selected-for-update *)

Module BudgetScenario.
(** Three replicas, at most one unavailable: two must stay available. *)
Definition deployment : MachineDeployment := mkMachineDeployment 3 1.
Definition oldA : MachineSet :=
  mkMachineSet "machineset-a" "uid-a" 1 {[ "machineset" := "a" ]} 1 1.
Definition oldB : MachineSet :=
  mkMachineSet "machineset-b" "uid-b" 2 {[ "machineset" := "b" ]} 2 2.
Definition newIS : MachineSet :=
  mkMachineSet "machineset-new" "uid-new" 3 {[ "machineset" := "new" ]} 0 0.
Definition candidate (name set node : string) : Machine :=
  mkMachine name name
    {[ "machineset" := set; NodeLabelKey := node;
       LabelKeyMachineCandidateForUpdate := "true" ]} ("machineset-" +:+ set).
Definition machineA : Machine := candidate "machine-a" "a" "node-a".
Definition machineB1 : Machine := candidate "machine-b1" "b" "node-b1".
Definition machineB2 : Machine := candidate "machine-b2" "b" "node-b2".
(** [nodeA] kept selected-for-update from an earlier rollout:
    [syncMachineSets] removes that label from machines, not from nodes. *)
Definition nodeA : Node :=
  mkNode "node-a" {[ LabelKeyMachineSelectedForUpdate := "true" ]} false.
Definition nodeB1 : Node := mkNode "node-b1" ∅ false.
Definition nodeB2 : Node := mkNode "node-b2" ∅ false.
Definition dc : controller :=
  mkController [machineA; machineB1; machineB2] [nodeA; nodeB1; nodeB2] noFault.
Definition w0 : World :=
  initialWorld [machineA; machineB1; machineB2] [nodeA; nodeB1; nodeB2] [oldA; oldB; newIS].
Definition run : bool * option Error * World :=
  reconcileOldMachineSetsInPlace dc [oldA; oldB; newIS] [oldA; oldB] newIS deployment w0.
(** What the source calls [availableMachineCount] and [minAvailable]. *)
Definition availableMachineCount : Z :=
  sub32 (GetAvailableReplicaCountForMachineSets [oldA; oldB; newIS])
        (machinesUndergoingUpdate dc [oldA; oldB]).
Definition minAvailable : Z := sub32 (dReplicas deployment) (MaxUnavailable deployment).
End BudgetScenario.

(** ** Scenario: the second ownership patch of a batch fails *)

Module PatchFailureScenario.
Definition deployment : MachineDeployment := mkMachineDeployment 3 1.
Definition oldIS : MachineSet :=
  mkMachineSet "machineset-old" "uid-old" 1 {[ "machineset" := "old" ]} 2 2.
Definition newIS : MachineSet :=
  mkMachineSet "machineset-new" "uid-new" 2 {[ "machineset" := "new" ]} 1 1.
Definition machine0 : Machine :=
  mkMachine "machine-0" "uid-0" {[ "machineset" := "old"; NodeLabelKey := "node-0" ]}
            "machineset-old".
Definition machine1 : Machine :=
  mkMachine "machine-1" "uid-1" {[ "machineset" := "old"; NodeLabelKey := "node-1" ]}
            "machineset-old".
Definition machine2 : Machine :=
  mkMachine "machine-2" "uid-2" {[ "machineset" := "new"; NodeLabelKey := "node-2" ]}
            "machineset-new".
Definition updated (name : string) : Node :=
  mkNode name {[ LabelKeyMachineUpdateSuccessful := "true" ]} true.
Definition nodes : list Node := [updated "node-0"; updated "node-1"; mkNode "node-2" ∅ false].
(** Patching the machine called [name] fails. *)
Definition failPatch (name : string) : nat → Call → bool :=
  λ _ c, match c with
         | CPatchMachine n _ => bool_decide (n = name)
         | _ => false
         end.
Definition dc : controller :=
  mkController [machine0; machine1; machine2] nodes (failPatch "machine-1").
Definition w0 : World := initialWorld [machine0; machine1; machine2] nodes [oldIS; newIS].
Definition run : bool * option Error * World :=
  reconcileNewMachineSetInPlace dc [oldIS] newIS deployment w0.
End PatchFailureScenario.

(** ** Scenario: a patch fails while the second old MachineSet is processed *)

Module TwoOldScenario.
Definition deployment : MachineDeployment := mkMachineDeployment 3 1.
Definition oldA : MachineSet :=
  mkMachineSet "machineset-a" "uid-a" 1 {[ "machineset" := "a" ]} 1 1.
Definition oldB : MachineSet :=
  mkMachineSet "machineset-b" "uid-b" 2 {[ "machineset" := "b" ]} 1 1.
Definition newIS : MachineSet :=
  mkMachineSet "machineset-new" "uid-new" 3 {[ "machineset" := "new" ]} 1 1.
Definition machineA : Machine :=
  mkMachine "machine-a" "uid-a" {[ "machineset" := "a"; NodeLabelKey := "node-a" ]}
            "machineset-a".
Definition machineB : Machine :=
  mkMachine "machine-b" "uid-b" {[ "machineset" := "b"; NodeLabelKey := "node-b" ]}
            "machineset-b".
Definition machineN : Machine :=
  mkMachine "machine-n" "uid-n" {[ "machineset" := "new"; NodeLabelKey := "node-n" ]}
            "machineset-new".
Definition nodes : list Node :=
  [ PatchFailureScenario.updated "node-a"; PatchFailureScenario.updated "node-b";
    mkNode "node-n" ∅ false ].
Definition dc : controller :=
  mkController [machineA; machineB; machineN] nodes
               (PatchFailureScenario.failPatch "machine-b").
Definition w0 : World :=
  initialWorld [machineA; machineB; machineN] nodes [oldA; oldB; newIS].
Definition run : bool * option Error * World :=
  reconcileNewMachineSetInPlace dc [oldA; oldB] newIS deployment w0.
End TwoOldScenario.

(** ** Vocabulary of the claims on ownership transfer *)

(** The number of successful machine patches in a sequence of calls. *)
Definition okPatches (evs : list Event) : Z :=
  Z.of_nat (length (filter (λ e, isPatch e ∧ evOk e = true) evs)).

Definition isList (e : Event) : Prop :=
  match evCall e with
  | CListMachines _ | CListNodes _ => True
  | _ => False
  end.

(** The scale calls of the error path, for [a] replicas added to the new
    MachineSet and [t] machines taken from the old MachineSet [ms]; a scale
    to the replica count the object already has is not sent. *)
Definition rescalePlan (newIS ms : MachineSet) (a t : Z) : list Call :=
  (if decide (isReplicas newIS = add32 (isReplicas newIS) a) then []
   else [CUpdateMachineSet (withReplicas newIS (add32 (isReplicas newIS) a))])
  ++ (if decide (isReplicas ms = sub32 (isReplicas ms) t) then []
      else [CUpdateMachineSet (withReplicas ms (sub32 (isReplicas ms) t))]).

(** [evs] carries out the calls [plan] in order, up to the first that fails. *)
Inductive stopsAtFailure : list Call → list Event → Prop :=
| stops_done : stopsAtFailure [] []
| stops_ok c plan evs :
    stopsAtFailure plan evs → stopsAtFailure (c :: plan) (Ev c true :: evs)
| stops_failed c plan : stopsAtFailure (c :: plan) [Ev c false].

(** The scale calls sent after a failed ownership patch, in no particular
    order: the new MachineSet to its replicas plus [a], the old MachineSet
    [ms] to its replicas minus [t]; a scale to the replica count the object
    already has is none of them. *)
Definition rescaleCall (newIS ms : MachineSet) (a t : Z) (c : Call) : Prop :=
  (isReplicas newIS ≠ add32 (isReplicas newIS) a
   ∧ c = CUpdateMachineSet (withReplicas newIS (add32 (isReplicas newIS) a)))
  ∨ (isReplicas ms ≠ sub32 (isReplicas ms) t
     ∧ c = CUpdateMachineSet (withReplicas ms (sub32 (isReplicas ms) t))).

(** [post] holds at most two calls, all of them scale calls of the above
    kind, and if none of them failed each scale call of that kind is there. *)
Definition rescaled (newIS ms : MachineSet) (a t : Z) (post : list Event) : Prop :=
  (length post ≤ 2)%nat
  ∧ (∀ e, e ∈ post → rescaleCall newIS ms a t (evCall e))
  ∧ (Forall (λ e, evOk e = true) post →
     ∀ c, rescaleCall newIS ms a t c → Ev c true ∈ post).

(** The successful calls [reconcileNewMachineSetInPlace] can log: the only
    machine patches are ownership patches towards the new MachineSet. *)
Definition transferEvent (newIS : MachineSet) (e : Event) : Prop :=
  evOk e = true →
  match evCall e with
  | CPatchMachine _ (PatchOwner owner _ _ _) => owner = isName newIS
  | CPatchMachine _ _ => False
  | _ => True
  end.

(** ** Vocabulary of the frame properties *)

Definition isScale (e : Event) : Prop :=
  match evCall e with CUpdateMachineSet _ => True | _ => False end.

(** [e] is an update of a node through the core client of cluster [cl]. *)
Definition updatesCluster (cl : Cluster) (e : Event) : Prop :=
  match evCall e with CUpdateNode cl' _ => cl' = cl | _ => False end.

#[global] Instance isScale_dec e : Decision (isScale e).
Proof. unfold isScale. destruct (evCall e); apply _. Defined.

(** What a patch of this file may change on a machine: labels, never the
    name, the UID or the owner. *)
Definition labelsOnly (m m' : Machine) : Prop :=
  mName m' = mName m ∧ mUID m' = mUID m ∧ mOwner m' = mOwner m.

(** A machine patch that only adds or overwrites labels keeps every label
    key. *)
Definition keepsLabelKeys (m m' : Machine) : Prop :=
  labelsOnly m m' ∧ ∀ k, is_Some (mLabels m !! k) → is_Some (mLabels m' !! k).

(** An event class relates machines by [R] when each of its successful
    patches takes a machine to an [R]-related one. *)
Definition patchesRelate (R : Machine → Machine → Prop) (e : Event) : Prop :=
  ∀ name p, e = Ev (CPatchMachine name p) true →
            ∀ m m', applyMachinePatch p m = Some m' → R m m'.
(** ** Vocabulary of the selection for update *)

Definition isSelected (ls : gmap string string) : Prop :=
  ls !! LabelKeyMachineSelectedForUpdate = Some "true".

(** The node object [labelMachinesToSelectedForUpdate] writes back. *)
Definition selectedCopy (node : Node) : Node :=
  mkNode (nName node) (<[ LabelKeyMachineSelectedForUpdate := "true" ]> (nLabels node))
         (nUnschedulable node).

(** The cache shows the node of [m] as selected for update already. *)
Definition nodeAlreadySelected (dc : controller) (m : Machine) : Prop :=
  label (mLabels m) NodeLabelKey ≠ ""
  ∧ (λ node, label (nLabels node) LabelKeyMachineSelectedForUpdate)
      <$> findNode (label (mLabels m) NodeLabelKey) (nodeLister dc) = Some "true".

#[global] Instance nodeAlreadySelected_dec dc m : Decision (nodeAlreadySelected dc m).
Proof. unfold nodeAlreadySelected. apply _. Defined.

(** The calls made while machines are selected for update: lister reads,
    label patches that carry selected-for-update=true, and updates of
    target nodes to a copy of the cached node that carries it. *)
Definition selectEvent (dc : controller) (e : Event) : Prop :=
  match evCall e with
  | CListMachines _ | CListNodes _ | CGetNode _ => True
  | CPatchMachine _ (PatchAddLabels ls) => isSelected ls
  | CUpdateNode TargetCluster n => ∃ node, node ∈ nodeLister dc ∧ n = selectedCopy node
  | _ => False
  end.

(** What a successful run logs for a chosen machine [m]: the label patch
    and, when [m] names a node, either nothing more (the cached node is
    labelled already) or the update of that node. *)
Definition selectedBy (dc : controller) (evs : list Event) (m : Machine) : Prop :=
  Ev (CPatchMachine (mName m)
        (PatchAddLabels
           (MergeStringMaps (mLabels m) {[ LabelKeyMachineSelectedForUpdate := "true" ]})))
     true ∈ evs
  ∧ (label (mLabels m) NodeLabelKey ≠ "" →
     ∃ node, findNode (label (mLabels m) NodeLabelKey) (nodeLister dc) = Some node
             ∧ (label (nLabels node) LabelKeyMachineSelectedForUpdate = "true"
                ∨ Ev (CUpdateNode TargetCluster (selectedCopy node)) true ∈ evs)).
(** The machines [labelMachinesToSelectedForUpdate] works on when the
    MachineSet [ms] is to go to [newScale]. *)
Definition chosenForUpdate (dc : controller) (ms : MachineSet) (newScale : Z) : list Machine :=
  take (Z.to_nat (sub32 (isReplicas ms) newScale)) (eligibleForDrain dc ms).

(** The calls of the branch that scales the old MachineSets to zero. *)
Definition zeroEvent (oldISs : list MachineSet) (e : Event) : Prop :=
  match evCall e with
  | CUpdateMachineSet isCopy => ∃ ms, ms ∈ oldISs ∧ isCopy = withReplicas ms 0
  | _ => False
  end.

(** An event class establishes [Q] on MachineSets when each of its
    successful updates writes a MachineSet that satisfies [Q]. *)
Definition scalesEstablish (Q : MachineSet → Prop) (e : Event) : Prop :=
  ∀ isCopy, e = Ev (CUpdateMachineSet isCopy) true → Q isCopy.

(** A successful write: a patch or an update that went through. *)
Definition isWrite (e : Event) : Prop := ¬ isRead e ∧ evOk e = true.

(** ** Vocabulary of the calls of [reconcileNewMachineSetInPlace] *)

(** The node object written back after an ownership transfer. *)
Definition uncordonedCopy (node : Node) : Node :=
  mkNode (nName node) (nLabels node) false.

(** The calls [reconcileNewMachineSetInPlace] makes while it transfers
    machines from [oldISs] to [newIS]; [scalable] are the MachineSets it may
    scale. *)
Definition transferCall (dc : controller) (oldISs : list MachineSet) (newIS : MachineSet)
    (scalable : list MachineSet) (e : Event) : Prop :=
  match evCall e with
  | CListMachines sel => ∃ ms, ms ∈ oldISs ∧ sel = isSelector ms
  | CListNodes sel => sel = {[ LabelKeyMachineUpdateSuccessful := "true" ]}
  | CPatchMachine name (PatchOwner owner ownerUID ls uid) =>
      owner = isName newIS ∧ ownerUID = isUID newIS
      ∧ ls !! LabelKeyMachineUpdateSuccessful = Some "true"
      ∧ ∃ m, m ∈ machineLister dc ∧ name = mName m ∧ uid = mUID m
  | CUpdateNode ControlCluster n =>
      ∃ node, node ∈ nodeLister dc
              ∧ nLabels node !! LabelKeyMachineUpdateSuccessful = Some "true"
              ∧ n = uncordonedCopy node
  | CUpdateMachineSet isCopy => ∃ ms r, ms ∈ scalable ∧ isCopy = withReplicas ms r
  | _ => False
  end.

(** A node as stored before, or as written by an ownership transfer. *)
Definition sameOrUncordoned (dc : controller) (n n' : Node) : Prop :=
  n' = n
  ∨ ∃ node, node ∈ nodeLister dc
            ∧ nLabels node !! LabelKeyMachineUpdateSuccessful = Some "true"
            ∧ n' = uncordonedCopy node.

(** ** Scenario: two updated machines handed over to the new MachineSet *)

Module TransferScenario.
Definition deployment : MachineDeployment := PatchFailureScenario.deployment.
Definition oldIS : MachineSet := PatchFailureScenario.oldIS.
Definition newIS : MachineSet := PatchFailureScenario.newIS.
(** The machines and nodes of [PatchFailureScenario], with no call failing. *)
Definition dc : controller :=
  mkController
    [PatchFailureScenario.machine0; PatchFailureScenario.machine1;
     PatchFailureScenario.machine2]
    PatchFailureScenario.nodes noFault.
Definition w0 : World := PatchFailureScenario.w0.
Definition run : bool * option Error * World :=
  reconcileNewMachineSetInPlace dc [oldIS] newIS deployment w0.
End TransferScenario.

(** ** Vocabulary of the calls of [syncMachineSets] *)

(** The machines the lister returns for a selector. *)
Definition matching (dc : controller) (sel : gmap string string) : list Machine :=
  filter (λ m, selects sel (mLabels m) = true) (machineLister dc).

(** The size [syncMachineSets] scales the new MachineSet to. *)
Definition syncScaleUp (dc : controller) (newIS : MachineSet) : Z :=
  add32 (isReplicas newIS)
    (wrap32
       (Z.min (Z.of_nat (length (filterMachinesWithUpdateSuccessfulLabel
                                   (matching dc (isSelector newIS)))))
              (Z.of_nat (length (matching dc (isSelector newIS))) - isReplicas newIS))).

(** The calls [syncMachineSets] makes. *)
Definition syncCall (dc : controller) (olsISs : list MachineSet) (newIS : MachineSet)
    (e : Event) : Prop :=
  match evCall e with
  | CListMachines sel => sel = isSelector newIS ∨ ∃ ms, ms ∈ olsISs ∧ sel = isSelector ms
  | CGetNode _ => True
  | CPatchMachine name p =>
      p = PatchRemoveLabels labelsToRemove
      ∧ ∃ m, m ∈ matching dc (isSelector newIS) ∧ name = mName m
             ∧ mLabels m !! LabelKeyMachineUpdateSuccessful = Some "true"
  | CUpdateNode cl n =>
      cl = TargetCluster ∧ ∃ node, node ∈ nodeLister dc ∧ n = uncordoned node
  | CUpdateMachineSet isCopy =>
      (isCopy = withReplicas newIS (syncScaleUp dc newIS)
       ∧ isReplicas newIS < Z.of_nat (length (matching dc (isSelector newIS)))
       ∧ (0 < length (filterMachinesWithUpdateSuccessfulLabel
                        (matching dc (isSelector newIS))))%nat)
      ∨ ∃ ms, ms ∈ olsISs
              ∧ isCopy = withReplicas ms (int32_of_len (matching dc (isSelector ms)))
              ∧ Z.of_nat (length (matching dc (isSelector ms))) < isReplicas ms
  | CListNodes _ => False
  end.

(** A machine after label-removal patches: the same machine, with the
    labels other than the three update labels as they were. *)
Definition updateLabelsOnly (m m' : Machine) : Prop :=
  labelsOnly m m' ∧ ∀ k, k ∉ labelsToRemove → mLabels m' !! k = mLabels m !! k.

(** A node as stored before, or as written by the uncordon loop. *)
Definition sameOrSynced (dc : controller) (n n' : Node) : Prop :=
  n' = n ∨ ∃ node, node ∈ nodeLister dc ∧ n' = uncordoned node.

(** A node as stored before, or one that carries candidate-for-update. *)
Definition sameOrCandidate (n n' : Node) : Prop :=
  n' = n ∨ isCandidate (nLabels n').

(** ** [labelMachineSets] *)

Module LabelMachineSets.

(** What [labelMachineSets] reads of a MachineSet: its name and labels. *)
Record MachineSetMeta := mkMeta {
  msName : string;
  msLabels : gmap string string
}.

(** One call of [PatchMachineSet]: the MachineSet addressed, the labels of
    the patch document and the outcome. *)
Record PatchCall := mkPatchCall {
  pcName : string;
  pcLabels : gmap string string;
  pcOk : bool
}.

(** The labels of the stored MachineSets, by name, and the calls made,
    newest first. *)
Record Api := mkApi {
  stored : gmap string (gmap string string);
  calls : list PatchCall
}.

(** [fault n name]: the call number [n] fails when it addresses [name]. *)
Record control := mkControl { fault : nat → string → bool }.

(** "failed to label MachineSet %s: %v" *)
Inductive Error := ErrFailedToLabel (machineSet : string).

(** Modelled from the spec: [machineSetControl.PatchMachineSet] belongs to
    another file of the repository.  A label patch merges into the stored
    labels of the MachineSet of that name; it fails when there is none. *)
Definition PatchMachineSet (c : control) (name : string) (labels : gmap string string)
    (a : Api) : bool * Api :=
  if fault c (length (calls a)) name
  then (false, mkApi (stored a) (mkPatchCall name labels false :: calls a))
  else match stored a !! name with
       | Some old =>
           (true, mkApi (<[name := labels ∪ old]> (stored a))
                        (mkPatchCall name labels true :: calls a))
       | None => (false, mkApi (stored a) (mkPatchCall name labels false :: calls a))
       end.

(** A [nil] entry of the slice is [None].  The variable [labels] declared
    in the loop body shadows the parameter for one iteration only. *)
Fixpoint labelMachineSets (c : control) (MachineSets : list (option MachineSetMeta))
    (labels : gmap string string) (a : Api) : option Error * Api :=
  match MachineSets with
  | [] => (None, a)
  | None :: rest => labelMachineSets c rest labels a
  | Some machineSet :: rest =>
      let labels' := MergeStringMaps (msLabels machineSet) labels in
      let '(ok, a1) := PatchMachineSet c (msName machineSet) labels' a in
      if ok then labelMachineSets c rest labels a1
      else (Some (ErrFailedToLabel (msName machineSet)), a1)
  end.

(** The stored MachineSet called [name] carries every label of [labels]. *)
Definition labelled (labels : gmap string string) (a : Api) (name : string) : Prop :=
  ∃ ls, stored a !! name = Some ls ∧ labels ⊆ ls.

(** Two MachineSets, the second of which is not stored. *)
Definition setA : MachineSetMeta := mkMeta "machineset-a" {[ "machineset" := "a" ]}.
Definition setB : MachineSetMeta := mkMeta "machineset-b" {[ "machineset" := "b" ]}.
Definition skipUpdate : gmap string string := {[ "machineset-skip-update" := "true" ]}.
Definition noFault : control := mkControl (λ _ _, false).
Definition apiBoth : Api :=
  mkApi {[ "machineset-a" := msLabels setA; "machineset-b" := msLabels setB ]} [].
Definition apiOne : Api := mkApi {[ "machineset-a" := msLabels setA ]} [].

End LabelMachineSets.

(** ** Test fixtures of the machine controller suite *)

(** The object builders of [controller_suite_test.go].  Of each object the
    model keeps the name, the labels, the owner references and the fields
    below; every object gets the same namespace, type and status, which are
    left out. *)
Module TestFixtures.

(** [fmt.Sprintf("%s-%d", s, i)] for an index [i], which is never negative. *)
Definition sprintf_sd (s : string) (i : nat) : string := s +:+ "-" +:+ pretty i.

Record ObjectMeta := mkObjectMeta {
  Name : string;
  GenerateName : string;
  Namespace : string;
  Labels : gmap string string
}.

(** [MachineTemplateSpec]: its metadata and [Spec.ProviderID]. *)
Record MachineTemplateSpec := mkTemplate {
  tObjectMeta : ObjectMeta;
  tProviderID : string
}.

Record OwnerReference := mkOwnerReference {
  oKind : string;
  oName : string
}.

Record SecretReference := mkSecretReference {
  srNamespace : string;
  srName : string
}.

Record TestMachine := mkTestMachine {
  tmName : string;
  tmLabels : gmap string string;
  tmProviderID : string;
  tmOwnerReferences : list OwnerReference
}.

Record TestMachineSet := mkTestMachineSet {
  tsKind : string;                       (* TypeMeta.Kind *)
  tsName : string;
  tsLabels : gmap string string;
  tsReplicas : Z;
  tsSelector : gmap string string;       (* Spec.Selector.MatchLabels *)
  tsTemplate : MachineTemplateSpec;      (* Spec.Template *)
  tsOwnerReferences : list OwnerReference
}.

Record TestNode := mkTestNode {
  tnName : string;
  tnLabels : gmap string string
}.

Definition newObjectMeta (meta : ObjectMeta) (index : nat) : ObjectMeta :=
  if decide (Name meta ≠ "") then meta
  else if decide (GenerateName meta ≠ "") then
    mkObjectMeta (sprintf_sd (GenerateName meta) index) (GenerateName meta)
                 (Namespace meta) (Labels meta)
  else
    mkObjectMeta (sprintf_sd "machine" index) (GenerateName meta)
                 (Namespace meta) (Labels meta).

Definition newSecretReference (meta : ObjectMeta) (index : nat) : SecretReference :=
  if decide (Name meta ≠ "") then mkSecretReference (Namespace meta) (Name meta)
  else if decide (GenerateName meta ≠ "") then
    mkSecretReference (Namespace meta) (sprintf_sd (GenerateName meta) index)
  else mkSecretReference (Namespace meta) (sprintf_sd "machine" index).

(** [newMachineSpec], of which the model keeps the provider ID. *)
Definition newMachineSpec (specTemplate : MachineTemplateSpec) (index : nat) : string :=
  if decide (tProviderID specTemplate = "") then tProviderID specTemplate
  else sprintf_sd (tProviderID specTemplate) index.

(** [owner] is [None] for a nil pointer; a nil label map is the empty map. *)
Definition newMachines (machineCount : nat) (specTemplate : MachineTemplateSpec)
    (owner : option OwnerReference) (labels : gmap string string) : list TestMachine :=
  (λ i,
     mkTestMachine
       (if decide (GenerateName (tObjectMeta specTemplate) ≠ "")
        then sprintf_sd (GenerateName (tObjectMeta specTemplate)) i
        else sprintf_sd "machine" i)
       labels
       (newMachineSpec specTemplate i)
       (match owner with Some o => [o] | None => [] end))
  <$> seq 0 machineCount.

Definition newNodes (nodeCount : nat) (labels : gmap string string) : list TestNode :=
  (λ i, mkTestNode (sprintf_sd "node" i) labels) <$> seq 0 nodeCount.

Definition newMachineSets (machineSetCount : nat) (specTemplate : MachineTemplateSpec)
    (replicas : Z) (owner : option OwnerReference) (labels : gmap string string)
  : list TestMachineSet :=
  (λ i,
     mkTestMachineSet "MachineSet" (sprintf_sd "machineset" i) labels replicas
       (Labels (tObjectMeta specTemplate)) specTemplate
       (match owner with Some o => [o] | None => [] end))
  <$> seq 0 machineSetCount.

(** The labels given, overwritten by the labels of the MachineSet's
    template; the owner is the MachineSet. *)
Definition newMachinesFromMachineSet (machineCount : nat) (machineSet : TestMachineSet)
    (labels : gmap string string) : list TestMachine :=
  let finalLabels := Labels (tObjectMeta (tsTemplate machineSet)) ∪ labels in
  newMachines machineCount (tsTemplate machineSet)
    (Some (mkOwnerReference (tsKind machineSet) (tsName machineSet))) finalLabels.

End TestFixtures.

(** ** Scenario: the state of the [syncMachineSets] table test *)

(** The entry "scale up new machine set because there are machines with
    update successful condition": the new MachineSet has two replicas and
    three machines, the first of which has been updated in place. *)
Module SyncTestScenario.
Definition deployment : MachineDeployment := mkMachineDeployment 3 1.
Definition oldIS : MachineSet :=
  mkMachineSet "machineset-0" "uid-0" 1 {[ "machineset" := "old" ]} 2 1.
Definition newIS : MachineSet :=
  mkMachineSet "machineset-1" "uid-1" 2 {[ "machineset" := "new" ]} 2 1.
Definition oldMachine (name : string) : Machine :=
  mkMachine name name {[ "machineset" := "old" ]} "machineset-0".
Definition updated : gmap string string :=
  {[ LabelKeyMachineCandidateForUpdate := "true";
     LabelKeyMachineSelectedForUpdate := "true";
     LabelKeyMachineUpdateSuccessful := "true" ]}.
Definition machine0 : Machine :=
  mkMachine "machine-0" "machine-0"
    ({[ "machineset" := "new"; NodeLabelKey := "node-0" ]} ∪ updated) "machineset-1".
Definition machine1 : Machine :=
  mkMachine "machine-1" "machine-1" {[ "machineset" := "new"; NodeLabelKey := "node-1" ]}
            "machineset-1".
Definition machine2 : Machine :=
  mkMachine "machine-2" "machine-2" {[ "machineset" := "new"; NodeLabelKey := "node-2" ]}
            "machineset-1".
Definition machines : list Machine :=
  [oldMachine "machine-old-0"; oldMachine "machine-old-1"; machine0; machine1; machine2].
Definition nodes : list Node :=
  [mkNode "node-0" updated true; mkNode "node-1" ∅ false; mkNode "node-2" ∅ false].
Definition dc : controller := mkController machines nodes noFault.
Definition w0 : World := initialWorld machines nodes [oldIS; newIS].
Definition run : option Error * World := syncMachineSets dc [oldIS] newIS deployment w0.
End SyncTestScenario.

(** ** Scenario: a rollout under way, one machine and its node selected *)

Module MidRolloutScenario.
(** Three replicas, at most two unavailable: one must stay available. *)
Definition deployment : MachineDeployment := mkMachineDeployment 3 2.
Definition oldIS : MachineSet :=
  mkMachineSet "machineset-old" "uid-old" 1 {[ "machineset" := "old" ]} 3 3.
Definition newIS : MachineSet :=
  mkMachineSet "machineset-new" "uid-new" 2 {[ "machineset" := "new" ]} 0 0.
Definition candidate (name node : string) : Machine :=
  mkMachine name name
    {[ "machineset" := "old"; NodeLabelKey := node;
       LabelKeyMachineCandidateForUpdate := "true" ]} "machineset-old".
(** [machine0] and its node were selected by an earlier reconcile. *)
Definition machine0 : Machine :=
  mkMachine "machine-0" "machine-0"
    {[ "machineset" := "old"; NodeLabelKey := "node-0";
       LabelKeyMachineCandidateForUpdate := "true";
       LabelKeyMachineSelectedForUpdate := "true" ]} "machineset-old".
Definition machine1 : Machine := candidate "machine-1" "node-1".
Definition machine2 : Machine := candidate "machine-2" "node-2".
Definition node0 : Node :=
  mkNode "node-0" {[ LabelKeyMachineCandidateForUpdate := "true";
                     LabelKeyMachineSelectedForUpdate := "true" ]} false.
Definition node1 : Node :=
  mkNode "node-1" {[ LabelKeyMachineCandidateForUpdate := "true" ]} false.
Definition node2 : Node :=
  mkNode "node-2" {[ LabelKeyMachineCandidateForUpdate := "true" ]} false.
Definition dc : controller :=
  mkController [machine0; machine1; machine2] [node0; node1; node2] noFault.
Definition w0 : World :=
  initialWorld [machine0; machine1; machine2] [node0; node1; node2] [oldIS; newIS].
End MidRolloutScenario.

(** * Properties *)

(** ** Health predicate of the machine controller *)

Section Health.
Import MachineController.

Lemma disqualifying_ok_Forall (c : controller) (conds : list NodeCondition) :
  forallb (λ cond,
             if decide (cType cond ∈ disqualifying c)
             then bool_decide (cStatus cond = ConditionFalse)
             else true) conds = true
  ↔ ∀ cond, cond ∈ conds → cType cond ∈ disqualifying c → cStatus cond = ConditionFalse.
Proof.
  induction conds as [|x conds IH]; simpl.
  - split; [intros _ cond Hin; inversion Hin | done].
  - rewrite andb_true_iff, IH. split.
    + intros [Hx Hrest] cond Hin Hd.
      apply elem_of_cons in Hin as [->|Hin]; [|by apply Hrest].
      destruct (decide (cType x ∈ disqualifying c)); [|done].
      by apply bool_decide_eq_true in Hx.
    + intros H. split.
      * destruct (decide (cType x ∈ disqualifying c)); [|done].
        apply bool_decide_eq_true, H; [left|done].
      * intros cond Hin. apply H. by right.
Qed.

Lemma isHealthy_iff (c : controller) (conds : list NodeCondition) :
  isHealthy c conds = true
  ↔ conditionStatus NodeReady conds = Some ConditionTrue
    ∧ ∀ cond, cond ∈ conds → cType cond ∈ disqualifying c → cStatus cond = ConditionFalse.
Proof.
  unfold isHealthy.
  by rewrite andb_true_iff, bool_decide_eq_true, disqualifying_ok_Forall.
Qed.

Lemma conditionStatus_other (t : string) (l1 l2 : list NodeCondition)
    (cond : NodeCondition) (s : ConditionStatus) :
  cType cond ≠ t →
  conditionStatus t (l1 ++ mkCondition (cType cond) s :: l2)
  = conditionStatus t (l1 ++ cond :: l2).
Proof.
  intros Hne. unfold conditionStatus.
  rewrite !filter_app, !filter_cons. simpl.
  by destruct (decide (cType cond = t)).
Qed.

(** The rows of the [isHealthy] table test: condition type, status it is
    set to, expected result. *)
Example isHealthy_table :
  Forall (λ '(t, s, expected),
            isHealthy testController (setCondition t s testConditions) = expected)
    [ (NodeReady, ConditionTrue, true);
      (NodeReady, ConditionFalse, false);
      (NodeReady, ConditionUnknown, false);
      (NodeDiskPressure, ConditionTrue, false);
      (NodeDiskPressure, ConditionFalse, true);
      (NodeDiskPressure, ConditionUnknown, false);
      (NodeMemoryPressure, ConditionTrue, true);
      (NodeMemoryPressure, ConditionFalse, true);
      (NodeMemoryPressure, ConditionUnknown, true);
      (NodeNetworkUnavailable, ConditionTrue, false);
      (NodeNetworkUnavailable, ConditionFalse, true);
      (NodeNetworkUnavailable, ConditionUnknown, false) ].
Proof. repeat constructor. Qed.

(** C8.  The health predicate holds exactly when the NodeReady condition
    of the machine has status True and every condition whose type is in
    the configured disqualifying set has status False.  Changing the
    status of a condition outside that set (and other than NodeReady)
    never changes the result, a disqualifying condition with status
    Unknown makes the machine unhealthy, and the configured set of the
    tests is ReadonlyFilesystem, KernelDeadlock, DiskPressure,
    NetworkUnavailable. *)
Theorem C8_isHealthy (c : controller) (conds : list NodeCondition) :
  (isHealthy c conds = true
   ↔ conditionStatus NodeReady conds = Some ConditionTrue
     ∧ ∀ cond, cond ∈ conds → cType cond ∈ disqualifying c →
               cStatus cond = ConditionFalse)
  ∧ (∀ l1 cond l2 s,
       conds = l1 ++ cond :: l2 →
       cType cond ∉ disqualifying c → cType cond ≠ NodeReady →
       isHealthy c (l1 ++ mkCondition (cType cond) s :: l2) = isHealthy c conds)
  ∧ (∀ cond, cond ∈ conds → cType cond ∈ disqualifying c →
             cStatus cond = ConditionUnknown → isHealthy c conds = false)
  ∧ disqualifying testController
    = ["ReadonlyFilesystem"; "KernelDeadlock"; "DiskPressure"; "NetworkUnavailable"].
Proof.
  split; [apply isHealthy_iff|]. split; [|split; [|reflexivity]].
  - intros l1 cond l2 s -> Hout Hne. unfold isHealthy.
    rewrite conditionStatus_other by done. f_equal.
    rewrite !forallb_app. simpl.
    by destruct (decide (cType cond ∈ disqualifying c)).
  - intros cond Hin Hd Hu.
    destruct (isHealthy c conds) eqn:E; [|done].
    apply isHealthy_iff in E as [_ E]. specialize (E cond Hin Hd). congruence.
Qed.

Lemma not_disqualifying_test (t : string) :
  bool_decide (t ∈ disqualifying testController) = false →
  t ∉ disqualifying testController.
Proof. apply bool_decide_eq_false. Qed.

Lemma C8_isHealthy_witness :
  isHealthy testController testConditions = true
  ∧ isHealthy testController (setCondition NodeMemoryPressure ConditionUnknown testConditions)
    = true
  ∧ isHealthy testController (setCondition NodeDiskPressure ConditionUnknown testConditions)
    = false.
Proof.
  destruct (C8_isHealthy testController testConditions) as (Hiff & Hout & _).
  destruct (C8_isHealthy testController
              (setCondition NodeDiskPressure ConditionUnknown testConditions))
    as (_ & _ & Hunk & _).
  assert (Hhealthy : isHealthy testController testConditions = true).
  { apply Hiff. split; [reflexivity|].
    intros cond Hin Hd. apply list_elem_of_In in Hin. simpl in Hin.
    destruct Hin as [<-|[<-|[<-|[<-|[]]]]]; try reflexivity.
    exfalso. revert Hd. by apply not_disqualifying_test. }
  split; [exact Hhealthy|split].
  - rewrite <- Hhealthy.
    apply (Hout [mkCondition NodeDiskPressure ConditionFalse]
                (mkCondition NodeMemoryPressure ConditionFalse)
                [mkCondition NodeNetworkUnavailable ConditionFalse;
                 mkCondition NodeReady ConditionTrue]
                ConditionUnknown); [reflexivity| |discriminate].
    by apply not_disqualifying_test.
  - apply (Hunk (mkCondition NodeDiskPressure ConditionUnknown)).
    + left.
    + apply (bool_decide_eq_true_1 _). reflexivity.
    + reflexivity.
Defined.

End Health.

(** ** Creation failures of the machine controller *)

Section CreationFailure.
Import MachineController.

(** C7, as stated, fails for a machine created an hour ago under the
    20-minute creation timeout of the test controller: the phase written
    for an Internal error is Failed. *)
Lemma C7_counterexample :
  triggerCreationFlow_createFailed testController 3600 0 Internal
  = Some (mkStatus MachineFailed "Internal", MediumRetry)
  ∧ triggerCreationFlow_createFailed testController 3600 0 Internal
    ≠ Some (mkStatus MachineCrashLoopBackOff "Internal", MediumRetry).
Proof. split; [reflexivity|discriminate]. Qed.

(** C7, amended.  A ResourceExhausted failure of CreateMachine gives phase
    CrashLoopBackOff, error code ResourceExhausted and LongRetry.  An
    Internal failure gives phase CrashLoopBackOff, error code Internal and
    MediumRetry while the creation timestamp is not older than
    MachineCreationTimeout; once it is older, an Internal failure gives
    phase Failed, with the same error code and retry period. *)
Theorem C7_create_failure (c : controller) (now creationTimestamp : Z) :
  triggerCreationFlow_createFailed c now creationTimestamp ResourceExhausted
  = Some (mkStatus MachineCrashLoopBackOff "ResourceExhausted", LongRetry)
  ∧ (now - creationTimestamp <= MachineCreationTimeout c →
     triggerCreationFlow_createFailed c now creationTimestamp Internal
     = Some (mkStatus MachineCrashLoopBackOff "Internal", MediumRetry))
  ∧ (MachineCreationTimeout c < now - creationTimestamp →
     triggerCreationFlow_createFailed c now creationTimestamp Internal
     = Some (mkStatus MachineFailed "Internal", MediumRetry)).
Proof.
  unfold triggerCreationFlow_createFailed, createFailurePhase. simpl.
  split; [done|].
  split; intros H; destruct (decide (MachineCreationTimeout c < now - creationTimestamp));
    try lia; done.
Qed.

Lemma C7_create_failure_witness :
  triggerCreationFlow_createFailed testController 3600 0 ResourceExhausted
  = Some (mkStatus MachineCrashLoopBackOff "ResourceExhausted", LongRetry)
  ∧ triggerCreationFlow_createFailed testController 60 0 Internal
    = Some (mkStatus MachineCrashLoopBackOff "Internal", MediumRetry)
  ∧ triggerCreationFlow_createFailed testController 3600 0 Internal
    = Some (mkStatus MachineFailed "Internal", MediumRetry).
Proof.
  destruct (C7_create_failure testController 60 0) as (_ & Hin & _).
  destruct (C7_create_failure testController 3600 0) as (Hre & _ & Hout).
  split; [exact Hre|]. split; [apply Hin; simpl; lia|].
  apply Hout. simpl. lia.
Defined.

End CreationFailure.

(** ** Calls, logs and replay *)

Lemma invoke_after (dc : controller) (c : Call) (w : World) :
  after dc (Ev c (invoke dc c w).1) w = Some (invoke dc c w).2.
Proof.
  unfold invoke, after. destruct (faulty dc w c); [done|].
  destruct (effect dc c w) eqn:E; simpl; [by rewrite E|done].
Qed.

Lemma invoke_run (dc : controller) (c : Call) (w : World) (ok : bool) (w' : World) :
  invoke dc c w = (ok, w') → replay dc [Ev c ok] w = Some w'.
Proof.
  intros H. pose proof (invoke_after dc c w) as Ha. rewrite H in Ha. simpl in *.
  by rewrite Ha.
Qed.

Lemma replay_app (dc : controller) (evs1 evs2 : list Event) (w : World) :
  replay dc (evs1 ++ evs2) w = replay dc evs1 w ≫= replay dc evs2.
Proof.
  revert w. induction evs1 as [|e evs1 IH]; intros w; simpl; [done|].
  destruct (after dc e w); simpl; [apply IH|done].
Qed.

Lemma replay_app_Some (dc : controller) (evs1 evs2 : list Event) (w w1 w2 : World) :
  replay dc evs1 w = Some w1 → replay dc evs2 w1 = Some w2 →
  replay dc (evs1 ++ evs2) w = Some w2.
Proof. intros H1 H2. by rewrite replay_app, H1. Qed.

Lemma after_log (dc : controller) (e : Event) (w w' : World) :
  after dc e w = Some w' → log w' = e :: log w.
Proof.
  unfold after. destruct e as [c ok]. simpl. destruct ok.
  - destruct (effect dc c w) as [w1|] eqn:E; [|done]. simpl. intros [= <-]. simpl.
    f_equal. destruct c; simpl in E; simplify_option_eq; try done.
    by destruct cl.
  - by intros [= <-].
Qed.

Lemma replay_log (dc : controller) (evs : list Event) (w w' : World) :
  replay dc evs w = Some w' → log w' = rev evs ++ log w.
Proof.
  revert w. induction evs as [|e evs IH]; intros w; simpl.
  - by intros [= ->].
  - destruct (after dc e w) as [w1|] eqn:E; [|done]. simpl. intros H.
    rewrite (IH _ H), (after_log _ _ _ _ E), <- app_assoc. done.
Qed.

Lemma replay_trace (dc : controller) (evs : list Event) (w w' : World) :
  replay dc evs w = Some w' → trace w' = trace w ++ evs.
Proof.
  intros H. unfold trace. rewrite (replay_log _ _ _ _ H), rev_app_distr, rev_involutive. done.
Qed.

(** Reads leave the stored objects alone. *)
Lemma after_read_sameApi (dc : controller) (e : Event) (w w' : World) :
  after dc e w = Some w' → isRead e ∨ evOk e = false → sameApi w w'.
Proof.
  unfold after, isRead. destruct e as [c ok]. simpl. intros H Hr.
  destruct ok.
  - destruct Hr as [Hr|]; [|done].
    destruct c; try done; simpl in H; simplify_option_eq; done.
  - by injection H as <-.
Qed.

Lemma replay_read_sameApi (dc : controller) (evs : list Event) (w w' : World) :
  replay dc evs w = Some w' → Forall (λ e, isRead e ∨ evOk e = false) evs → sameApi w w'.
Proof.
  revert w. induction evs as [|e evs IH]; intros w; simpl.
  - by intros [= ->].
  - destruct (after dc e w) as [w1|] eqn:E; [|done]. simpl. intros H Hall.
    apply Forall_cons in Hall as [He Hall].
    destruct (after_read_sameApi _ _ _ _ E He) as (?&?&?&?).
    destruct (IH _ H Hall) as (?&?&?&?). repeat split; congruence.
Qed.

(** Machines after a replay whose patches all establish [Q]. *)
Lemma after_patched (Q : Machine → Prop) (dc : controller) (e : Event) (w w' : World)
    (name : string) :
  after dc e w = Some w' → patchesEstablish Q e →
  (∃ m, apiMachines w !! name = Some m ∧ Q m) ∨ (∃ p, e = Ev (CPatchMachine name p) true) →
  ∃ m', apiMachines w' !! name = Some m' ∧ Q m'.
Proof.
  unfold after. destruct e as [c ok]. simpl. intros H HQ Hor.
  destruct ok; cycle 1.
  { injection H as <-. simpl. destruct Hor as [?|[p [=]]]. done. }
  destruct c; simpl in H; simplify_option_eq;
    try (destruct Hor as [?|[p' [=]]]; done).
  - destruct (decide (name0 = name)) as [->|Hne].
    + rewrite lookup_insert_eq. eexists; split; [done|]. by eapply HQ.
    + rewrite lookup_insert_ne by done. destruct Hor as [?|[p' [=]]]; done.
  - destruct cl; simpl; destruct Hor as [?|[p' [=]]]; done.
Qed.

Lemma replay_patched (Q : Machine → Prop) (dc : controller) (evs : list Event)
    (w w' : World) (name : string) :
  replay dc evs w = Some w' → Forall (patchesEstablish Q) evs →
  (∃ m, apiMachines w !! name = Some m ∧ Q m)
  ∨ (∃ p, Ev (CPatchMachine name p) true ∈ evs) →
  ∃ m', apiMachines w' !! name = Some m' ∧ Q m'.
Proof.
  revert w. induction evs as [|e evs IH]; intros w; simpl.
  - intros [= ->] _ [H|[p H]]; [done|inversion H].
  - destruct (after dc e w) as [w1|] eqn:E; [|done]. simpl. intros H Hall Hor.
    apply Forall_cons in Hall as [He Hall].
    apply (IH _ H Hall).
    destruct Hor as [Hm|[p Hin]].
    + left. eapply after_patched; eauto.
    + apply elem_of_cons in Hin as [Heq|Hin]; [|right; eauto].
      left. eapply after_patched; eauto.
Qed.

(** Nodes of a cluster after a replay whose updates all establish [Q]. *)
Lemma after_updated (cl : Cluster) (Q : Node → Prop) (dc : controller) (e : Event)
    (w w' : World) (name : string) :
  after dc e w = Some w' → updatesEstablish cl Q e →
  (∃ n, nodesOf cl w !! name = Some n ∧ Q n)
  ∨ (∃ n, nName n = name ∧ e = Ev (CUpdateNode cl n) true) →
  ∃ n', nodesOf cl w' !! name = Some n' ∧ Q n'.
Proof.
  unfold after. destruct e as [c ok]. simpl. intros H HQ Hor.
  destruct ok; cycle 1.
  { injection H as <-. destruct cl; simpl; destruct Hor as [?|[n [_ [=]]]]; done. }
  destruct c; simpl in H; simplify_option_eq;
    try (destruct cl; simpl; destruct Hor as [?|[n' [_ [=]]]]; done).
  destruct (decide (cl0 = cl)) as [->|Hcl].
  - destruct (decide (nName n = name)) as [<-|Hne].
    + exists n. split; [|by apply HQ].
      destruct cl; simpl; apply lookup_insert_eq.
    + destruct Hor as [(n0 & Hn0 & HQ0)|(n0 & Hn0 & [= ->])]; [|done].
      exists n0. split; [|done].
      destruct cl; simpl in *; by rewrite lookup_insert_ne.
  - destruct Hor as [(n0 & Hn0 & HQ0)|(n0 & Hn0 & [= -> ->])]; [|done].
    exists n0. split; [|done]. by destruct cl0, cl.
Qed.

Lemma replay_updated (cl : Cluster) (Q : Node → Prop) (dc : controller)
    (evs : list Event) (w w' : World) (name : string) :
  replay dc evs w = Some w' → Forall (updatesEstablish cl Q) evs →
  (∃ n, nodesOf cl w !! name = Some n ∧ Q n)
  ∨ (∃ n, nName n = name ∧ Ev (CUpdateNode cl n) true ∈ evs) →
  ∃ n', nodesOf cl w' !! name = Some n' ∧ Q n'.
Proof.
  revert w. induction evs as [|e evs IH]; intros w; simpl.
  - intros [= ->] _ [H|(n & _ & H)]; [done|inversion H].
  - destruct (after dc e w) as [w1|] eqn:E; [|done]. simpl. intros H Hall Hor.
    apply Forall_cons in Hall as [He Hall].
    apply (IH _ H Hall).
    destruct Hor as [Hm|(n & Hn & Hin)].
    + left. eapply after_updated; eauto.
    + apply elem_of_cons in Hin as [Heq|Hin]; [|right; eauto].
      left. eapply after_updated; eauto.
Qed.

Lemma findNode_name (name : string) (ns : list Node) (n : Node) :
  findNode name ns = Some n → nName n = name ∧ n ∈ ns.
Proof.
  unfold findNode. intros H. apply head_Some in H as [l' H].
  assert (Hin : n ∈ filter (λ n0, nName n0 = name) ns) by (rewrite H; left).
  by apply list_elem_of_filter in Hin as [? ?].
Qed.

(** ** The calls of the primitives *)

Lemma invoke_ok (dc : controller) (c : Call) (w : World) (ok : bool) (w' : World) :
  invoke dc c w = (ok, w') → after dc (Ev c ok) w = Some w'.
Proof.
  intros H. pose proof (invoke_after dc c w) as Ha. by rewrite H in Ha.
Qed.

Lemma PatchMachine_run (dc : controller) (name : string) (p : MachinePatch)
    (w : World) (err : option Error) (w' : World) :
  PatchMachine dc name p w = (err, w') →
  after dc (Ev (CPatchMachine name p) (noError err)) w = Some w'.
Proof.
  unfold PatchMachine. destruct (invoke dc _ w) as [ok w1] eqn:E.
  intros [= <- <-]. apply invoke_ok in E. by destruct ok.
Qed.

Lemma UpdateNode_run (dc : controller) (cl : Cluster) (n : Node)
    (w : World) (err : option Error) (w' : World) :
  UpdateNode dc cl n w = (err, w') →
  after dc (Ev (CUpdateNode cl n) (noError err)) w = Some w'.
Proof.
  unfold UpdateNode. destruct (invoke dc _ w) as [ok w1] eqn:E.
  intros [= <- <-]. apply invoke_ok in E. by destruct ok.
Qed.

Lemma listMachines_run (dc : controller) (sel : gmap string string)
    (w : World) (ms : list Machine) (err : option Error) (w' : World) :
  listMachines dc sel w = (ms, err, w') →
  after dc (Ev (CListMachines sel) (noError err)) w = Some w'
  ∧ (err = None → ms = filter (λ m, selects sel (mLabels m) = true) (machineLister dc)).
Proof.
  unfold listMachines. destruct (invoke dc _ w) as [ok w1] eqn:E.
  apply invoke_ok in E. destruct ok; intros [= <- <- <-]; done.
Qed.

Lemma listNodes_run (dc : controller) (sel : gmap string string)
    (w : World) (ns : list Node) (err : option Error) (w' : World) :
  listNodes dc sel w = (ns, err, w') →
  after dc (Ev (CListNodes sel) (noError err)) w = Some w'
  ∧ (err = None → ns = filter (λ n, selects sel (nLabels n) = true) (nodeLister dc)).
Proof.
  unfold listNodes. destruct (invoke dc _ w) as [ok w1] eqn:E.
  apply invoke_ok in E. destruct ok; intros [= <- <- <-]; done.
Qed.

Lemma getNode_run (dc : controller) (name : string)
    (w : World) (node : option Node) (err : option Error) (w' : World) :
  getNode dc name w = (node, err, w') →
  after dc (Ev (CGetNode name) (noError err)) w = Some w'
  ∧ match err with
    | None => ∃ n, node = Some n ∧ findNode name (nodeLister dc) = Some n
    | Some (ErrNotFound _) => findNode name (nodeLister dc) = None
    | Some _ => True
    end
  ∧ (findNode name (nodeLister dc) = None → err = Some (ErrNotFound name)).
Proof.
  unfold getNode. destruct (invoke dc _ w) as [ok w1] eqn:E.
  assert (Hok : ok = true → is_Some (findNode name (nodeLister dc))).
  { intros ->. unfold invoke in E. destruct (faulty dc w _); [done|].
    simpl in E. destruct (findNode name (nodeLister dc)); [by eexists|done]. }
  apply invoke_ok in E.
  destruct ok, (findNode name (nodeLister dc)) as [n|] eqn:F; intros [= <- <- <-];
    try done.
  - split; [done|]. split; [by eauto|done].
  - by destruct (Hok eq_refl).
Qed.

Lemma scale_run (dc : controller) (ms : MachineSet) (newScale : Z)
    (w : World) (scaled : bool) (err : option Error) (w' : World) :
  scaleMachineSetAndRecordEvent dc ms newScale w = (scaled, err, w') →
  replay dc (scaleEvents ms newScale err) w = Some w'
  ∧ (scaled = true → isReplicas ms ≠ newScale ∧ err = None)
  ∧ (isReplicas ms = newScale → err = None).
Proof.
  unfold scaleMachineSetAndRecordEvent, scaleEvents.
  destruct (decide (isReplicas ms = newScale)); [by intros [= <- <- <-]|].
  destruct (invoke dc _ w) as [ok w1] eqn:E.
  apply invoke_ok in E.
  destruct ok; intros [= <- <- <-]; cbn [replay noError]; rewrite E; done.
Qed.

Lemma replay_cons_Some (dc : controller) (e : Event) (evs : list Event)
    (w w1 w' : World) :
  after dc e w = Some w1 → replay dc evs w1 = Some w' → replay dc (e :: evs) w = Some w'.
Proof. intros H1 H2. simpl. by rewrite H1. Qed.

(** Chaining the calls of a run. *)
Lemma replay_nil (dc : controller) (w : World) : replay dc [] w = Some w.
Proof. done. Qed.

Ltac chain :=
  repeat (eapply replay_cons_Some; [eassumption|]);
  first [apply replay_nil | eassumption | (eapply replay_app_Some; eassumption)].

(** ** Marking candidates: [labelNodesBackingMachineSets] *)

Lemma markedBy_mono (dc : controller) (evs evs' : list Event) (m : Machine) :
  markedBy dc evs m → evs ⊆ evs' → markedBy dc evs' m.
Proof.
  intros [[p Hp] Hn] Hsub. split.
  - exists p. by apply Hsub.
  - intros node Hf. destruct (Hn node Hf) as [?|(n & ? & ?)]; [by left|right].
    exists n. split; [done|]. by apply Hsub.
Qed.

Lemma candidateEvent_failed (c : Call) : candidateEvent (Ev c false).
Proof. intros H. discriminate H. Qed.

Lemma candidateEvent_patch (name : string) (ls : gmap string string) (ok : bool) :
  candidateEvent
    (Ev (CPatchMachine name
           (PatchAddLabels
              (MergeStringMaps ls {[ LabelKeyMachineCandidateForUpdate := "true" ]}))) ok).
Proof.
  intros _. simpl. unfold isCandidate, MergeStringMaps.
  apply lookup_union_Some_l, lookup_singleton_eq.
Qed.

Lemma candidateEvent_get (name : string) (ok : bool) : candidateEvent (Ev (CGetNode name) ok).
Proof. by intros _. Qed.

Lemma candidateEvent_list (sel : gmap string string) (ok : bool) :
  candidateEvent (Ev (CListMachines sel) ok).
Proof. by intros _. Qed.

Lemma candidateEvent_update (node : Node) (ok : bool) :
  candidateEvent
    (Ev (CUpdateNode TargetCluster
           (mkNode (nName node)
                   (<[ LabelKeyMachineCandidateForUpdate := "true" ]> (nLabels node))
                   (nUnschedulable node))) ok).
Proof. intros _. simpl. apply lookup_insert_eq. Qed.

Create HintDb cand.
#[local] Hint Resolve candidateEvent_failed candidateEvent_patch candidateEvent_get
  candidateEvent_list candidateEvent_update : cand.

Lemma labelNodes_machines_run (dc : controller) (ms : list Machine)
    (w : World) (err : option Error) (w' : World) :
  labelNodes_machines dc ms w = (err, w') →
  ∃ evs, replay dc evs w = Some w' ∧ Forall candidateEvent evs
         ∧ (err = None →
            ∀ m, m ∈ ms → label (mLabels m) NodeLabelKey ≠ "" → markedBy dc evs m).
Proof.
  revert w. induction ms as [|m ms IH]; intros w; simpl.
  { intros [= <- <-]. exists []. split; [done|]. split; [constructor|].
    intros _ m Hin. inversion Hin. }
  destruct (decide (label (mLabels m) NodeLabelKey ≠ "")) as [Hn|Hn]; cycle 1.
  { intros H. destruct (IH _ H) as (evs & Hr & Hc & Hm).
    exists evs. split; [done|]. split; [done|].
    intros He m' Hin Hl. apply elem_of_cons in Hin as [->|Hin]; [done|]. by apply Hm. }
  destruct (PatchMachine dc _ _ w) as [e1 w1] eqn:E1. apply PatchMachine_run in E1.
  destruct e1 as [e1|].
  { intros [= <- <-]. eexists [_]. split; [chain|]. split; [|done].
    repeat constructor; auto with cand. }
  destruct (getNode dc _ w1) as [[node e2] w2] eqn:E2.
  apply getNode_run in E2 as (R2 & Hget & _).
  (* continuing with the remaining machines after the events [pre] *)
  assert (Hcont : ∀ pre,
            replay dc pre w = Some w2 → Forall candidateEvent pre → markedBy dc pre m →
            labelNodes_machines dc ms w2 = (err, w') →
            ∃ evs, replay dc evs w = Some w' ∧ Forall candidateEvent evs
              ∧ (err = None → ∀ m0, m0 ∈ m :: ms →
                   label (mLabels m0) NodeLabelKey ≠ "" → markedBy dc evs m0)).
  { intros pre Hpre Hcpre Hmk H. destruct (IH _ H) as (evs & Hr & Hc & Hm).
    exists (pre ++ evs). split; [by eapply replay_app_Some|].
    split; [by apply Forall_app|].
    intros He m0 Hin Hl. apply elem_of_cons in Hin as [->|Hin].
    - eapply markedBy_mono; [exact Hmk|]. set_solver.
    - eapply markedBy_mono; [by apply Hm|]. set_solver. }
  destruct e2 as [e2|].
  - (* the lister returned an error *)
    assert (Hret : (err, w') = (Some e2, w2) →
              ∃ evs, replay dc evs w = Some w' ∧ Forall candidateEvent evs
                ∧ (err = None → ∀ m0, m0 ∈ m :: ms →
                     label (mLabels m0) NodeLabelKey ≠ "" → markedBy dc evs m0)).
    { intros [= -> ->]. eexists [_; _]. split; [chain|]. split; [|done].
      repeat constructor; auto with cand. }
    assert (Hnf : findNode (label (mLabels m) NodeLabelKey) (nodeLister dc) = None →
              labelNodes_machines dc ms w2 = (err, w') →
              ∃ evs, replay dc evs w = Some w' ∧ Forall candidateEvent evs
                ∧ (err = None → ∀ m0, m0 ∈ m :: ms →
                     label (mLabels m0) NodeLabelKey ≠ "" → markedBy dc evs m0)).
    { intros Hf. eapply Hcont; [chain| |].
      - repeat constructor; auto with cand.
      - split; [eexists; left|]. intros node0 Hf0. congruence. }
    destruct node, e2; intros H; try (by apply Hret; rewrite H); by apply Hnf.
  - destruct Hget as (n & -> & Hf).
    destruct (decide (label (nLabels n) LabelKeyMachineCandidateForUpdate = "true")) as [Hl|Hl].
    + eapply Hcont; [chain| |].
      * repeat constructor; auto with cand.
      * split; [eexists; left|]. intros node0 Hf0. left. congruence.
    + destruct (UpdateNode dc _ _ w2) as [e3 w3] eqn:E3. apply UpdateNode_run in E3.
      destruct e3 as [e3|].
      * intros [= <- <-]. eexists [_; _; _]. split; [chain|]. split; [|done].
        repeat constructor; auto with cand.
      * intros H. destruct (IH _ H) as (evs & Hr & Hc & Hm).
        eexists (_ :: _ :: _ :: evs). split; [chain|].
        split; [repeat constructor; auto with cand|].
        intros He m0 Hin Hl0. apply elem_of_cons in Hin as [->|Hin].
        -- split; [eexists; left|]. intros node0 Hf0. right.
           eexists. split; [|right; right; left]. simpl. congruence.
        -- eapply markedBy_mono; [by apply Hm|]. set_solver.
Qed.

Lemma labelNodesBackingMachineSets_run (dc : controller)
    (machineSets : list (option MachineSet)) (lbl : gmap string string)
    (w : World) (err : option Error) (w' : World) :
  labelNodesBackingMachineSets dc machineSets lbl w = (err, w') →
  ∃ evs, replay dc evs w = Some w' ∧ Forall candidateEvent evs
         ∧ (err = None →
            ∀ machineSet m,
              Some machineSet ∈ machineSets → m ∈ machineLister dc →
              selects (isSelector machineSet) (mLabels m) = true →
              label (mLabels m) NodeLabelKey ≠ "" → markedBy dc evs m).
Proof.
  revert w. induction machineSets as [|o mss IH]; intros w; simpl.
  { intros [= <- <-]. exists []. split; [done|]. split; [constructor|].
    intros _ ms m Hin. inversion Hin. }
  destruct o as [ms|]; cycle 1.
  { intros H. destruct (IH _ H) as (evs & Hr & Hc & Hm).
    exists evs. split; [done|]. split; [done|].
    intros He ms m Hin. apply elem_of_cons in Hin as [[=]|Hin]. by apply Hm. }
  destruct (listMachines dc _ w) as [[machines e1] w1] eqn:E1.
  apply listMachines_run in E1 as [R1 Hms].
  destruct e1 as [e1|].
  { intros [= <- <-]. eexists [_]. split; [chain|]. split; [|done].
    repeat constructor; auto with cand. }
  specialize (Hms eq_refl).
  destruct (labelNodes_machines dc machines w1) as [e2 w2] eqn:E2.
  apply labelNodes_machines_run in E2 as (evs2 & R2 & C2 & M2).
  destruct e2 as [e2|].
  { intros [= <- <-]. eexists (_ :: evs2). split; [chain|]. split; [|done].
    constructor; auto with cand. }
  intros H. destruct (IH _ H) as (evs & Hr & Hc & Hm).
  exists (Ev (CListMachines (isSelector ms)) true :: evs2 ++ evs).
  split; [chain|].
  split; [constructor; [auto with cand|by apply Forall_app]|].
  intros He ms0 m Hin Hm0 Hsel Hl.
  apply elem_of_cons in Hin as [[= ->]|Hin].
  - eapply markedBy_mono; [apply (M2 eq_refl m)|]; [|done|set_solver].
    rewrite Hms. by apply list_elem_of_filter.
  - eapply markedBy_mono; [by eapply Hm|]. set_solver.
Qed.






(** ** [syncMachineSets] *)

Lemma syncEvent_failed (c : Call) : syncEvent (Ev c false).
Proof. intros H. discriminate H. Qed.

Lemma syncEvent_list (sel : gmap string string) (ok : bool) :
  syncEvent (Ev (CListMachines sel) ok).
Proof. by intros _. Qed.

Lemma syncEvent_get (name : string) (ok : bool) : syncEvent (Ev (CGetNode name) ok).
Proof. by intros _. Qed.

Lemma syncEvent_patch (name : string) (ok : bool) :
  syncEvent (Ev (CPatchMachine name (PatchRemoveLabels labelsToRemove)) ok).
Proof. by intros _. Qed.

Lemma isUncordoned_uncordoned (node : Node) : isUncordoned (uncordoned node).
Proof.
  unfold isUncordoned, uncordoned. simpl. split; [done|]. split.
  - rewrite lookup_delete_ne by done. apply lookup_delete_eq.
  - apply lookup_delete_eq.
Qed.

Lemma syncEvent_update (node : Node) (ok : bool) :
  syncEvent (Ev (CUpdateNode TargetCluster (uncordoned node)) ok).
Proof. intros _. simpl. split; [done|apply isUncordoned_uncordoned]. Qed.

Lemma syncEvent_scale (ms : MachineSet) (newScale : Z) (err : option Error) :
  Forall syncEvent (scaleEvents ms newScale err).
Proof.
  unfold scaleEvents. destruct (decide _); repeat constructor.
Qed.

(** Event-wise proofs over an explicit list of events. *)
Ltac forall_events tac :=
  repeat (apply Forall_cons_2; [solve [tac]|]);
  first [apply Forall_nil_2 | assumption | idtac].

Create HintDb sync.
#[local] Hint Resolve syncEvent_failed syncEvent_list syncEvent_get syncEvent_patch
  syncEvent_update : sync.

Lemma scaleEvents_no_node_update (ms : MachineSet) (newScale : Z) (err : option Error) :
  Forall (λ e, ¬ isNodeUpdate e ∧ ¬ isPatch e) (scaleEvents ms newScale err).
Proof.
  unfold scaleEvents. destruct (decide _); repeat constructor; by intros [].
Qed.

Lemma syncMachineSets_removeLabels_run (dc : controller) (ms : list Machine)
    (w : World) (err : option Error) (w' : World) :
  syncMachineSets_removeLabels dc ms w = (err, w') →
  ∃ evs, replay dc evs w = Some w' ∧ Forall syncEvent evs
         ∧ Forall (λ e, ¬ isNodeUpdate e) evs
         ∧ (err = None →
            ∀ m, m ∈ ms →
                 Ev (CPatchMachine (mName m) (PatchRemoveLabels labelsToRemove)) true ∈ evs).
Proof.
  revert w. induction ms as [|m ms IH]; intros w; simpl.
  { intros [= <- <-]. exists []. split; [done|]. do 2 (split; [constructor|]).
    intros _ m Hin. inversion Hin. }
  destruct (PatchMachine dc _ _ w) as [e1 w1] eqn:E1. apply PatchMachine_run in E1.
  destruct e1 as [e1|].
  { intros [= <- <-]. eexists [_]. split; [chain|].
    split; [forall_events ltac:(auto with sync)|]. split; [|done].
    forall_events ltac:(by intros []). }
  intros H. destruct (IH _ H) as (evs & Hr & Hc & Hnu & Hm).
  eexists (_ :: evs). split; [chain|].
  split; [apply Forall_cons_2; [auto with sync|done]|].
  split; [constructor; [by intros []|done]|].
  intros He m0 Hin. apply elem_of_cons in Hin as [->|Hin]; [left|right; by apply Hm].
Qed.

Lemma syncMachineSets_uncordon_run (dc : controller) (ms : list Machine)
    (w : World) (err : option Error) (w' : World) :
  syncMachineSets_uncordon dc ms w = (err, w') →
  ∃ evs, replay dc evs w = Some w' ∧ Forall syncEvent evs
         ∧ Forall (λ e, ¬ isPatch e) evs
         ∧ (err = None →
            ∀ m, m ∈ ms →
                 ∃ nodeName node,
                   mLabels m !! NodeLabelKey = Some nodeName
                   ∧ findNode nodeName (nodeLister dc) = Some node
                   ∧ Ev (CUpdateNode TargetCluster (uncordoned node)) true ∈ evs)
         ∧ (∀ pre b rest,
              ms = pre ++ b :: rest → nodeUnavailable dc b →
              err ≠ None
              ∧ ∀ cl n, Ev (CUpdateNode cl n) true ∈ evs →
                        ∃ m, m ∈ pre ∧ mLabels m !! NodeLabelKey = Some (nName n)).
Proof.
  revert w. induction ms as [|m ms IH]; intros w; simpl.
  { intros [= <- <-]. exists []. split; [done|]. do 2 (split; [constructor|]).
    split; [intros _ m Hin; inversion Hin|].
    intros pre b rest Hnil. by destruct pre. }
  destruct (mLabels m !! NodeLabelKey) as [nodeName|] eqn:Hlbl; cycle 1.
  { intros [= <- <-]. exists []. split; [done|]. do 2 (split; [constructor|]).
    split; [done|]. intros pre b rest Hms Hb. split; [done|].
    intros cl n Hin. inversion Hin. }
  destruct (getNode dc nodeName w) as [[node e1] w1] eqn:E1.
  apply getNode_run in E1 as (R1 & Hget & Hmiss).
  assert (Hfail : e1 ≠ None → (err, w') = (Some (ErrGetNode nodeName), w1) →
            ∃ evs, replay dc evs w = Some w' ∧ Forall syncEvent evs
              ∧ Forall (λ e, ¬ isPatch e) evs
              ∧ (err = None → ∀ m0, m0 ∈ m :: ms →
                   ∃ nodeName node,
                     mLabels m0 !! NodeLabelKey = Some nodeName
                     ∧ findNode nodeName (nodeLister dc) = Some node
                     ∧ Ev (CUpdateNode TargetCluster (uncordoned node)) true ∈ evs)
              ∧ (∀ pre b rest,
                   m :: ms = pre ++ b :: rest → nodeUnavailable dc b →
                   err ≠ None
                   ∧ ∀ cl n, Ev (CUpdateNode cl n) true ∈ evs →
                             ∃ m, m ∈ pre ∧ mLabels m !! NodeLabelKey = Some (nName n))).
  { intros Hne [= -> ->]. eexists [_]. split; [chain|].
    split; [forall_events ltac:(auto with sync)|].
    split; [forall_events ltac:(by intros [])|]. split; [done|].
    intros pre b rest _ _. split; [done|]. intros cl n Hin.
    apply list_elem_of_singleton in Hin. destruct e1; [discriminate Hin|done]. }
  destruct e1 as [e1|]; [destruct node; intros H; by apply Hfail; rewrite ?H|].
  destruct Hget as (n & -> & Hf).
  destruct (UpdateNode dc _ _ w1) as [e2 w2] eqn:E2. apply UpdateNode_run in E2.
  destruct e2 as [e2|].
  { intros [= <- <-]. eexists [_; _]. split; [chain|].
    split; [forall_events ltac:(auto with sync)|].
    split; [forall_events ltac:(by intros [])|]. split; [done|].
    intros pre b rest _ _. split; [done|]. intros cl n0 Hin.
    apply elem_of_cons in Hin as [[=]|Hin]. apply list_elem_of_singleton in Hin as [=]. }
  intros H. destruct (IH _ H) as (evs & Hr & Hc & Hnp & Hm & Hbad).
  eexists (_ :: _ :: evs). split; [chain|].
  split; [forall_events ltac:(auto with sync)|].
  split; [do 2 (apply Forall_cons_2; [by intros []|]); done|].
  split.
  - intros He m0 Hin. apply elem_of_cons in Hin as [->|Hin].
    + exists nodeName, n. split; [done|]. split; [done|]. right; left.
    + destruct (Hm He m0 Hin) as (nn & nd & ? & ? & ?).
      exists nn, nd. split; [done|]. split; [done|]. by do 2 right.
  - intros pre b rest Hms Hb. destruct pre as [|p pre]; simpl in Hms.
    + injection Hms as <- <-. destruct Hb as [Hb|(name & Hb1 & Hb2)]; congruence.
    + injection Hms as <- ->. destruct (Hbad pre b rest eq_refl Hb) as [Herr Hup].
      split; [done|]. intros cl n0 Hin.
      apply elem_of_cons in Hin as [[=]|Hin].
      apply elem_of_cons in Hin as [[= -> ->]|Hin].
      * exists m. split; [left|]. simpl.
        apply findNode_name in Hf as [-> _]. done.
      * destruct (Hup cl n0 Hin) as (m0 & ? & ?). exists m0. split; [by right|done].
Qed.

Lemma syncMachineSets_scaleDown_run (dc : controller) (olsISs : list MachineSet)
    (deployment : MachineDeployment) (w : World) (err : option Error) (w' : World) :
  syncMachineSets_scaleDown dc olsISs deployment w = (err, w') →
  ∃ evs, replay dc evs w = Some w' ∧ Forall syncEvent evs
         ∧ Forall (λ e, ¬ isNodeUpdate e ∧ ¬ isPatch e) evs.
Proof.
  revert w. induction olsISs as [|ms mss IH]; intros w; simpl.
  { intros [= <- <-]. exists []. split; [done|]. split; constructor. }
  destruct (listMachines dc _ w) as [[machines e1] w1] eqn:E1.
  apply listMachines_run in E1 as [R1 _].
  destruct e1 as [e1|].
  { intros [= <- <-]. eexists [_]. split; [chain|]. split.
    - forall_events ltac:(auto with sync).
    - forall_events ltac:(split; by intros []). }
  destruct (decide _).
  - destruct (scaleMachineSetAndRecordEvent dc ms _ w1) as [[sc e2] w2] eqn:E2.
    apply scale_run in E2 as [R2 _].
    assert (Hpre : replay dc (Ev (CListMachines (isSelector ms)) true
                              :: scaleEvents ms (int32_of_len machines) e2) w = Some w2)
      by chain.
    assert (Hs : Forall syncEvent (Ev (CListMachines (isSelector ms)) true
                                   :: scaleEvents ms (int32_of_len machines) e2))
      by (apply Forall_cons_2; [auto with sync|apply syncEvent_scale]).
    assert (Hn : Forall (λ e, ¬ isNodeUpdate e ∧ ¬ isPatch e)
                   (Ev (CListMachines (isSelector ms)) true
                    :: scaleEvents ms (int32_of_len machines) e2))
      by (apply Forall_cons_2; [split; by intros []|apply scaleEvents_no_node_update]).
    destruct e2 as [e2|].
    + intros [= <- <-]. eexists. split; [exact Hpre|]. by split.
    + intros H. destruct (IH _ H) as (evs & Hr & Hc & Hn').
      eexists (_ ++ evs). split; [eapply replay_app_Some; eassumption|].
      split; by apply Forall_app.
  - intros H. destruct (IH _ H) as (evs & Hr & Hc & Hn).
    eexists (_ :: evs). split; [chain|]. split.
    + apply Forall_cons_2; [auto with sync|done].
    + apply Forall_cons_2; [split; by intros []|done].
Qed.

Lemma not_node_update_elem (l : list Event) (cl : Cluster) (n : Node) (ok : bool) :
  Forall (λ e, ¬ isNodeUpdate e) l → Ev (CUpdateNode cl n) ok ∉ l.
Proof.
  intros Hall Hin. rewrite Forall_forall in Hall. by apply (Hall _ Hin).
Qed.

Lemma scaleEvents_not_node_update (ms : MachineSet) (r : Z) (err : option Error) :
  Forall (λ e, ¬ isNodeUpdate e) (scaleEvents ms r err).
Proof.
  eapply Forall_impl; [apply scaleEvents_no_node_update|]. by intros e [? _].
Qed.

Lemma syncMachineSets_run (dc : controller) (olsISs : list MachineSet) (newIS : MachineSet)
    (deployment : MachineDeployment) (w : World) (err : option Error) (w' : World) :
  syncMachineSets dc olsISs newIS deployment w = (err, w') →
  ∃ evs,
    replay dc evs w = Some w' ∧ Forall syncEvent evs
    ∧ (err = None →
       ∀ m, m ∈ machineLister dc → selects (isSelector newIS) (mLabels m) = true →
            (mLabels m !! LabelKeyMachineUpdateSuccessful = Some "true" →
             Ev (CPatchMachine (mName m) (PatchRemoveLabels labelsToRemove)) true ∈ evs)
            ∧ ∃ nodeName node,
                mLabels m !! NodeLabelKey = Some nodeName
                ∧ findNode nodeName (nodeLister dc) = Some node
                ∧ Ev (CUpdateNode TargetCluster (uncordoned node)) true ∈ evs)
    ∧ (∀ pre b rest,
         filter (λ m, selects (isSelector newIS) (mLabels m) = true) (machineLister dc)
         = pre ++ b :: rest →
         nodeUnavailable dc b →
         err ≠ None
         ∧ ∀ cl n, Ev (CUpdateNode cl n) true ∈ evs →
                   ∃ m, m ∈ pre ∧ mLabels m !! NodeLabelKey = Some (nName n)).
Proof.
  unfold syncMachineSets.
  destruct (listMachines dc _ w) as [[machines e1] w1] eqn:E1.
  apply listMachines_run in E1 as [R1 Hms].
  destruct e1 as [e1|].
  { intros [= <- <-]. eexists [_]. split; [chain|].
    split; [forall_events ltac:(auto with sync)|]. split; [done|].
    intros pre b rest _ _. split; [done|]. intros cl n Hin.
    apply list_elem_of_singleton in Hin as [=]. }
  specialize (Hms eq_refl). subst machines.
  set (machines := filter _ (machineLister dc)).
  set (succ := filterMachinesWithUpdateSuccessfulLabel machines).
  (* the optional scale-up of the new MachineSet *)
  cbv zeta.
  match goal with
  | |- context [if decide ?P then ?a else ?b] => set (sc := if decide P then a else b)
  end.
  assert (Hscale : ∃ evs2, replay dc evs2 w1 = Some sc.2 ∧ Forall syncEvent evs2
                           ∧ Forall (λ e, ¬ isNodeUpdate e) evs2).
  { subst sc. destruct (decide _).
    - destruct (scaleMachineSetAndRecordEvent dc newIS _ w1) as [[sc e2] w2] eqn:E2.
      apply scale_run in E2 as [R2 _].
      eexists. split; [exact R2|].
      split; [apply syncEvent_scale|apply scaleEvents_not_node_update].
    - exists []. split; [done|]. split; constructor. }
  clearbody sc. destruct sc as [e2 w2]. destruct Hscale as (evs2 & R2 & C2 & N2).
  simpl in R2.
  assert (Hpre2 : replay dc (Ev (CListMachines (isSelector newIS)) true :: evs2) w = Some w2)
    by chain.
  assert (Cpre2 : Forall syncEvent (Ev (CListMachines (isSelector newIS)) true :: evs2))
    by (apply Forall_cons_2; [auto with sync|done]).
  assert (Npre2 : Forall (λ e, ¬ isNodeUpdate e)
                    (Ev (CListMachines (isSelector newIS)) true :: evs2))
    by (apply Forall_cons_2; [by intros []|done]).
  destruct e2 as [e2|].
  { intros [= <- <-]. eexists. split; [exact Hpre2|]. split; [done|]. split; [done|].
    intros pre b rest _ _. split; [done|]. intros cl n Hin.
    (exfalso; eapply not_node_update_elem; [|exact Hin]; assumption). }
  destruct (syncMachineSets_removeLabels dc succ w2) as [e3 w3] eqn:E3.
  apply syncMachineSets_removeLabels_run in E3 as (evs3 & R3 & C3 & N3 & M3).
  assert (Hpre3 : replay dc ((Ev (CListMachines (isSelector newIS)) true :: evs2) ++ evs3) w
                  = Some w3) by (eapply replay_app_Some; eassumption).
  destruct e3 as [e3|].
  { intros [= <- <-]. eexists. split; [exact Hpre3|].
    split; [by apply Forall_app|]. split; [done|].
    intros pre b rest _ _. split; [done|]. intros cl n Hin.
    apply elem_of_app in Hin as [Hin|Hin]; (exfalso; eapply not_node_update_elem; [|exact Hin]; assumption). }
  destruct (syncMachineSets_uncordon dc machines w3) as [e4 w4] eqn:E4.
  apply syncMachineSets_uncordon_run in E4 as (evs4 & R4 & C4 & N4 & M4 & B4).
  assert (Hpre4 : replay dc (((Ev (CListMachines (isSelector newIS)) true :: evs2) ++ evs3)
                             ++ evs4) w = Some w4) by (eapply replay_app_Some; eassumption).
  assert (Hupd : ∀ evs5 cl n,
            Forall (λ e, ¬ isNodeUpdate e) evs5 →
            Ev (CUpdateNode cl n) true
            ∈ (((Ev (CListMachines (isSelector newIS)) true :: evs2) ++ evs3) ++ evs4) ++ evs5 →
            Ev (CUpdateNode cl n) true ∈ evs4).
  { intros evs5 cl n N5 Hin. rewrite !elem_of_app in Hin.
    destruct Hin as [[[Hin|Hin]|Hin]|Hin]; try done;
      (exfalso; eapply not_node_update_elem; [|exact Hin]; assumption). }
  destruct e4 as [e4|].
  { intros [= <- <-]. eexists. split; [exact Hpre4|].
    split; [repeat apply Forall_app_2; done|]. split; [done|].
    intros pre b rest Hms Hb. split; [done|]. intros cl n Hin.
    destruct (B4 pre b rest Hms Hb) as [_ Hup]. apply (Hup cl n).
    apply (Hupd [] cl n); [constructor|]. by rewrite app_nil_r. }
  intros E5. apply syncMachineSets_scaleDown_run in E5 as (evs5 & R5 & C5 & N5).
  assert (N5' : Forall (λ e, ¬ isNodeUpdate e) evs5)
    by (eapply Forall_impl; [exact N5|]; by intros e [? _]).
  eexists (_ ++ evs5). split; [eapply replay_app_Some; eassumption|].
  split; [repeat apply Forall_app_2; done|]. split.
  - intros -> m Hm Hsel.
    assert (Hin : m ∈ machines) by (by apply list_elem_of_filter).
    split.
    + intros Hs. rewrite !elem_of_app. left. left. right.
      apply (M3 eq_refl). by apply list_elem_of_filter.
    + destruct (M4 eq_refl m Hin) as (nn & nd & ? & ? & ?).
      exists nn, nd. split; [done|]. split; [done|].
      rewrite !elem_of_app. left. by right.
  - intros pre b rest Hms Hb. destruct (B4 pre b rest Hms Hb) as [Hne _]. done.
Qed.

Lemma updateLabelsRemoved_patch (ls : gmap string string) :
  updateLabelsRemoved (foldr delete ls labelsToRemove).
Proof.
  intros k Hk. unfold labelsToRemove in *. simpl.
  repeat (apply elem_of_cons in Hk as [->|Hk]);
    [| |  |inversion Hk]; rewrite ?lookup_delete; repeat case_decide; done.
Qed.

Lemma syncEvent_patches (e : Event) :
  syncEvent e → patchesEstablish (λ m, updateLabelsRemoved (mLabels m)) e.
Proof.
  intros Hc name p -> m m' Hp. specialize (Hc eq_refl). simpl in Hc. subst p.
  simpl in Hp. injection Hp as <-. simpl. apply updateLabelsRemoved_patch.
Qed.

Lemma syncEvent_updates (e : Event) :
  syncEvent e → updatesEstablish TargetCluster isUncordoned e.
Proof. intros Hc n ->. by destruct (Hc eq_refl). Qed.

(** C10: in the state of the table test of syncMachineSets the run succeeds
    and scales the new MachineSet to 3, as the test expects; [machine-0]
    loses selected-for-update and update-successful but keeps
    candidate-for-update, and [node-0] is uncordoned but keeps
    candidate-for-update and selected-for-update.  In another state, a
    machine of the new MachineSet that carries selected-for-update but not
    update-successful keeps that label after a successful run. *)
Theorem C10_update_labels_left :
  SyncTestScenario.run.1 = None
  ∧ isReplicas <$> apiMachineSets SyncTestScenario.run.2 !! "machineset-1" = Some 3
  ∧ (m ← apiMachines SyncTestScenario.run.2 !! "machine-0";
     mLabels m !! LabelKeyMachineSelectedForUpdate) = None
  ∧ (m ← apiMachines SyncTestScenario.run.2 !! "machine-0";
     mLabels m !! LabelKeyMachineCandidateForUpdate) = Some "true"
  ∧ nUnschedulable <$> targetNodes SyncTestScenario.run.2 !! "node-0" = Some false
  ∧ (n ← targetNodes SyncTestScenario.run.2 !! "node-0";
     nLabels n !! LabelKeyMachineCandidateForUpdate) = Some "true"
  ∧ (n ← targetNodes SyncTestScenario.run.2 !! "node-0";
     nLabels n !! LabelKeyMachineSelectedForUpdate) = Some "true"
  ∧ SyncScenario.runOk.1 = None
  ∧ selects (isSelector SyncScenario.newIS) (mLabels SyncScenario.machine0) = true
  ∧ (m ← apiMachines SyncScenario.runOk.2 !! "machine-0";
     mLabels m !! LabelKeyMachineSelectedForUpdate) = Some "true".
Proof. repeat split; vm_compute; reflexivity. Qed.

(** What a run of [syncMachineSets] without error does establish: every
    machine matching the selector of the new MachineSet that carries
    update-successful=true has lost selected-for-update, drain-successful
    and update-successful, and every machine matching that selector has a
    node-name label whose node is uncordoned on the target cluster and has
    lost the update-successful and ready-for-update labels. *)
Lemma syncMachineSets_success_removes (dc : controller) (olsISs : list MachineSet)
    (newIS : MachineSet) (deployment : MachineDeployment) (w w' : World) (m : Machine) :
  syncMachineSets dc olsISs newIS deployment w = (None, w') →
  m ∈ machineLister dc →
  selects (isSelector newIS) (mLabels m) = true →
  (mLabels m !! LabelKeyMachineUpdateSuccessful = Some "true" →
   ∃ m', apiMachines w' !! mName m = Some m' ∧ updateLabelsRemoved (mLabels m'))
  ∧ ∃ nodeName n',
      mLabels m !! NodeLabelKey = Some nodeName
      ∧ targetNodes w' !! nodeName = Some n'
      ∧ isUncordoned n'.
Proof.
  intros Hrun Hm Hsel.
  apply syncMachineSets_run in Hrun as (evs & Hr & Hc & Hok & _).
  destruct (Hok eq_refl m Hm Hsel) as [Hp (nodeName & node & Hl & Hf & Hu)].
  split.
  - intros Hs.
    eapply (replay_patched (λ m, updateLabelsRemoved (mLabels m))); [exact Hr| |].
    + eapply Forall_impl; [exact Hc|]. apply syncEvent_patches.
    + right. eexists. by apply Hp.
  - exists nodeName.
    destruct (replay_updated TargetCluster isUncordoned dc evs w w' nodeName Hr)
      as (n' & Hn' & Hun).
    + eapply Forall_impl; [exact Hc|]. apply syncEvent_updates.
    + right. exists (uncordoned node). split; [|done].
      simpl. by apply findNode_name in Hf as [? _].
    + by exists n'.
Qed.

Lemma syncMachineSets_success_removes_example :
  (∃ m', apiMachines SyncScenario.runDone.2 !! "machine-2" = Some m'
         ∧ updateLabelsRemoved (mLabels m'))
  ∧ ∃ n', targetNodes SyncScenario.runDone.2 !! "node-2" = Some n' ∧ isUncordoned n'.
Proof.
  destruct (syncMachineSets_success_removes SyncScenario.dcDone [SyncScenario.oldIS]
              SyncScenario.newIS SyncScenario.deployment SyncScenario.wDone
              SyncScenario.runDone.2
              SyncScenario.machine2) as [Hm (nodeName & n' & Hl & Hn & Hu)].
  - vm_compute. reflexivity.
  - left.
  - vm_compute. reflexivity.
  - split; [apply Hm; vm_compute; reflexivity|].
    exists n'. split; [|exact Hu].
    assert (nodeName = "node-2") as <-; [|exact Hn].
    revert Hl. vm_compute. congruence.
Defined.




(** ** Waiting for the availability budget: [reconcileOldMachineSetsInPlace] *)

Lemma getMachinesUndergoingUpdate_loop_run (dc : controller) (oldISs : list MachineSet)
    (acc : Z) (w : World) (u : Z) (err : option Error) (w' : World) :
  getMachinesUndergoingUpdate_loop dc oldISs acc w = (u, err, w') →
  ∃ evs, replay dc evs w = Some w' ∧ Forall isRead evs
         ∧ (err = None →
            u = foldl (λ acc ms,
                         add32 acc
                           (int32_of_len
                              (filter (λ m, selects
                                              (MergeStringMaps (isSelector ms)
                                                 {[ LabelKeyMachineSelectedForUpdate := "true" ]})
                                              (mLabels m) = true)
                                      (machineLister dc))))
                      acc oldISs)
         ∧ (Forall (λ e, evOk e = true) evs → err = None).
Proof.
  revert acc w. induction oldISs as [|ms mss IH]; intros acc w; simpl.
  { intros [= <- <- <-]. exists []. split; [done|]. split; [constructor|]. done. }
  destruct (listMachines dc _ w) as [[machines e1] w1] eqn:E1.
  apply listMachines_run in E1 as [R1 Hms].
  destruct e1 as [e1|].
  { intros [= <- <- <-]. eexists [_]. split; [chain|].
    split; [forall_events ltac:(exact I)|]. split; [done|].
    intros Hall. apply Forall_cons_1 in Hall as [Hok _]. discriminate Hok. }
  rewrite (Hms eq_refl). intros H.
  destruct (IH _ _ H) as (evs & Hr & Hc & Hu & Hok).
  eexists (_ :: evs). split; [chain|].
  split; [apply Forall_cons_2; [exact I|done]|]. split; [done|].
  intros Hall. apply Forall_cons_1 in Hall as [_ Hall]. by apply Hok.
Qed.

(** C4, as stated, fails when the new MachineSet already has the desired
    number of replicas: the value is 0, yet the function scales the old
    MachineSet down to zero and returns true. *)
Lemma C4_counterexample :
  maxUpdatePossible [ScaleToZeroScenario.oldIS; ScaleToZeroScenario.newIS]
    ScaleToZeroScenario.newIS ScaleToZeroScenario.deployment
    (machinesUndergoingUpdate ScaleToZeroScenario.dc [ScaleToZeroScenario.oldIS]) = 0
  ∧ ScaleToZeroScenario.run.1 = (true, None)
  ∧ isReplicas <$> apiMachineSets ScaleToZeroScenario.w0 !! "machineset-old" = Some 2
  ∧ isReplicas <$> apiMachineSets ScaleToZeroScenario.run.2 !! "machineset-old" = Some 0.
Proof. repeat split; vm_compute; reflexivity. Qed.

(** C4, amended.  When the old MachineSets have replicas left and the new
    MachineSet is not yet at the deployment's replica count,
    reconcileOldMachineSetsInPlace computes maxUpdatePossible =
    allMachinesCount - (spec.replicas - maxUnavailable) - (new MachineSet's
    spec.replicas - its availableReplicas) - (count of old-MachineSet
    machines labelled selected-for-update); if this value is at most 0 the
    function only reads from the listers, returns false (without error when
    the reads succeed) and leaves every stored object as it was. *)
Theorem C4_wait (dc : controller) (allISs oldISs : list MachineSet) (newIS : MachineSet)
    (deployment : MachineDeployment) (w : World) :
  GetReplicaCountForMachineSets oldISs ≠ 0 →
  isReplicas newIS ≠ dReplicas deployment →
  maxUpdatePossible allISs newIS deployment (machinesUndergoingUpdate dc oldISs) <= 0 →
  maxUpdatePossible allISs newIS deployment (machinesUndergoingUpdate dc oldISs)
  = sub32 (sub32 (sub32 (GetReplicaCountForMachineSets allISs)
                        (sub32 (dReplicas deployment) (MaxUnavailable deployment)))
                 (sub32 (isReplicas newIS) (isAvailableReplicas newIS)))
          (machinesUndergoingUpdate dc oldISs)
  ∧ ∃ evs,
      (reconcileOldMachineSetsInPlace dc allISs oldISs newIS deployment w).1.1 = false
      ∧ trace (reconcileOldMachineSetsInPlace dc allISs oldISs newIS deployment w).2
        = trace w ++ evs
      ∧ Forall isRead evs
      ∧ sameApi w (reconcileOldMachineSetsInPlace dc allISs oldISs newIS deployment w).2
      ∧ (Forall (λ e, evOk e = true) evs →
         (reconcileOldMachineSetsInPlace dc allISs oldISs newIS deployment w).1.2 = None).
Proof.
  intros Hold Hnew Hmax. split; [reflexivity|].
  unfold reconcileOldMachineSetsInPlace.
  destruct (decide (GetReplicaCountForMachineSets oldISs = 0)); [done|].
  destruct (decide (isReplicas newIS = dReplicas deployment)); [done|].
  unfold getMachinesUndergoingUpdate.
  destruct (getMachinesUndergoingUpdate_loop dc oldISs 0 w) as [[u err] w1] eqn:E.
  apply getMachinesUndergoingUpdate_loop_run in E as (evs & Hr & Hread & Hu & Hok).
  assert (Hsame : sameApi w w1).
  { eapply replay_read_sameApi; [exact Hr|]. eapply Forall_impl; [exact Hread|]. by left. }
  exists evs. destruct err as [e|]; simpl.
  - split; [done|]. split; [by apply replay_trace in Hr|]. split; [done|].
    split; [done|]. intros Hall. by specialize (Hok Hall).
  - rewrite (Hu eq_refl). fold (machinesUndergoingUpdate dc oldISs).
    destruct (decide _); [|done]. simpl.
    split; [done|]. split; [by apply replay_trace in Hr|]. done.
Qed.

Lemma C4_wait_witness :
  (reconcileOldMachineSetsInPlace DrainScenario.dcA
     [DrainScenario.oldIS; DrainScenario.newISUnavailable] [DrainScenario.oldIS]
     DrainScenario.newISUnavailable DrainScenario.deployment DrainScenario.w0).1.1
  = false.
Proof.
  destruct (C4_wait DrainScenario.dcA [DrainScenario.oldIS; DrainScenario.newISUnavailable]
              [DrainScenario.oldIS] DrainScenario.newISUnavailable
              DrainScenario.deployment DrainScenario.w0)
    as (_ & evs & Hfalse & _).
  - vm_compute. discriminate.
  - vm_compute. discriminate.
  - vm_compute. discriminate.
  - exact Hfalse.
Defined.

(** ** Order of selection: [selectMachineForUpdate], [getMachinesForDrain] *)

#[local] Instance MachineSetsByCreationTimestamp_total : Total MachineSetsByCreationTimestamp.
Proof. intros a b. unfold MachineSetsByCreationTimestamp. lia. Qed.

#[local] Instance MachineSetsByCreationTimestamp_trans :
  Transitive MachineSetsByCreationTimestamp.
Proof. intros a b c. unfold MachineSetsByCreationTimestamp. lia. Qed.



Lemma machinesForDrain_take (machines : list Machine) (readyForDrain : Z) :
  0 <= readyForDrain →
  machinesForDrain machines readyForDrain
  = (take (Z.to_nat readyForDrain)
          (filter (λ m, mLabels m !! LabelKeyMachineSelectedForUpdate = None) machines),
     None).
Proof.
  intros Hk. unfold machinesForDrain.
  destruct (decide _) as [Hlt|Hge].
  - destruct (decide (readyForDrain < 0)); [lia|done].
  - rewrite take_ge; [done|]. lia.
Qed.




(** ** The availability budget *)

(** C1: in this state one machine may be selected (three machines are
    available, two must remain so), none is selected yet, and one call of
    reconcileOldMachineSetsInPlace leaves two machines labelled
    selected-for-update: the machine whose node already carried the label is
    patched but not counted. *)
Theorem C1_budget_exceeded :
  BudgetScenario.availableMachineCount - BudgetScenario.minAvailable = 1
  ∧ machinesLabelled LabelKeyMachineSelectedForUpdate BudgetScenario.w0 = []
  ∧ BudgetScenario.run.1 = (true, None)
  ∧ machinesLabelled LabelKeyMachineSelectedForUpdate BudgetScenario.run.2
    = ["machine-a"; "machine-b1"]
  ∧ (selectMachineForUpdate BudgetScenario.dc
       [BudgetScenario.oldA; BudgetScenario.oldB; BudgetScenario.newIS]
       [BudgetScenario.oldA; BudgetScenario.oldB] BudgetScenario.deployment 0
       BudgetScenario.w0).1.1 = 1.
Proof. repeat split; vm_compute; reflexivity. Qed.

(** ** Order of the scale calls when a transfer fails *)

(** C2: when the ownership patch of the second machine fails, the new
    MachineSet is scaled up (to 2) before the old MachineSet is scaled down
    (to 1). *)
Theorem C2_scale_up_before_scale_down :
  PatchFailureScenario.run.1
  = (true, Some (ErrCall (CPatchMachine "machine-1"
                   (PatchOwner "machineset-new" "uid-new"
                      {[ "machineset" := "new"; NodeLabelKey := "node-1";
                         LabelKeyMachineUpdateSuccessful := "true" ]} "uid-1"))))
  ∧ brief <$> trace PatchFailureScenario.run.2
    = [ ("ListMachines", "", 0, true); ("ListNodes", "", 0, true);
        ("PatchMachine", "machine-0", 0, true); ("UpdateNode", "node-0", 0, true);
        ("PatchMachine", "machine-1", 0, false);
        ("UpdateMachineSet", "machineset-new", 2, true);
        ("UpdateMachineSet", "machineset-old", 1, true) ].
Proof. split; vm_compute; reflexivity. Qed.

(** ** A failed ownership patch: [reconcileNewMachineSetInPlace] *)

Lemma wrap32_add_l (x y : Z) : wrap32 (wrap32 x + y) = wrap32 (x + y).
Proof.
  unfold wrap32. f_equal.
  replace ((x + 2 ^ 31) mod 2 ^ 32 - 2 ^ 31 + y + 2 ^ 31)
    with ((x + 2 ^ 31) mod 2 ^ 32 + y) by lia.
  rewrite Zplus_mod_idemp_l. f_equal. lia.
Qed.

Lemma wrap32_idemp (x : Z) : wrap32 (wrap32 x) = wrap32 x.
Proof.
  transitivity (wrap32 (wrap32 x + 0)); [f_equal; lia|].
  rewrite wrap32_add_l. f_equal. lia.
Qed.

Lemma okPatches_nil : okPatches [] = 0.
Proof. done. Qed.

Lemma okPatches_app (l1 l2 : list Event) : okPatches (l1 ++ l2) = okPatches l1 + okPatches l2.
Proof. unfold okPatches. rewrite filter_app, length_app. lia. Qed.

Lemma okPatches_cons (e : Event) (l : list Event) :
  okPatches (e :: l)
  = (if decide (isPatch e ∧ evOk e = true) then 1 else 0) + okPatches l.
Proof.
  unfold okPatches. rewrite filter_cons. destruct (decide _); simpl; lia.
Qed.

Lemma transferEvent_failed (newIS : MachineSet) (c : Call) : transferEvent newIS (Ev c false).
Proof. intros H. discriminate H. Qed.

Lemma transferEvent_scale (newIS ms : MachineSet) (r : Z) (err : option Error) :
  Forall (transferEvent newIS) (scaleEvents ms r err).
Proof. unfold scaleEvents. destruct (decide _); repeat constructor. Qed.

Lemma scaleEvents_not_patch (ms : MachineSet) (r : Z) (err : option Error) :
  Forall (λ e, ¬ isPatch e ∧ ¬ isList e) (scaleEvents ms r err).
Proof. unfold scaleEvents. destruct (decide _); repeat constructor; by intros []. Qed.

Lemma not_patch_elem (l : list Event) (name : string) (p : MachinePatch) (ok : bool) :
  Forall (λ e, ¬ isPatch e) l → Ev (CPatchMachine name p) ok ∉ l.
Proof. intros Hall Hin. rewrite Forall_forall in Hall. by apply (Hall _ Hin). Qed.

Lemma all_ok_elem (l : list Event) (c : Call) :
  Forall (λ e, evOk e = true) l → Ev c false ∉ l.
Proof. intros Hall Hin. rewrite Forall_forall in Hall. by specialize (Hall _ Hin). Qed.

Lemma reconcileNew_patchFailed_run (dc : controller) (ms newIS : MachineSet)
    (deployment : MachineDeployment) (t a : Z) (e : Error) (w : World)
    (scaled : bool) (err : option Error) (w' : World) :
  reconcileNew_patchFailed dc ms newIS deployment t a e w = (scaled, err, w') →
  err ≠ None
  ∧ ∃ post, replay dc post w = Some w'
            ∧ stopsAtFailure (rescalePlan newIS ms a t) post
            ∧ Forall (λ e, ¬ isPatch e ∧ ¬ isList e) post
            ∧ Forall (transferEvent newIS) post.
Proof.
  unfold reconcileNew_patchFailed.
  destruct (scaleMachineSetAndRecordEvent dc newIS _ w) as [[sc1 e1] w1] eqn:E1.
  apply scale_run in E1 as (R1 & _ & Hnoop).
  destruct e1 as [e1|].
  { intros [= <- <- <-]. split; [done|]. eexists. split; [exact R1|].
    split; [|split; [apply scaleEvents_not_patch|apply transferEvent_scale]].
    unfold scaleEvents, rescalePlan. destruct (decide _) as [Heq|]; [|constructor].
    (* a scale that is not sent cannot fail *)
    by specialize (Hnoop Heq). }
  destruct (scaleMachineSetAndRecordEvent dc ms _ w1) as [[sc2 e2] w2] eqn:E2.
  apply scale_run in E2 as [R2 _].
  assert (Hpost : replay dc (scaleEvents newIS (add32 (isReplicas newIS) a) None
                             ++ scaleEvents ms (sub32 (isReplicas ms) t) e2) w = Some w2)
    by (eapply replay_app_Some; eassumption).
  assert (Hplan : stopsAtFailure (rescalePlan newIS ms a t)
                    (scaleEvents newIS (add32 (isReplicas newIS) a) None
                     ++ scaleEvents ms (sub32 (isReplicas ms) t) e2)).
  { unfold scaleEvents, rescalePlan.
    destruct (decide (isReplicas newIS = _)), (decide (isReplicas ms = _)), e2;
      simpl; repeat constructor. }
  assert (Hnp : Forall (λ e, ¬ isPatch e ∧ ¬ isList e)
                  (scaleEvents newIS (add32 (isReplicas newIS) a) None
                   ++ scaleEvents ms (sub32 (isReplicas ms) t) e2))
    by (apply Forall_app; split; apply scaleEvents_not_patch).
  assert (Htr : Forall (transferEvent newIS)
                  (scaleEvents newIS (add32 (isReplicas newIS) a) None
                   ++ scaleEvents ms (sub32 (isReplicas ms) t) e2))
    by (apply Forall_app; split; apply transferEvent_scale).
  destruct e2; intros [= <- <- <-]; (split; [done|]); eexists; eauto.
Qed.

Lemma transferEvent_patch (newIS : MachineSet) (name uid : string)
    (ls : gmap string string) (ok : bool) :
  transferEvent newIS (Ev (CPatchMachine name (PatchOwner (isName newIS) (isUID newIS) ls uid)) ok).
Proof. by intros _. Qed.

Lemma transferEvent_update (newIS : MachineSet) (cl : Cluster) (n : Node) (ok : bool) :
  transferEvent newIS (Ev (CUpdateNode cl n) ok).
Proof. by intros _. Qed.

Lemma transferEvent_listMachines (newIS : MachineSet) (sel : gmap string string) (ok : bool) :
  transferEvent newIS (Ev (CListMachines sel) ok).
Proof. by intros _. Qed.

Lemma transferEvent_listNodes (newIS : MachineSet) (sel : gmap string string) (ok : bool) :
  transferEvent newIS (Ev (CListNodes sel) ok).
Proof. by intros _. Qed.

Create HintDb transfer.
#[local] Hint Resolve transferEvent_failed transferEvent_patch transferEvent_update
  transferEvent_listMachines transferEvent_listNodes : transfer.

(** What is known of the calls [evs] logged by the loops of
    [reconcileNewMachineSetInPlace] when they leave the function with an
    error, for counters [t] (machines taken from [ms]) and [a] (replicas
    added) at the start of [evs]. *)
Lemma reconcileNew_nodes_run (dc : controller) (ms newIS : MachineSet)
    (deployment : MachineDeployment) (machines : list Machine) (nodes : list Node)
    (t a : Z) (w : World) (flow : Flow (Z * Z) (bool * option Error)) (w' : World) :
  reconcileNew_nodes dc ms newIS deployment machines nodes t a w = (flow, w') →
  wrap32 t = t → wrap32 a = a →
  ∃ evs,
    replay dc evs w = Some w' ∧ Forall (transferEvent newIS) evs
    ∧ Forall (λ e, ¬ isList e) evs
    ∧ match flow with
      | Next (t', a') =>
          Forall (λ e, evOk e = true) evs
          ∧ t' = wrap32 (t + okPatches evs) ∧ a' = wrap32 (a + okPatches evs)
      | Return (_, err) =>
          err ≠ None
          ∧ ∀ name p,
              Ev (CPatchMachine name p) false ∈ evs →
              ∃ pre post,
                evs = pre ++ Ev (CPatchMachine name p) false :: post
                ∧ stopsAtFailure
                    (rescalePlan newIS ms (wrap32 (a + okPatches pre))
                                 (wrap32 (t + okPatches pre))) post
      end.
Proof.
  revert t a w. induction nodes as [|node nodes IH]; intros t a w; simpl.
  { intros [= <- <-] Ht Ha. exists []. split; [done|]. do 2 (split; [constructor|]).
    split; [constructor|]. rewrite okPatches_nil, !Z.add_0_r. by rewrite Ht, Ha. }
  destruct (getMachineFromNode machines node) as [machine|]; [|apply IH].
  destruct (PatchMachine dc _ _ w) as [e1 w1] eqn:E1. apply PatchMachine_run in E1.
  destruct e1 as [e1|].
  { (* the ownership patch fails *)
    destruct (reconcileNew_patchFailed dc ms newIS deployment t a e1 w1)
      as [[scaled err'] w2] eqn:E2.
    apply reconcileNew_patchFailed_run in E2 as (Herr & post & R2 & Hplan & Hnp & Htr).
    intros [= <- <-] Ht Ha.
    eexists (_ :: post). split; [chain|].
    split; [apply Forall_cons_2; [auto with transfer|done]|].
    split; [apply Forall_cons_2; [by intros []|]|].
    { eapply Forall_impl; [exact Hnp|]. by intros e [_ ?]. }
    split; [done|]. intros name p Hin.
    apply elem_of_cons in Hin as [Heq|Hin].
    - exists [], post. split; [simpl; by rewrite Heq|].
      rewrite okPatches_nil, !Z.add_0_r. by rewrite Ht, Ha.
    - exfalso. eapply not_patch_elem; [|exact Hin].
      eapply Forall_impl; [exact Hnp|]. by intros e [? _]. }
  destruct (UpdateNode dc _ _ w1) as [e2 w2] eqn:E2. apply UpdateNode_run in E2.
  destruct e2 as [e2|].
  { (* the node update fails *)
    intros [= <- <-] Ht Ha. eexists [_; _]. split; [chain|].
    split; [forall_events ltac:(auto with transfer)|].
    split; [forall_events ltac:(by intros [])|].
    split; [done|]. intros name p Hin.
    apply elem_of_cons in Hin as [[=]|Hin].
    apply list_elem_of_singleton in Hin as [=]. }
  intros H Ht Ha.
  destruct (IH _ _ _ H) as (evs & Hr & Hc & Hnl & Hflow);
    [apply wrap32_idemp..|].
  eexists (_ :: _ :: evs). split; [chain|].
  split; [do 2 (apply Forall_cons_2; [auto with transfer|]); done|].
  split; [do 2 (apply Forall_cons_2; [by intros []|]); done|].
  assert (Hcount : ∀ l, okPatches (Ev (CPatchMachine (mName machine)
                          (PatchOwner (isName newIS) (isUID newIS)
                             (MergeStringMaps
                                (MergeWithOverwriteAndFilter (mLabels machine)
                                   (isSelector ms) (isSelector newIS))
                                {[LabelKeyMachineUpdateSuccessful := "true"]})
                             (mUID machine))) (noError None)
                        :: Ev (CUpdateNode ControlCluster
                                 (mkNode (nName node) (nLabels node) false)) (noError None)
                        :: l) = 1 + okPatches l).
  { intros l. rewrite !okPatches_cons.
    destruct (decide _) as [_|Hn]; [|exfalso; apply Hn; by split].
    destruct (decide _) as [[[] _]|_]. lia. }
  destruct flow as [[t' a']|[scaled err]].
  - destruct Hflow as (Hok & -> & ->). split; [|split].
    + do 2 (apply Forall_cons_2; [done|]). done.
    + rewrite Hcount. unfold add32. rewrite wrap32_add_l. f_equal. lia.
    + rewrite Hcount. unfold add32. rewrite wrap32_add_l. f_equal. lia.
  - destruct Hflow as [Herr Hfail]. split; [done|]. intros name p Hin.
    apply elem_of_cons in Hin as [[=]|Hin].
    apply elem_of_cons in Hin as [[=]|Hin].
    destruct (Hfail name p Hin) as (pre & post & -> & Hplan).
    eexists (_ :: _ :: pre), post. split; [done|].
    rewrite Hcount. unfold add32 in Hplan. rewrite !wrap32_add_l in Hplan.
    by rewrite !Z.add_assoc.
Qed.

Lemma okPatches_not_patch (l : list Event) :
  Forall (λ e, ¬ isPatch e) l → okPatches l = 0.
Proof.
  induction l as [|e l IH]; [done|]. intros Hall.
  apply Forall_cons_1 in Hall as [He Hall]. rewrite okPatches_cons, IH by done.
  destruct (decide _) as [[? _]|_]; done.
Qed.

Lemma reconcileNew_oldISs_run (dc : controller) (oldISs : list MachineSet)
    (newIS : MachineSet) (deployment : MachineDeployment) (a : Z) (w : World)
    (flow : Flow Z (bool * option Error)) (w' : World) :
  reconcileNew_oldISs dc oldISs newIS deployment a w = (flow, w') →
  wrap32 a = a →
  ∃ evs,
    replay dc evs w = Some w' ∧ Forall (transferEvent newIS) evs
    ∧ match flow with
      | Next a' =>
          Forall (λ e, evOk e = true) evs ∧ a' = wrap32 (a + okPatches evs)
      | Return (_, err) =>
          err ≠ None
          ∧ ∀ name p,
              Ev (CPatchMachine name p) false ∈ evs →
              ∃ pre0 ms pre2 post,
                evs = pre0
                      ++ Ev (CListMachines (isSelector ms)) true
                      :: Ev (CListNodes {[ LabelKeyMachineUpdateSuccessful := "true" ]}) true
                      :: pre2 ++ Ev (CPatchMachine name p) false :: post
                ∧ ms ∈ oldISs
                ∧ Forall (λ e, ¬ isList e) pre2
                ∧ stopsAtFailure
                    (rescalePlan newIS ms (wrap32 (a + okPatches pre0 + okPatches pre2))
                                 (wrap32 (okPatches pre2))) post
      end.
Proof.
  revert a w. induction oldISs as [|ms mss IH]; intros a w; simpl.
  { intros [= <- <-] Ha. exists []. split; [done|]. split; [constructor|].
    split; [constructor|]. by rewrite okPatches_nil, Z.add_0_r, Ha. }
  destruct (listMachines dc _ w) as [[machines e1] w1] eqn:E1.
  apply listMachines_run in E1 as [R1 _].
  destruct e1 as [e1|].
  { intros [= <- <-] Ha. eexists [_]. split; [chain|].
    split; [forall_events ltac:(auto with transfer)|]. split; [done|].
    intros name p Hin. apply list_elem_of_singleton in Hin as [=]. }
  destruct (listNodes dc _ w1) as [[nodes e2] w2] eqn:E2.
  apply listNodes_run in E2 as [R2 _].
  destruct e2 as [e2|].
  { intros [= <- <-] Ha. eexists [_; _]. split; [chain|].
    split; [forall_events ltac:(auto with transfer)|]. split; [done|].
    intros name p Hin. apply elem_of_cons in Hin as [[=]|Hin].
    apply list_elem_of_singleton in Hin as [=]. }
  destruct (reconcileNew_nodes dc ms newIS deployment machines nodes 0 a w2)
    as [flowN w3] eqn:E3.
  intros H Ha.
  apply reconcileNew_nodes_run in E3 as (evsN & R3 & C3 & L3 & HflowN); [|done..].
  cbn [noError] in R1, R2.
  set (LM := Ev (CListMachines (isSelector ms)) true) in *.
  set (LN := Ev (CListNodes {[ LabelKeyMachineUpdateSuccessful := "true" ]}) true) in *.
  assert (Hpre3 : replay dc (LM :: LN :: evsN) w = Some w3) by chain.
  assert (Cpre3 : Forall (transferEvent newIS) (LM :: LN :: evsN))
    by (subst LM LN; do 2 (apply Forall_cons_2; [auto with transfer|]); done).
  destruct flowN as [[t' a']|[scaled err]].
  - destruct HflowN as (Hok & -> & ->).
    destruct (scaleMachineSetAndRecordEvent dc ms _ w3) as [[sc e4] w4] eqn:E4.
    apply scale_run in E4 as [R4 _].
    set (evs4 := scaleEvents ms (sub32 (isReplicas ms) (wrap32 (0 + okPatches evsN))) e4) in *.
    assert (Hpre4 : replay dc ((LM :: LN :: evsN) ++ evs4) w = Some w4)
      by (eapply replay_app_Some; eassumption).
    assert (Cpre4 : Forall (transferEvent newIS) ((LM :: LN :: evsN) ++ evs4))
      by (apply Forall_app; split; [done|apply transferEvent_scale]).
    assert (Npre4 : Forall (λ e, ¬ isPatch e) evs4)
      by (eapply Forall_impl; [apply scaleEvents_not_patch|]; by intros e [? _]).
    assert (Hno : ∀ name p, Ev (CPatchMachine name p) false ∉ (LM :: LN :: evsN) ++ evs4).
    { intros name p Hin. apply elem_of_app in Hin as [Hin|Hin].
      - apply elem_of_cons in Hin as [[=]|Hin]. apply elem_of_cons in Hin as [[=]|Hin].
        eapply all_ok_elem; [exact Hok|exact Hin].
      - eapply not_patch_elem; [exact Npre4|exact Hin]. }
    assert (Hcount : okPatches ((LM :: LN :: evsN) ++ evs4) = okPatches evsN).
    { rewrite okPatches_app, !okPatches_cons, (okPatches_not_patch evs4) by done.
      destruct (decide (isPatch LM ∧ evOk LM = true)) as [[[] _]|_].
      destruct (decide (isPatch LN ∧ evOk LN = true)) as [[[] _]|_]. lia. }
    destruct e4 as [e4|].
    { injection H as <- <-. eexists. split; [exact Hpre4|]. split; [done|].
      split; [done|]. intros name p Hin. by apply Hno in Hin. }
    destruct (IH _ _ H) as (evs & Hr & Hc & Hflow); [apply wrap32_idemp|].
    exists (((LM :: LN :: evsN) ++ evs4) ++ evs).
    split; [eapply replay_app_Some; eassumption|].
    split; [by apply Forall_app|].
    destruct flow as [a''|[scaled err]].
    + destruct Hflow as [Hok' ->]. split.
      * apply Forall_app. split; [|done]. apply Forall_app. split.
        -- do 2 (apply Forall_cons_2; [done|]). done.
        -- subst evs4. unfold scaleEvents. destruct (decide _); repeat constructor.
      * rewrite okPatches_app, Hcount, wrap32_add_l. f_equal. lia.
    + destruct Hflow as [Herr Hfail]. split; [done|]. intros name p Hin.
      apply elem_of_app in Hin as [Hin|Hin]; [by apply Hno in Hin|].
      destruct (Hfail name p Hin) as (pre0 & ms0 & pre2 & post & -> & Hms0 & Hnl & Hplan).
      exists (((LM :: LN :: evsN) ++ evs4) ++ pre0), ms0, pre2, post.
      split; [by rewrite <- !app_assoc|]. split; [by right|]. split; [done|].
      rewrite okPatches_app, Hcount.
      rewrite <- Z.add_assoc, wrap32_add_l in Hplan.
      by replace (a + (okPatches evsN + okPatches pre0) + okPatches pre2)
        with (a + okPatches evsN + (okPatches pre0 + okPatches pre2)) by lia.
  - injection H as <- <-. destruct HflowN as [Herr Hfail].
    eexists. split; [exact Hpre3|]. split; [done|]. split; [done|].
    intros name p Hin.
    apply elem_of_cons in Hin as [[=]|Hin]. apply elem_of_cons in Hin as [[=]|Hin].
    destruct (Hfail name p Hin) as (pre & post & -> & Hplan).
    exists [], ms, pre, post. split; [done|]. split; [left|].
    split.
    + apply Forall_app in L3 as [L3 _]. done.
    + rewrite okPatches_nil, Z.add_0_r. by rewrite Z.add_0_l in Hplan.
Qed.

Lemma transferEvent_patches (newIS : MachineSet) (e : Event) :
  transferEvent newIS e → patchesEstablish (λ m, mOwner m = isName newIS) e.
Proof.
  intros Hc name p -> m m' Hp. specialize (Hc eq_refl). simpl in Hc.
  destruct p; try done. simpl in Hp. subst owner.
  destruct (decide _); [|done]. by injection Hp as <-.
Qed.

Lemma stopsAtFailure_rescaled (newIS ms : MachineSet) (a t : Z) (post : list Event) :
  stopsAtFailure (rescalePlan newIS ms a t) post → rescaled newIS ms a t post.
Proof.
  unfold rescalePlan, rescaled, rescaleCall.
  destruct (decide (isReplicas newIS = _)) as [Ha|Ha];
    destruct (decide (isReplicas ms = _)) as [Ht|Ht]; simpl; intros Hs.
  - inversion Hs; subst. split; [simpl; lia|]. split.
    + intros e He. inversion He.
    + intros _ c [[? _]|[? _]]; done.
  - inversion Hs as [|c plan evs Hs'|]; subst.
    + inversion Hs'; subst. split; [simpl; lia|]. split.
      * intros e He. apply list_elem_of_singleton in He as ->. right. done.
      * intros _ c [[? _]|[_ ->]]; [done|]. left.
    + split; [simpl; lia|]. split.
      * intros e He. apply list_elem_of_singleton in He as ->. right. done.
      * intros Hok. apply Forall_cons_1 in Hok as [[=] _].
  - inversion Hs as [|c plan evs Hs'|]; subst.
    + inversion Hs'; subst. split; [simpl; lia|]. split.
      * intros e He. apply list_elem_of_singleton in He as ->. left. done.
      * intros _ c [[_ ->]|[? _]]; [|done]. left.
    + split; [simpl; lia|]. split.
      * intros e He. apply list_elem_of_singleton in He as ->. left. done.
      * intros Hok. apply Forall_cons_1 in Hok as [[=] _].
  - inversion Hs as [|c plan evs Hs'|]; subst.
    + inversion Hs' as [|c' plan' evs' Hs''|]; subst.
      * inversion Hs''; subst. split; [simpl; lia|]. split.
        -- intros e He. apply elem_of_cons in He as [->|He]; [left; done|].
           apply list_elem_of_singleton in He as ->. right. done.
        -- intros _ c [[_ ->]|[_ ->]]; [left|right; left].
      * split; [simpl; lia|]. split.
        -- intros e He. apply elem_of_cons in He as [->|He]; [left; done|].
           apply list_elem_of_singleton in He as ->. right. done.
        -- intros Hok. apply Forall_cons_1 in Hok as [_ Hok].
           apply Forall_cons_1 in Hok as [[=] _].
    + split; [simpl; lia|]. split.
      * intros e He. apply list_elem_of_singleton in He as ->. left. done.
      * intros Hok. apply Forall_cons_1 in Hok as [[=] _].
Qed.

(** C3, as stated, fails with two old MachineSets: the patch fails on the
    first machine of the second one, after one machine of the first one has
    been transferred.  The new MachineSet is scaled up by one (to 2), the old
    MachineSet at hand is not scaled down at all. *)
Lemma C3_counterexample :
  brief <$> trace TwoOldScenario.run.2
  = [ ("ListMachines", "", 0, true); ("ListNodes", "", 0, true);
      ("PatchMachine", "machine-a", 0, true); ("UpdateNode", "node-a", 0, true);
      ("UpdateMachineSet", "machineset-a", 0, true);
      ("ListMachines", "", 0, true); ("ListNodes", "", 0, true);
      ("PatchMachine", "machine-b", 0, false);
      ("UpdateMachineSet", "machineset-new", 2, true) ]
  ∧ isReplicas <$> apiMachineSets TwoOldScenario.w0 !! "machineset-new" = Some 1
  ∧ isReplicas <$> apiMachineSets TwoOldScenario.run.2 !! "machineset-new" = Some 2
  ∧ isReplicas <$> apiMachineSets TwoOldScenario.w0 !! "machineset-b" = Some 1
  ∧ isReplicas <$> apiMachineSets TwoOldScenario.run.2 !! "machineset-b" = Some 1.
Proof. repeat split; vm_compute; reflexivity. Qed.

(** C3, amended.  In reconcileNewMachineSetInPlace, if the ownership patch
    of some Machine fails while old MachineSet ms is processed, the only
    calls the controller still makes are scale calls, at most two: of the new
    MachineSet to its replicas plus the number of machines transferred so far
    in this call (over all old MachineSets), and of the old MachineSet ms to
    its replicas minus the number of machines transferred from ms; no call is
    made for a MachineSet whose replica count would not change, and when no
    scale call fails each of the two has been made.  It returns an error, and
    every machine whose patch went through is still owned by the new
    MachineSet: nothing is rolled back. *)
Theorem C3_patch_failure (dc : controller) (oldISs : list MachineSet) (newIS : MachineSet)
    (deployment : MachineDeployment) (w : World) (evs : list Event)
    (name : string) (p : MachinePatch) :
  trace (reconcileNewMachineSetInPlace dc oldISs newIS deployment w).2 = trace w ++ evs →
  Ev (CPatchMachine name p) false ∈ evs →
  (reconcileNewMachineSetInPlace dc oldISs newIS deployment w).1.2 ≠ None
  ∧ (∃ pre0 ms pre2 post,
       evs = pre0
             ++ Ev (CListMachines (isSelector ms)) true
             :: Ev (CListNodes {[ LabelKeyMachineUpdateSuccessful := "true" ]}) true
             :: pre2 ++ Ev (CPatchMachine name p) false :: post
       ∧ ms ∈ oldISs
       ∧ Forall (λ e, ¬ isList e) pre2
       ∧ rescaled newIS ms (wrap32 (okPatches pre0 + okPatches pre2))
                  (wrap32 (okPatches pre2)) post)
  ∧ (∀ n q, Ev (CPatchMachine n q) true ∈ evs →
            ∃ m', apiMachines (reconcileNewMachineSetInPlace dc oldISs newIS deployment w).2
                  !! n = Some m'
                  ∧ mOwner m' = isName newIS).
Proof.
  unfold reconcileNewMachineSetInPlace.
  destruct (decide (isReplicas newIS = dReplicas deployment)).
  { simpl. intros Ht Hin. exfalso.
    rewrite <- (app_nil_r (trace w)) in Ht at 1. apply app_inv_head in Ht as <-.
    inversion Hin. }
  destruct (decide (dReplicas deployment < isReplicas newIS)).
  { destruct (scaleMachineSetAndRecordEvent dc newIS _ w) as [[sc e1] w1] eqn:E1.
    apply scale_run in E1 as [R1 _]. simpl. intros Ht Hin. exfalso.
    apply replay_trace in R1. rewrite R1 in Ht. apply app_inv_head in Ht as <-.
    eapply not_patch_elem; [|exact Hin].
    eapply Forall_impl; [apply scaleEvents_not_patch|]. by intros e [? _]. }
  destruct (reconcileNew_oldISs dc oldISs newIS deployment 0 w) as [flow w1] eqn:E.
  apply reconcileNew_oldISs_run in E as (evs' & Hr & Hc & Hflow); [|done].
  destruct flow as [a'|[scaled err]].
  - destruct Hflow as [Hok ->].
    destruct (scaleMachineSetAndRecordEvent dc newIS _ w1) as [[sc e1] w2] eqn:E1.
    apply scale_run in E1 as [R1 _]. simpl. intros Ht Hin. exfalso.
    assert (Hr2 := replay_app_Some _ _ _ _ _ _ Hr R1).
    apply replay_trace in Hr2. rewrite Hr2 in Ht. apply app_inv_head in Ht as <-.
    apply elem_of_app in Hin as [Hin|Hin].
    + eapply all_ok_elem; [exact Hok|exact Hin].
    + eapply not_patch_elem; [|exact Hin].
      eapply Forall_impl; [apply scaleEvents_not_patch|]. by intros e [? _].
  - destruct Hflow as [Herr Hfail]. simpl. intros Ht Hin.
    assert (Hr' := Hr). apply replay_trace in Hr'. rewrite Hr' in Ht.
    apply app_inv_head in Ht as <-.
    split; [done|]. split.
    + destruct (Hfail name p Hin) as (pre0 & ms & pre2 & post & -> & Hms & Hnl & Hplan).
      exists pre0, ms, pre2, post. rewrite Z.add_0_l in Hplan.
      repeat (split; [done|]). by apply stopsAtFailure_rescaled.
    + intros mname q Hq.
      eapply (replay_patched (λ m, mOwner m = isName newIS)); [exact Hr| |].
      * eapply Forall_impl; [exact Hc|]. apply transferEvent_patches.
      * right. by exists q.
Qed.

Lemma C3_patch_failure_witness :
  PatchFailureScenario.run.1.2 ≠ None
  ∧ ∃ m', apiMachines PatchFailureScenario.run.2 !! "machine-0" = Some m'
          ∧ mOwner m' = "machineset-new".
Proof.
  destruct (C3_patch_failure PatchFailureScenario.dc [PatchFailureScenario.oldIS]
              PatchFailureScenario.newIS PatchFailureScenario.deployment
              PatchFailureScenario.w0 (trace PatchFailureScenario.run.2)
              "machine-1"
              (PatchOwner "machineset-new" "uid-new"
                 {[ "machineset" := "new"; NodeLabelKey := "node-1";
                    LabelKeyMachineUpdateSuccessful := "true" ]} "uid-1"))
    as (Herr & _ & Hown).
  - reflexivity.
  - apply (bool_decide_eq_true_1 _). vm_compute. reflexivity.
  - split; [exact Herr|].
    apply (Hown "machine-0"
             (PatchOwner "machineset-new" "uid-new"
                {[ "machineset" := "new"; NodeLabelKey := "node-0";
                   LabelKeyMachineUpdateSuccessful := "true" ]} "uid-0")).
    apply (bool_decide_eq_true_1 _). vm_compute. reflexivity.
Defined.

(** ** What [selectMachineForUpdate] reports stays within the budget *)

Lemma wrap32_id (z : Z) : is_int32 z → wrap32 z = z.
Proof. unfold is_int32, wrap32. intros H. rewrite Z.mod_small; lia. Qed.

Lemma wrap32_int32 (z : Z) : is_int32 (wrap32 z).
Proof.
  unfold is_int32, wrap32.
  pose proof (Z.mod_pos_bound (z + 2 ^ 31) (2 ^ 32) ltac:(lia)). lia.
Qed.

Lemma machinesForDrain_length (machines : list Machine) (readyForDrain : Z) :
  0 <= readyForDrain →
  Z.of_nat (length (machinesForDrain machines readyForDrain).1) <= readyForDrain.
Proof.
  intros Hk. rewrite machinesForDrain_take by done. simpl.
  rewrite length_take. lia.
Qed.

Lemma labelMachinesToSelectedForUpdate_loop_count (dc : controller)
    (machines : list Machine) (c : Z) (w : World) :
  0 <= c → c + Z.of_nat (length machines) < 2 ^ 31 →
  c <= (labelMachinesToSelectedForUpdate_loop dc machines c w).1.1
    <= c + Z.of_nat (length machines).
Proof.
  revert c w. induction machines as [|m machines IH]; intros c w Hc Hlen; simpl.
  { lia. }
  cbn [length] in Hlen. rewrite Nat2Z.inj_succ in Hlen.
  assert (Hadd : add32 c 1 = c + 1) by (apply wrap32_id; unfold is_int32; lia).
  assert (Hnext : ∀ w0, c <= (labelMachinesToSelectedForUpdate_loop dc machines
                                (add32 c 1) w0).1.1
                        <= c + Z.of_nat (length (m :: machines))).
  { intros w0. rewrite Hadd. specialize (IH (c + 1) w0). cbn [length]. lia. }
  assert (Hskip : ∀ w0, c <= (labelMachinesToSelectedForUpdate_loop dc machines c w0).1.1
                        <= c + Z.of_nat (length (m :: machines))).
  { intros w0. specialize (IH c w0). cbn [length]. lia. }
  destruct (PatchMachine dc _ _ w) as [[e|] w1]; simpl; [lia|].
  destruct (decide _); [|apply Hnext].
  destruct (getNode dc _ w1) as [[[node|] [e|]] w2]; simpl; try lia.
  destruct (decide _); [apply Hskip|].
  destruct (UpdateNode dc _ _ w2) as [[e|] w3]; simpl; [lia|apply Hnext].
Qed.

Lemma labelMachinesToSelectedForUpdate_count (dc : controller) (ms : MachineSet)
    (newScale : Z) (w : World) :
  0 <= sub32 (isReplicas ms) newScale →
  0 <= (labelMachinesToSelectedForUpdate dc ms newScale w).1.1
    <= sub32 (isReplicas ms) newScale.
Proof.
  intros Hk. unfold labelMachinesToSelectedForUpdate, getMachinesForDrain.
  pose proof (wrap32_int32 (isReplicas ms - newScale)) as Hr. fold (sub32 (isReplicas ms) newScale) in Hr.
  unfold is_int32 in Hr.
  destruct (listMachines dc _ w) as [[machines [e|]] w1]; simpl; [lia|].
  pose proof (machinesForDrain_length machines _ Hk) as Hlen.
  destruct (machinesForDrain machines _) as [r [e|]]; simpl in *; [lia|].
  pose proof (labelMachinesToSelectedForUpdate_loop_count dc r 0 w1). lia.
Qed.

Lemma selectMachineForUpdate_loop_count (dc : controller) (oldISs : list MachineSet)
    (totalReadyForUpdateCount totalReadyForUpdate : Z) (w : World) :
  Forall (λ ms, is_int32 (isReplicas ms)) oldISs →
  is_int32 totalReadyForUpdateCount →
  0 <= totalReadyForUpdate <= Z.max 0 totalReadyForUpdateCount →
  0 <= (selectMachineForUpdate_loop dc oldISs totalReadyForUpdateCount
          totalReadyForUpdate w).1.1
    <= Z.max 0 totalReadyForUpdateCount.
Proof.
  revert totalReadyForUpdate w.
  induction oldISs as [|ms mss IH]; intros total w Hall Hcap Htot; simpl; [lia|].
  apply Forall_cons_1 in Hall as [Hms Hall].
  destruct (decide (totalReadyForUpdateCount <= total)); simpl; [lia|].
  destruct (decide (isReplicas ms = 0)); [by apply IH|].
  unfold is_int32 in *.
  assert (Hsub : sub32 totalReadyForUpdateCount total = totalReadyForUpdateCount - total)
    by (apply wrap32_id; unfold is_int32; lia).
  rewrite Hsub.
  assert (Hmin : wrap32 (Z.min (isReplicas ms) (totalReadyForUpdateCount - total))
                 = Z.min (isReplicas ms) (totalReadyForUpdateCount - total))
    by (apply wrap32_id; unfold is_int32; lia).
  rewrite Hmin.
  set (ready := Z.min (isReplicas ms) (totalReadyForUpdateCount - total)).
  assert (Hnew : sub32 (isReplicas ms) ready = isReplicas ms - ready)
    by (apply wrap32_id; unfold is_int32; lia).
  rewrite Hnew.
  destruct (decide (isReplicas ms < isReplicas ms - ready)); simpl; [lia|].
  assert (Hk : sub32 (isReplicas ms) (isReplicas ms - ready) = ready)
    by (unfold sub32; rewrite wrap32_id; unfold is_int32; lia).
  pose proof (labelMachinesToSelectedForUpdate_count dc ms (isReplicas ms - ready) w) as Hn.
  rewrite Hk in Hn.
  destruct (labelMachinesToSelectedForUpdate dc ms (isReplicas ms - ready) w)
    as [[k err] w1]; simpl in Hn.
  assert (Hn' : 0 <= k <= ready) by (apply Hn; lia).
  assert (Hadd : add32 total k = total + k) by (apply wrap32_id; unfold is_int32; lia).
  rewrite Hadd.
  destruct err as [e|]; simpl; [lia|]. apply IH; [done|done|lia].
Qed.

(** X1.  The number of machines [selectMachineForUpdate] reports as selected is
    never above [availableMachineCount - minAvailable], the budget it
    computes. *)
Lemma selectMachineForUpdate_reported_within_budget (dc : controller)
    (allISs oldISs : list MachineSet) (deployment : MachineDeployment)
    (oldISsMachinesUndergoingUpdate : Z) (w : World) :
  Forall (λ ms, is_int32 (isReplicas ms)) oldISs →
  0 <= (selectMachineForUpdate dc allISs oldISs deployment
          oldISsMachinesUndergoingUpdate w).1.1
    <= Z.max 0
         (sub32 (GetAvailableReplicaCountForMachineSets allISs) oldISsMachinesUndergoingUpdate
          - sub32 (dReplicas deployment) (MaxUnavailable deployment)).
Proof.
  intros Hall. unfold selectMachineForUpdate.
  set (avail := sub32 _ oldISsMachinesUndergoingUpdate).
  set (minAvailable := sub32 (dReplicas deployment) _).
  pose proof (wrap32_int32 (GetAvailableReplicaCountForMachineSets allISs
                            - oldISsMachinesUndergoingUpdate)) as Ha.
  pose proof (wrap32_int32 (dReplicas deployment - MaxUnavailable deployment)) as Hm.
  fold (sub32 (GetAvailableReplicaCountForMachineSets allISs) oldISsMachinesUndergoingUpdate)
    in Ha.
  fold (sub32 (dReplicas deployment) (MaxUnavailable deployment)) in Hm.
  fold avail in Ha. fold minAvailable in Hm.
  destruct (decide (avail <= minAvailable)); simpl; [lia|].
  pose proof (wrap32_int32 (avail - minAvailable)) as Hc. fold (sub32 avail minAvailable) in Hc.
  pose proof (selectMachineForUpdate_loop_count dc (sortMachineSets oldISs)
                (sub32 avail minAvailable) 0 w) as Hloop.
  assert (Hsorted : Forall (λ ms, is_int32 (isReplicas ms)) (sortMachineSets oldISs)).
  { unfold sortMachineSets. by rewrite merge_sort_Permutation. }
  specialize (Hloop Hsorted Hc ltac:(lia)).
  (* when the difference wraps around, the budget is negative and nothing is selected *)
  unfold is_int32 in *.
  destruct (decide (avail - minAvailable < 2 ^ 31)) as [Hsmall|Hbig].
  - assert (Heq : sub32 avail minAvailable = avail - minAvailable)
      by (apply wrap32_id; unfold is_int32; lia).
    lia.
  - assert (Hneg : sub32 avail minAvailable < 0).
    { unfold sub32, wrap32.
      replace (avail - minAvailable + 2 ^ 31)
        with ((avail - minAvailable - 2 ^ 31) + 1 * 2 ^ 32) by lia.
      rewrite Z_mod_plus_full, Z.mod_small; lia. }
    lia.
Qed.

(** ** Frames: what a sequence of calls leaves alone *)

Lemma after_frame (dc : controller) (e : Event) (w w' : World) :
  after dc e w = Some w' →
  ((evOk e = true → ¬ isPatch e) → apiMachines w' = apiMachines w)
  ∧ ((evOk e = true → ¬ isScale e) → apiMachineSets w' = apiMachineSets w)
  ∧ (∀ cl, (evOk e = true → ¬ updatesCluster cl e) → nodesOf cl w' = nodesOf cl w).
Proof.
  unfold after, isPatch, isScale, updatesCluster. destruct e as [c ok]. simpl.
  destruct ok; cycle 1.
  { intros [= <-]. repeat split; intros; by try destruct cl. }
  destruct c; simpl; intros H; simplify_option_eq;
    repeat split; intros; try done; try (by destruct cl); try (by destruct cl0);
    try (exfalso; naive_solver).
  destruct cl, cl0; simpl; try done; exfalso; naive_solver.
Qed.

Lemma replay_frame_machines (dc : controller) (evs : list Event) (w w' : World) :
  replay dc evs w = Some w' → Forall (λ e, evOk e = true → ¬ isPatch e) evs →
  apiMachines w' = apiMachines w.
Proof.
  revert w. induction evs as [|e evs IH]; intros w; simpl.
  - by intros [= ->].
  - destruct (after dc e w) as [w1|] eqn:E; [|done]. simpl. intros H Hall.
    apply Forall_cons in Hall as [He Hall].
    rewrite (IH _ H Hall). by apply (after_frame _ _ _ _ E).
Qed.

Lemma replay_frame_machineSets (dc : controller) (evs : list Event) (w w' : World) :
  replay dc evs w = Some w' → Forall (λ e, evOk e = true → ¬ isScale e) evs →
  apiMachineSets w' = apiMachineSets w.
Proof.
  revert w. induction evs as [|e evs IH]; intros w; simpl.
  - by intros [= ->].
  - destruct (after dc e w) as [w1|] eqn:E; [|done]. simpl. intros H Hall.
    apply Forall_cons in Hall as [He Hall].
    rewrite (IH _ H Hall). by apply (after_frame _ _ _ _ E).
Qed.

Lemma replay_frame_nodes (cl : Cluster) (dc : controller) (evs : list Event)
    (w w' : World) :
  replay dc evs w = Some w' → Forall (λ e, evOk e = true → ¬ updatesCluster cl e) evs →
  nodesOf cl w' = nodesOf cl w.
Proof.
  revert w. induction evs as [|e evs IH]; intros w; simpl.
  - by intros [= ->].
  - destruct (after dc e w) as [w1|] eqn:E; [|done]. simpl. intros H Hall.
    apply Forall_cons in Hall as [He Hall].
    rewrite (IH _ H Hall). by apply (after_frame _ _ _ _ E).
Qed.

(** Machines along a replay whose patches all relate by [R]. *)
Lemma after_related (R : Machine → Machine → Prop) `{!Reflexive R}
    (dc : controller) (e : Event) (w w' : World) (name : string) (m : Machine) :
  after dc e w = Some w' → patchesRelate R e →
  apiMachines w !! name = Some m →
  ∃ m', apiMachines w' !! name = Some m' ∧ R m m'.
Proof.
  intros Ha HR Hm.
  destruct (decide (isPatch e ∧ evOk e = true)) as [[Hp Hok]|Hn]; cycle 1.
  { exists m. split; [|done].
    destruct (decide (isPatch e)) as [Hp|Hp].
    - destruct e as [c ok]. simpl in *. destruct ok; [by destruct Hn|].
      unfold after in Ha. simpl in Ha. by injection Ha as <-.
    - destruct (after_frame _ _ _ _ Ha) as (-> & _). all: done. }
  destruct e as [c ok]. simpl in Hok. subst ok.
  destruct c; try done. unfold after in Ha. simpl in Ha.
  destruct (apiMachines w !! name0) as [m0|] eqn:E0; [|done]. simpl in Ha.
  destruct (applyMachinePatch p m0) as [m0'|] eqn:Ep; [|done]. simpl in Ha.
  injection Ha as <-. simpl.
  destruct (decide (name0 = name)) as [->|Hne].
  - rewrite lookup_insert_eq. exists m0'. split; [done|].
    assert (m0 = m) as -> by congruence. by eapply HR.
  - rewrite lookup_insert_ne by done. by exists m.
Qed.

Lemma replay_related (R : Machine → Machine → Prop) `{!Reflexive R} `{!Transitive R}
    (dc : controller) (evs : list Event) (w w' : World) (name : string) (m : Machine) :
  replay dc evs w = Some w' → Forall (patchesRelate R) evs →
  apiMachines w !! name = Some m →
  ∃ m', apiMachines w' !! name = Some m' ∧ R m m'.
Proof.
  revert w m. induction evs as [|e evs IH]; intros w m; simpl.
  - intros [= ->] _ Hm. by exists m.
  - destruct (after dc e w) as [w1|] eqn:E; [|done]. simpl. intros H Hall Hm.
    apply Forall_cons in Hall as [He Hall].
    destruct (after_related R _ _ _ _ _ _ E He Hm) as (m1 & Hm1 & HR1).
    destruct (IH _ _ H Hall Hm1) as (m2 & Hm2 & HR2).
    exists m2. split; [done|]. by transitivity m1.
Qed.

#[local] Instance labelsOnly_refl : Reflexive labelsOnly.
Proof. by intros m. Qed.

#[local] Instance labelsOnly_trans : Transitive labelsOnly.
Proof. intros a b c (?&?&?) (?&?&?). repeat split; congruence. Qed.

#[local] Instance keepsLabelKeys_refl : Reflexive keepsLabelKeys.
Proof. by intros m. Qed.

#[local] Instance keepsLabelKeys_trans : Transitive keepsLabelKeys.
Proof.
  intros a b c [Hab Kab] [Hbc Kbc]. split; [by transitivity b|]. intros k Hk. auto.
Qed.

(** ** Reading the machines under update: [getMachinesUndergoingUpdate] *)

Lemma getMachinesUndergoingUpdate_loop_error (dc : controller) (oldISs : list MachineSet)
    (acc : Z) (w : World) (u : Z) (e : Error) (w' : World) :
  getMachinesUndergoingUpdate_loop dc oldISs acc w = (u, Some e, w') → u = 0.
Proof.
  revert acc w. induction oldISs as [|ms mss IH]; intros acc w; simpl; [done|].
  destruct (listMachines dc _ w) as [[machines [e1|]] w1].
  - by intros [= <- _ _].
  - apply IH.
Qed.

(** X5.  [getMachinesUndergoingUpdate] changes no stored object; it returns the
    number of machines of the old MachineSets that the lister shows as
    selected for update, or 0 together with the error of the lister. *)
Theorem getMachinesUndergoingUpdate_reads_only (dc : controller) (oldISs : list MachineSet)
    (w : World) :
  sameApi w (getMachinesUndergoingUpdate dc oldISs w).2
  ∧ (∃ evs, trace (getMachinesUndergoingUpdate dc oldISs w).2 = trace w ++ evs
            ∧ Forall isRead evs)
  ∧ match (getMachinesUndergoingUpdate dc oldISs w).1.2 with
    | None => (getMachinesUndergoingUpdate dc oldISs w).1.1 = machinesUndergoingUpdate dc oldISs
    | Some _ => (getMachinesUndergoingUpdate dc oldISs w).1.1 = 0
    end.
Proof.
  unfold getMachinesUndergoingUpdate.
  destruct (getMachinesUndergoingUpdate_loop dc oldISs 0 w) as [[u err] w1] eqn:E.
  pose proof E as E'.
  apply getMachinesUndergoingUpdate_loop_run in E as (evs & Hr & Hread & Hu & _).
  simpl. split; [|split].
  - eapply replay_read_sameApi; [exact Hr|]. eapply Forall_impl; [exact Hread|]. by left.
  - exists evs. split; [by apply replay_trace in Hr|done].
  - destruct err as [e|]; [by eapply getMachinesUndergoingUpdate_loop_error|].
    by rewrite (Hu eq_refl).
Qed.

(** ** Choosing the machines to drain: [getMachinesForDrain] *)

Lemma selects_merge (sel ls : gmap string string) (k v : string) :
  selects (MergeStringMaps sel {[ k := v ]}) ls = true → ls !! k = Some v.
Proof.
  unfold selects, MergeStringMaps. intros H%bool_decide_eq_true.
  eapply lookup_weaken; [|exact H]. apply lookup_union_Some_l, lookup_singleton_eq.
Qed.

(** X4.  [getMachinesForDrain] changes no stored object.  A negative
    [readyForDrain] is an error (the slice expression panics).  Otherwise
    it returns at most [readyForDrain] machines, a sublist of the lister's
    machines in the lister's order, each matching the selector of the
    MachineSet, labelled candidate-for-update=true and not labelled
    selected-for-update. *)
Theorem getMachinesForDrain_sound (dc : controller) (ms : MachineSet) (readyForDrain : Z)
    (w : World) :
  sameApi w (getMachinesForDrain dc ms readyForDrain w).2
  ∧ (readyForDrain < 0 → (getMachinesForDrain dc ms readyForDrain w).1.2 ≠ None)
  ∧ ((getMachinesForDrain dc ms readyForDrain w).1.2 = None →
     Z.of_nat (length (getMachinesForDrain dc ms readyForDrain w).1.1) <= readyForDrain
     ∧ (getMachinesForDrain dc ms readyForDrain w).1.1 `sublist_of` machineLister dc
     ∧ ∀ m, m ∈ (getMachinesForDrain dc ms readyForDrain w).1.1 →
            selects (MergeStringMaps (isSelector ms)
                       {[ LabelKeyMachineCandidateForUpdate := "true" ]}) (mLabels m) = true
            ∧ isCandidate (mLabels m)
            ∧ mLabels m !! LabelKeyMachineSelectedForUpdate = None).
Proof.
  unfold getMachinesForDrain.
  destruct (listMachines dc _ w) as [[machines err] w1] eqn:E.
  apply listMachines_run in E as [Ha Hms].
  assert (Hsame : sameApi w w1).
  { eapply (replay_read_sameApi dc [_]); [by chain|]. constructor; [by left|constructor]. }
  destruct err as [e|]; simpl; [done|].
  specialize (Hms eq_refl). unfold machinesForDrain.
  set (rest := filter (λ m, mLabels m !! LabelKeyMachineSelectedForUpdate = None) machines).
  assert (Hsub : rest `sublist_of` machineLister dc).
  { subst rest machines. etrans; apply sublist_filter. }
  assert (Hin : ∀ m, m ∈ rest →
            selects (MergeStringMaps (isSelector ms)
                       {[ LabelKeyMachineCandidateForUpdate := "true" ]}) (mLabels m) = true
            ∧ isCandidate (mLabels m)
            ∧ mLabels m !! LabelKeyMachineSelectedForUpdate = None).
  { intros m [Hsel Hm]%list_elem_of_filter. subst machines.
    apply list_elem_of_filter in Hm as [Hm _].
    split; [done|]. split; [|done]. by eapply selects_merge. }
  destruct (decide (readyForDrain < Z.of_nat (length rest))) as [Hlt|Hge].
  - destruct (decide (readyForDrain < 0)) as [Hneg|Hpos]; simpl.
    + done.
    + split; [done|]. split; [lia|]. intros _. split; [|split].
      * rewrite length_take. lia.
      * etrans; [apply sublist_take|done].
      * intros m Hm. apply Hin. by eapply subseteq_take.
  - simpl. split; [done|]. split; [lia|]. intros _. split; [lia|]. done.
Qed.
(** ** Labelling the machines selected for update *)

Lemma okPatches_patch (name : string) (p : MachinePatch) (l : list Event) :
  okPatches (Ev (CPatchMachine name p) true :: l) = 1 + okPatches l.
Proof.
  rewrite okPatches_cons. destruct (decide _) as [_|Hn]; [done|].
  exfalso. apply Hn. by split.
Qed.

Lemma okPatches_skip (e : Event) (l : list Event) :
  ¬ isPatch e ∨ evOk e = false → okPatches (e :: l) = okPatches l.
Proof.
  intros H. rewrite okPatches_cons. destruct (decide _) as [[Hp Hok]|_]; [|done].
  destruct H as [H|H]; [done|congruence].
Qed.

Lemma okPatches_nonneg (l : list Event) : 0 <= okPatches l.
Proof. unfold okPatches. lia. Qed.

Lemma wrap32_add_r (x y : Z) : wrap32 (x + wrap32 y) = wrap32 (x + y).
Proof. rewrite Z.add_comm, wrap32_add_l. f_equal. lia. Qed.

Lemma selectEvent_patch (dc : controller) (name : string) (ls : gmap string string)
    (ok : bool) :
  selectEvent dc
    (Ev (CPatchMachine name
           (PatchAddLabels
              (MergeStringMaps ls {[ LabelKeyMachineSelectedForUpdate := "true" ]}))) ok).
Proof.
  unfold selectEvent, isSelected, MergeStringMaps. simpl.
  apply lookup_union_Some_l, lookup_singleton_eq.
Qed.

Lemma selectEvent_get (dc : controller) (name : string) (ok : bool) :
  selectEvent dc (Ev (CGetNode name) ok).
Proof. done. Qed.

Lemma selectEvent_list (dc : controller) (sel : gmap string string) (ok : bool) :
  selectEvent dc (Ev (CListMachines sel) ok).
Proof. done. Qed.

Lemma selectEvent_update (dc : controller) (node : Node) (ok : bool) :
  node ∈ nodeLister dc →
  selectEvent dc
    (Ev (CUpdateNode TargetCluster
           (mkNode (nName node)
                   (<[ LabelKeyMachineSelectedForUpdate := "true" ]> (nLabels node))
                   (nUnschedulable node))) ok).
Proof. intros Hin. by exists node. Qed.

Lemma selectEvent_read (dc : controller) (e : Event) : isRead e → selectEvent dc e.
Proof. unfold isRead, selectEvent. by destruct (evCall e). Qed.

Create HintDb select.
#[local] Hint Resolve selectEvent_patch selectEvent_get selectEvent_list
  selectEvent_update : select.

Lemma selectedBy_mono (dc : controller) (evs evs' : list Event) (m : Machine) :
  selectedBy dc evs m → evs ⊆ evs' → selectedBy dc evs' m.
Proof.
  intros [Hp Hn] Hsub. split; [by apply Hsub|].
  intros Hl. destruct (Hn Hl) as (node & Hf & Hor). exists node. split; [done|].
  destruct Hor as [?|?]; [by left|right; by apply Hsub].
Qed.

(** The calls of the loop of [labelMachinesToSelectedForUpdate], started
    with the counter at [c]: the counter never moves by more than the number
    of successful patches, and after a run without error it has moved by the
    number of machines whose node the cache did not show as selected. *)
Lemma labelMachinesToSelectedForUpdate_loop_run (dc : controller) (machines : list Machine)
    (c : Z) (w : World) (n : Z) (err : option Error) (w' : World) :
  labelMachinesToSelectedForUpdate_loop dc machines c w = (n, err, w') →
  wrap32 c = c →
  ∃ evs,
    replay dc evs w = Some w' ∧ Forall (selectEvent dc) evs
    ∧ (∃ k, n = wrap32 (c + k) ∧ 0 <= k <= okPatches evs)
    ∧ (err = None →
       n = wrap32 (c + Z.of_nat (length (filter (λ m, ¬ nodeAlreadySelected dc m) machines)))
       ∧ ∀ m, m ∈ machines → selectedBy dc evs m).
Proof.
  revert c w. induction machines as [|m machines IH]; intros c w; simpl.
  { intros [= <- <- <-] Hc. exists []. split; [done|]. split; [constructor|].
    split.
    - exists 0. rewrite Z.add_0_r, okPatches_nil. split; [done|lia].
    - intros _. rewrite Z.add_0_r. split; [done|]. intros m Hin. inversion Hin. }
  intros H Hc. revert H.
  destruct (PatchMachine dc _ _ w) as [e1 w1] eqn:E1. apply PatchMachine_run in E1.
  destruct e1 as [e1|].
  { intros [= <- <- <-]. eexists [_]. split; [chain|].
    split; [forall_events ltac:(auto with select)|].
    split; [|done]. exists 0. rewrite Z.add_0_r. split; [done|].
    rewrite okPatches_skip by (by right). rewrite okPatches_nil. lia. }
  (* the remaining machines, after the calls [pre] for [m] that moved the
     counter by [d] *)
  assert (Hcont : ∀ pre d w2,
            replay dc pre w = Some w2 → Forall (selectEvent dc) pre →
            selectedBy dc pre m →
            (d = 1 ∧ ¬ nodeAlreadySelected dc m ∨ d = 0 ∧ nodeAlreadySelected dc m) →
            okPatches pre = 1 →
            labelMachinesToSelectedForUpdate_loop dc machines (wrap32 (c + d)) w2
            = (n, err, w') →
            ∃ evs,
              replay dc evs w = Some w' ∧ Forall (selectEvent dc) evs
              ∧ (∃ k, n = wrap32 (c + k) ∧ 0 <= k <= okPatches evs)
              ∧ (err = None →
                 n = wrap32 (c + Z.of_nat (length (filter (λ m, ¬ nodeAlreadySelected dc m)
                                                     (m :: machines))))
                 ∧ ∀ m0, m0 ∈ m :: machines → selectedBy dc evs m0)).
  { intros pre d w2 Hpre Hcpre Hsel Hd Hone H.
    destruct (IH _ _ H) as (evs & Hr & Hc' & (k & Hk & Hkb) & Hok);
      [apply wrap32_idemp|].
    exists (pre ++ evs). split; [by eapply replay_app_Some|].
    split; [by apply Forall_app|]. split.
    - exists (d + k). rewrite okPatches_app, Hone. split; [|lia].
      rewrite Hk, wrap32_add_l. f_equal. lia.
    - intros He. destruct (Hok He) as [Hn Hall]. split.
      + rewrite Hn, wrap32_add_l, filter_cons.
        destruct Hd as [[-> Hna]|[-> Ha]]; destruct (decide _); try done; simpl;
          f_equal; lia.
      + intros m0 Hin. apply elem_of_cons in Hin as [->|Hin].
        * eapply selectedBy_mono; [exact Hsel|].
          intros e ?. apply elem_of_app. by left.
        * eapply selectedBy_mono; [by apply Hall|].
          intros e ?. apply elem_of_app. by right. }
  destruct (decide (label (mLabels m) NodeLabelKey ≠ "")) as [Hl|Hl]; cycle 1.
  { intros H. eapply (Hcont [_] 1); [chain| | | | |exact H].
    - forall_events ltac:(auto with select).
    - split; [left|done].
    - left. split; [done|]. by intros [? _].
    - by rewrite okPatches_patch, okPatches_nil. }
  destruct (getNode dc _ w1) as [[node e2] w2] eqn:E2.
  apply getNode_run in E2 as (R2 & Hget & _).
  assert (Hret : ∀ e w3 post,
            replay dc (Ev (CPatchMachine (mName m)
                             (PatchAddLabels
                                (MergeStringMaps (mLabels m)
                                   {[ LabelKeyMachineSelectedForUpdate := "true" ]})))
                          true :: post) w = Some w3 →
            Forall (selectEvent dc) post →
            (c, Some e, w3) = (n, err, w') →
            ∃ evs,
              replay dc evs w = Some w' ∧ Forall (selectEvent dc) evs
              ∧ (∃ k, n = wrap32 (c + k) ∧ 0 <= k <= okPatches evs)
              ∧ (err = None →
                 n = wrap32 (c + Z.of_nat (length (filter (λ m, ¬ nodeAlreadySelected dc m)
                                                     (m :: machines))))
                 ∧ ∀ m0, m0 ∈ m :: machines → selectedBy dc evs m0)).
  { intros e w3 post Hr Hpost [= <- <- <-]. eexists. split; [exact Hr|].
    split; [apply Forall_cons_2; [auto with select|done]|].
    split; [|done]. exists 0. rewrite Z.add_0_r. split; [done|].
    rewrite okPatches_patch. pose proof (okPatches_nonneg post). lia. }
  intros H.
  destruct e2 as [e2|].
  { destruct node; eapply (Hret _ _ [_]); try exact H; try chain;
      forall_events ltac:(auto with select). }
  destruct Hget as (nd & -> & Hf).
  destruct (decide (label (nLabels nd) LabelKeyMachineSelectedForUpdate = "true"))
    as [Hsel|Hsel].
  { (* continue *)
    eapply (Hcont [_; _] 0); [chain| | | | |by rewrite Z.add_0_r, Hc].
    - forall_events ltac:(auto with select).
    - split; [left|]. intros _. exists nd. split; [done|by left].
    - right. split; [done|]. split; [done|]. by rewrite Hf; simpl; rewrite Hsel.
    - rewrite okPatches_patch, okPatches_skip by (left; by intros []).
      by rewrite okPatches_nil. }
  destruct (UpdateNode dc _ _ w2) as [e3 w3] eqn:E3. apply UpdateNode_run in E3.
  pose proof (findNode_name _ _ _ Hf) as [_ Hin].
  destruct e3 as [e3|].
  { eapply (Hret _ _ [_; _]); try exact H; try chain.
    forall_events ltac:(auto with select). }
  eapply (Hcont [_; _; _] 1); [chain| | | | |exact H].
  - forall_events ltac:(auto with select).
  - split; [left|]. intros _. exists nd. split; [done|]. right. right. right. left.
  - left. split; [done|]. intros [_ Ha]. rewrite Hf in Ha. simpl in Ha. congruence.
  - rewrite okPatches_patch, !okPatches_skip by (left; by intros []).
    by rewrite okPatches_nil.
Qed.
Lemma labelMachinesToSelectedForUpdate_run (dc : controller) (ms : MachineSet)
    (newScale : Z) (w : World) (n : Z) (err : option Error) (w' : World) :
  labelMachinesToSelectedForUpdate dc ms newScale w = (n, err, w') →
  ∃ evs,
    replay dc evs w = Some w' ∧ Forall (selectEvent dc) evs
    ∧ (∃ k, n = wrap32 k ∧ 0 <= k <= okPatches evs)
    ∧ (err = None →
       n = int32_of_len (filter (λ m, ¬ nodeAlreadySelected dc m)
                           (chosenForUpdate dc ms newScale))
       ∧ ∀ m, m ∈ chosenForUpdate dc ms newScale → selectedBy dc evs m).
Proof.
  unfold labelMachinesToSelectedForUpdate, getMachinesForDrain.
  destruct (listMachines dc _ w) as [[machines e1] w1] eqn:E1.
  apply listMachines_run in E1 as [R1 Hms].
  destruct e1 as [e1|].
  { intros [= <- <- <-]. eexists [_]. split; [chain|].
    split; [forall_events ltac:(auto with select)|]. split; [|done].
    exists 0. split; [done|]. rewrite okPatches_skip by (by right).
    rewrite okPatches_nil. lia. }
  specialize (Hms eq_refl).
  destruct (machinesForDrain machines _) as [chosen e2] eqn:E2.
  destruct e2 as [e2|].
  { intros [= <- <- <-]. eexists [_]. split; [chain|].
    split; [forall_events ltac:(auto with select)|]. split; [|done].
    exists 0. split; [done|]. rewrite okPatches_skip by (left; by intros []).
    rewrite okPatches_nil. lia. }
  assert (Hchosen : chosen = chosenForUpdate dc ms newScale).
  { unfold chosenForUpdate, eligibleForDrain. rewrite <- Hms.
    destruct (decide (0 <= sub32 (isReplicas ms) newScale)) as [Hk|Hk].
    - rewrite machinesForDrain_take in E2 by done. by injection E2 as <-.
    - unfold machinesForDrain in E2.
      destruct (decide (_ < _)) as [_|Hge]; [|lia].
      destruct (decide (_ < 0)); [done|lia]. }
  intros H.
  apply labelMachinesToSelectedForUpdate_loop_run in H as (evs & Hr & Hc & (k & Hk & Hkb) & Hok);
    [|done].
  exists (Ev (CListMachines
                (MergeStringMaps (isSelector ms)
                   {[ LabelKeyMachineCandidateForUpdate := "true" ]})) true :: evs).
  split; [chain|]. split; [apply Forall_cons_2; [auto with select|done]|].
  split.
  - exists k. split; [by rewrite Hk|]. rewrite okPatches_skip by (left; by intros []). done.
  - intros He. destruct (Hok He) as [Hn Hall]. rewrite <- Hchosen. split; [by rewrite Hn|].
    intros m Hin. eapply selectedBy_mono; [by apply Hall|]. intros e ?. by right.
Qed.

Lemma selectEvent_patches (dc : controller) (e : Event) :
  selectEvent dc e → patchesEstablish (λ m, isSelected (mLabels m)) e.
Proof.
  intros Hc name p -> m m' Hp. unfold selectEvent in Hc. simpl in Hc.
  destruct p; try done. simpl in Hp. injection Hp as <-. simpl.
  by apply lookup_union_Some_l.
Qed.

Lemma selectEvent_updates (dc : controller) (e : Event) :
  selectEvent dc e → updatesEstablish TargetCluster (λ n, isSelected (nLabels n)) e.
Proof.
  intros Hc n ->. unfold selectEvent in Hc. simpl in Hc.
  destruct Hc as (node & _ & ->). apply lookup_insert_eq.
Qed.

Lemma selectEvent_relates (dc : controller) (e : Event) :
  selectEvent dc e → patchesRelate keepsLabelKeys e.
Proof.
  intros Hc name p -> m m' Hp. unfold selectEvent in Hc. simpl in Hc.
  destruct p; try done. simpl in Hp. injection Hp as <-. split; [done|]. simpl.
  intros k [v Hk]. destruct (ls !! k) as [v'|] eqn:E.
  - exists v'. by apply lookup_union_Some_l.
  - exists v. rewrite lookup_union_r; done.
Qed.

Lemma selectEvent_not_scale (dc : controller) (e : Event) : selectEvent dc e → ¬ isScale e.
Proof. unfold selectEvent, isScale. destruct (evCall e); tauto. Qed.

Lemma selectEvent_not_control (dc : controller) (e : Event) :
  selectEvent dc e → ¬ updatesCluster ControlCluster e.
Proof.
  unfold selectEvent, updatesCluster. destruct (evCall e) as [| | | |cl n|]; try tauto.
  destruct cl; [tauto|]. by intros _ [=].
Qed.

(** X3.  After a run of [labelMachinesToSelectedForUpdate] without error, every
    machine it chose is stored with selected-for-update=true, the node of
    each was labelled in the cache or is stored labelled on the target
    cluster, and the number returned is the number of chosen machines whose
    node the cache did not show as labelled. *)
Theorem labelMachinesToSelectedForUpdate_success (dc : controller) (ms : MachineSet)
    (newScale : Z) (w : World) :
  (labelMachinesToSelectedForUpdate dc ms newScale w).1.2 = None →
  (labelMachinesToSelectedForUpdate dc ms newScale w).1.1
  = int32_of_len (filter (λ m, ¬ nodeAlreadySelected dc m) (chosenForUpdate dc ms newScale))
  ∧ ∀ m, m ∈ chosenForUpdate dc ms newScale →
         (∃ m', apiMachines (labelMachinesToSelectedForUpdate dc ms newScale w).2 !! mName m
                = Some m'
                ∧ isSelected (mLabels m'))
         ∧ (label (mLabels m) NodeLabelKey ≠ "" →
            ∃ node, findNode (label (mLabels m) NodeLabelKey) (nodeLister dc) = Some node
                    ∧ (label (nLabels node) LabelKeyMachineSelectedForUpdate = "true"
                       ∨ ∃ n', targetNodes (labelMachinesToSelectedForUpdate dc ms newScale w).2
                               !! nName node = Some n'
                               ∧ isSelected (nLabels n'))).
Proof.
  destruct (labelMachinesToSelectedForUpdate dc ms newScale w) as [[n err] w'] eqn:H.
  simpl. intros ->.
  apply labelMachinesToSelectedForUpdate_run in H as (evs & Hr & Hc & _ & Hok).
  destruct (Hok eq_refl) as [Hn Hall]. split; [done|].
  intros m Hin. destruct (Hall m Hin) as [Hp Hnode]. split.
  - eapply (replay_patched (λ m, isSelected (mLabels m))); [exact Hr| |right; eauto].
    eapply Forall_impl; [exact Hc|]. apply selectEvent_patches.
  - intros Hl. destruct (Hnode Hl) as (node & Hf & Hor). exists node. split; [done|].
    destruct Hor as [?|Hu]; [by left|right].
    eapply (replay_updated TargetCluster (λ n, isSelected (nLabels n))); [exact Hr| |].
    + eapply Forall_impl; [exact Hc|]. apply selectEvent_updates.
    + right. exists (selectedCopy node). by split.
Qed.

(** ** Selecting over the old MachineSets *)

Lemma selectMachineForUpdate_loop_run (dc : controller) (oldISs : list MachineSet)
    (totalReadyForUpdateCount totalReadyForUpdate : Z) (w : World)
    (n : Z) (err : option Error) (w' : World) :
  selectMachineForUpdate_loop dc oldISs totalReadyForUpdateCount totalReadyForUpdate w
  = (n, err, w') →
  wrap32 totalReadyForUpdate = totalReadyForUpdate →
  ∃ evs,
    replay dc evs w = Some w' ∧ Forall (selectEvent dc) evs
    ∧ (n = 0 ∨ ∃ k, n = wrap32 (totalReadyForUpdate + k) ∧ 0 <= k <= okPatches evs).
Proof.
  revert totalReadyForUpdate w.
  induction oldISs as [|ms mss IH]; intros total w; simpl.
  { intros [= <- <- <-] Ht. exists []. split; [done|]. split; [constructor|].
    right. exists 0. rewrite Z.add_0_r, okPatches_nil. split; [done|lia]. }
  destruct (decide (totalReadyForUpdateCount <= total)).
  { intros [= <- <- <-] Ht. exists []. split; [done|]. split; [constructor|].
    right. exists 0. rewrite Z.add_0_r, okPatches_nil. split; [done|lia]. }
  destruct (decide (isReplicas ms = 0)); [apply IH|].
  destruct (decide (isReplicas ms < _)).
  { intros [= <- <- <-] _. exists []. split; [done|]. split; [constructor|]. by left. }
  destruct (labelMachinesToSelectedForUpdate dc ms _ w) as [[k1 e1] w1] eqn:E1.
  apply labelMachinesToSelectedForUpdate_run in E1 as (evs1 & R1 & C1 & (k & -> & Hkb) & _).
  destruct e1 as [e1|].
  { intros [= <- <- <-] Ht. exists evs1. split; [done|]. split; [done|].
    right. exists k. split; [|done]. unfold add32. by rewrite wrap32_add_r. }
  intros H Ht. destruct (IH _ _ H) as (evs & Hr & Hc & Hn); [apply wrap32_idemp|].
  exists (evs1 ++ evs). split; [by eapply replay_app_Some|].
  split; [by apply Forall_app|].
  destruct Hn as [->|(k' & -> & Hkb')]; [by left|right].
  exists (k + k'). rewrite okPatches_app. split; [|lia].
  unfold add32. rewrite (wrap32_add_r total k), wrap32_add_l. f_equal. lia.
Qed.

Lemma selectMachineForUpdate_run (dc : controller) (allISs oldISs : list MachineSet)
    (deployment : MachineDeployment) (u : Z) (w : World)
    (n : Z) (err : option Error) (w' : World) :
  selectMachineForUpdate dc allISs oldISs deployment u w = (n, err, w') →
  ∃ evs,
    replay dc evs w = Some w' ∧ Forall (selectEvent dc) evs
    ∧ (0 < n → 0 < okPatches evs).
Proof.
  unfold selectMachineForUpdate. destruct (decide _).
  { intros [= <- <- <-]. exists []. split; [done|]. split; [constructor|]. lia. }
  intros H. apply selectMachineForUpdate_loop_run in H as (evs & Hr & Hc & Hn); [|done].
  exists evs. split; [done|]. split; [done|].
  destruct Hn as [->|(k & -> & Hkb)]; [lia|].
  intros Hpos. destruct (decide (k = 0)) as [->|]; [|lia].
  by vm_compute in Hpos.
Qed.

Lemma reconcileOld_select_run (dc : controller) (allISs oldISs : list MachineSet)
    (newIS : MachineSet) (deployment : MachineDeployment) (w : World)
    (b : bool) (err : option Error) (w' : World) :
  isReplicas newIS ≠ dReplicas deployment →
  reconcileOldMachineSetsInPlace dc allISs oldISs newIS deployment w = (b, err, w') →
  ∃ evs,
    replay dc evs w = Some w' ∧ Forall (selectEvent dc) evs
    ∧ (b = true → 0 < okPatches evs).
Proof.
  intros Hne. unfold reconcileOldMachineSetsInPlace.
  destruct (decide (GetReplicaCountForMachineSets oldISs = 0)).
  { intros [= <- <- <-]. exists []. split; [done|]. split; [constructor|done]. }
  destruct (decide (isReplicas newIS = dReplicas deployment)); [done|].
  unfold getMachinesUndergoingUpdate.
  destruct (getMachinesUndergoingUpdate_loop dc oldISs 0 w) as [[u e1] w1] eqn:E1.
  apply getMachinesUndergoingUpdate_loop_run in E1 as (evs1 & R1 & Hread & _ & _).
  assert (C1 : Forall (selectEvent dc) evs1).
  { eapply Forall_impl; [exact Hread|]. apply selectEvent_read. }
  assert (P1 : okPatches evs1 = 0).
  { apply okPatches_not_patch. eapply Forall_impl; [exact Hread|].
    intros [c ok]. unfold isRead, isPatch. simpl. destruct c; tauto. }
  destruct e1 as [e1|].
  { intros [= <- <- <-]. exists evs1. done. }
  destruct (decide (_ <= 0)).
  { intros [= <- <- <-]. exists evs1. done. }
  destruct (selectMachineForUpdate dc allISs oldISs deployment u w1) as [[k e2] w2] eqn:E2.
  apply selectMachineForUpdate_run in E2 as (evs2 & R2 & C2 & Hpos).
  assert (Hr : replay dc (evs1 ++ evs2) w = Some w2) by (by eapply replay_app_Some).
  assert (Hc : Forall (selectEvent dc) (evs1 ++ evs2)) by (by apply Forall_app).
  destruct e2 as [e2|]; intros [= <- <- <-]; exists (evs1 ++ evs2);
    (split; [done|]); (split; [done|]); [done|].
  intros Hb%bool_decide_eq_true. rewrite okPatches_app, P1. by apply Hpos.
Qed.

(** X6.  When the new MachineSet is not at the size of the deployment,
    [reconcileOldMachineSetsInPlace] writes no MachineSet and no node of the
    control cluster, and every stored machine keeps its name, UID, owner and
    all its label keys: the MachineSets are not scaled when machines are
    selected. *)
Theorem reconcileOldMachineSetsInPlace_select_frame (dc : controller)
    (allISs oldISs : list MachineSet) (newIS : MachineSet) (deployment : MachineDeployment)
    (w : World) :
  isReplicas newIS ≠ dReplicas deployment →
  apiMachineSets (reconcileOldMachineSetsInPlace dc allISs oldISs newIS deployment w).2
  = apiMachineSets w
  ∧ controlNodes (reconcileOldMachineSetsInPlace dc allISs oldISs newIS deployment w).2
    = controlNodes w
  ∧ ∀ name m,
      apiMachines w !! name = Some m →
      ∃ m', apiMachines (reconcileOldMachineSetsInPlace dc allISs oldISs newIS deployment w).2
            !! name = Some m'
            ∧ keepsLabelKeys m m'.
Proof.
  intros Hne.
  destruct (reconcileOldMachineSetsInPlace dc allISs oldISs newIS deployment w)
    as [[b err] w'] eqn:E.
  apply reconcileOld_select_run in E as (evs & Hr & Hc & _); [|done]. simpl.
  split; [|split].
  - eapply replay_frame_machineSets; [exact Hr|].
    eapply Forall_impl; [exact Hc|]. intros ev Hev _. by eapply selectEvent_not_scale.
  - apply (replay_frame_nodes ControlCluster _ _ _ _ Hr).
    eapply Forall_impl; [exact Hc|]. intros ev Hev _. by eapply selectEvent_not_control.
  - intros name m Hm. eapply (replay_related keepsLabelKeys); [exact Hr| |exact Hm].
    eapply Forall_impl; [exact Hc|]. apply selectEvent_relates.
Qed.
(** ** The old MachineSets scaled to zero *)

Lemma after_scaled (Q : MachineSet → Prop) (dc : controller) (e : Event) (w w' : World)
    (name : string) :
  after dc e w = Some w' → scalesEstablish Q e →
  (∃ ms, apiMachineSets w !! name = Some ms ∧ Q ms)
  ∨ (∃ isCopy, isName isCopy = name ∧ e = Ev (CUpdateMachineSet isCopy) true) →
  ∃ ms', apiMachineSets w' !! name = Some ms' ∧ Q ms'.
Proof.
  unfold after. destruct e as [c ok]. simpl. intros H HQ Hor.
  destruct ok; cycle 1.
  { injection H as <-. simpl. destruct Hor as [?|(? & _ & [=])]. done. }
  destruct c; simpl in H; simplify_option_eq;
    try (destruct Hor as [?|(? & _ & [=])]; done).
  - destruct cl; simpl; destruct Hor as [?|(? & _ & [=])]; done.
  - destruct (decide (isName isCopy = name)) as [<-|Hne].
    + rewrite lookup_insert_eq. eexists; split; [done|]. by apply HQ.
    + rewrite lookup_insert_ne by done.
      destruct Hor as [?|(c' & Hn & [= ->])]; done.
Qed.

Lemma replay_scaled (Q : MachineSet → Prop) (dc : controller) (evs : list Event)
    (w w' : World) (name : string) :
  replay dc evs w = Some w' → Forall (scalesEstablish Q) evs →
  (∃ ms, apiMachineSets w !! name = Some ms ∧ Q ms)
  ∨ (∃ isCopy, isName isCopy = name ∧ Ev (CUpdateMachineSet isCopy) true ∈ evs) →
  ∃ ms', apiMachineSets w' !! name = Some ms' ∧ Q ms'.
Proof.
  revert w. induction evs as [|e evs IH]; intros w; simpl.
  - intros [= ->] _ [H|(c & _ & H)]; [done|inversion H].
  - destruct (after dc e w) as [w1|] eqn:E; [|done]. simpl. intros H Hall Hor.
    apply Forall_cons in Hall as [He Hall].
    apply (IH _ H Hall).
    destruct Hor as [Hm|(c & Hc & Hin)].
    + left. eapply after_scaled; eauto.
    + apply elem_of_cons in Hin as [Heq|Hin]; [|right; eauto].
      left. eapply after_scaled; eauto.
Qed.

Lemma zeroEvent_mono (l l' : list MachineSet) (e : Event) :
  l ⊆ l' → zeroEvent l e → zeroEvent l' e.
Proof.
  unfold zeroEvent. intros Hsub. destruct (evCall e); try done.
  intros (ms & Hin & ->). exists ms. split; [by apply Hsub|done].
Qed.

Lemma zeroEvent_scale (ms : MachineSet) (l : list MachineSet) (err : option Error) :
  ms ∈ l → Forall (zeroEvent l) (scaleEvents ms 0 err).
Proof.
  intros Hin. unfold scaleEvents. destruct (decide _); repeat constructor.
  by exists ms.
Qed.

Lemma reconcileOld_scaleToZero_run (dc : controller) (oldISs : list MachineSet) (w : World)
    (b : bool) (err : option Error) (w' : World) :
  reconcileOld_scaleToZero dc oldISs w = (b, err, w') →
  ∃ evs,
    replay dc evs w = Some w' ∧ Forall (zeroEvent oldISs) evs
    ∧ (b = true →
       err = None
       ∧ ∀ ms, ms ∈ oldISs → isReplicas ms ≠ 0 →
               Ev (CUpdateMachineSet (withReplicas ms 0)) true ∈ evs).
Proof.
  revert w. induction oldISs as [|ms mss IH]; intros w; simpl.
  { intros [= <- <- <-]. exists []. split; [done|]. split; [constructor|].
    intros _. split; [done|]. intros ms Hin. inversion Hin. }
  destruct (scaleMachineSetAndRecordEvent dc ms 0 w) as [[sc e1] w1] eqn:E1.
  apply scale_run in E1 as (R1 & _ & _).
  destruct e1 as [e1|].
  { intros [= <- <- <-]. eexists. split; [exact R1|].
    split; [apply zeroEvent_scale; left|done]. }
  intros H. destruct (IH _ H) as (evs & Hr & Hc & Hb).
  exists (scaleEvents ms 0 None ++ evs). split; [by eapply replay_app_Some|].
  split.
  { apply Forall_app. split; [apply zeroEvent_scale; left|].
    eapply Forall_impl; [exact Hc|]. intros e. apply zeroEvent_mono.
    intros x ?. by right. }
  intros Hbt. destruct (Hb Hbt) as [He Hall]. split; [done|].
  intros ms0 Hin Hne. apply elem_of_app.
  apply elem_of_cons in Hin as [->|Hin]; [left|right; by apply Hall].
  unfold scaleEvents. destruct (decide _); [done|]. left.
Qed.

Lemma zeroEvent_scales (oldISs : list MachineSet) (e : Event) :
  zeroEvent oldISs e → scalesEstablish (λ ms, isReplicas ms = 0) e.
Proof.
  intros Hz c ->. unfold zeroEvent in Hz. simpl in Hz. by destruct Hz as (ms & _ & ->).
Qed.

Lemma zeroEvent_only_scale (oldISs : list MachineSet) (e : Event) :
  zeroEvent oldISs e → ¬ isPatch e ∧ ∀ cl, ¬ updatesCluster cl e.
Proof.
  unfold zeroEvent, isPatch, updatesCluster. destruct (evCall e); try tauto.
Qed.

(** X7.  When the new MachineSet is at the size of the deployment,
    [reconcileOldMachineSetsInPlace] returns true only without error, and
    then every old MachineSet that had replicas is stored with none; no
    machine and no node is written. *)
Theorem reconcileOldMachineSetsInPlace_scale_to_zero (dc : controller)
    (allISs oldISs : list MachineSet) (newIS : MachineSet) (deployment : MachineDeployment)
    (w : World) :
  isReplicas newIS = dReplicas deployment →
  (reconcileOldMachineSetsInPlace dc allISs oldISs newIS deployment w).1.1 = true →
  (reconcileOldMachineSetsInPlace dc allISs oldISs newIS deployment w).1.2 = None
  ∧ (∀ ms, ms ∈ oldISs → isReplicas ms ≠ 0 →
           ∃ ms', apiMachineSets
                    (reconcileOldMachineSetsInPlace dc allISs oldISs newIS deployment w).2
                  !! isName ms = Some ms'
                  ∧ isReplicas ms' = 0)
  ∧ apiMachines (reconcileOldMachineSetsInPlace dc allISs oldISs newIS deployment w).2
    = apiMachines w
  ∧ ∀ cl, nodesOf cl (reconcileOldMachineSetsInPlace dc allISs oldISs newIS deployment w).2
          = nodesOf cl w.
Proof.
  intros Heq. unfold reconcileOldMachineSetsInPlace.
  destruct (decide (GetReplicaCountForMachineSets oldISs = 0)); [done|].
  destruct (decide (isReplicas newIS = dReplicas deployment)); [|done].
  destruct (reconcileOld_scaleToZero dc oldISs w) as [[b err] w'] eqn:E. simpl.
  intros ->. apply reconcileOld_scaleToZero_run in E as (evs & Hr & Hc & Hb).
  destruct (Hb eq_refl) as [-> Hall]. split; [done|]. split; [|split].
  - intros ms Hin Hne.
    eapply (replay_scaled (λ ms, isReplicas ms = 0)); [exact Hr| |].
    + eapply Forall_impl; [exact Hc|]. apply zeroEvent_scales.
    + right. exists (withReplicas ms 0). split; [done|]. by apply Hall.
  - eapply replay_frame_machines; [exact Hr|].
    eapply Forall_impl; [exact Hc|]. intros ev Hev _. by apply zeroEvent_only_scale in Hev as [? _].
  - intros cl. eapply replay_frame_nodes; [exact Hr|].
    eapply Forall_impl; [exact Hc|]. intros ev Hev _. by apply zeroEvent_only_scale in Hev as [_ ?].
Qed.

Lemma reconcileOldMachineSetsInPlace_scale_to_zero_witness :
  ScaleToZeroScenario.run.1.2 = None
  ∧ ∃ ms', apiMachineSets ScaleToZeroScenario.run.2 !! "machineset-old" = Some ms'
           ∧ isReplicas ms' = 0.
Proof.
  destruct (reconcileOldMachineSetsInPlace_scale_to_zero ScaleToZeroScenario.dc
              [ScaleToZeroScenario.oldIS; ScaleToZeroScenario.newIS]
              [ScaleToZeroScenario.oldIS] ScaleToZeroScenario.newIS
              ScaleToZeroScenario.deployment ScaleToZeroScenario.w0)
    as (Herr & Hzero & _).
  - vm_compute. reflexivity.
  - vm_compute. reflexivity.
  - split; [exact Herr|]. apply (Hzero ScaleToZeroScenario.oldIS); [left|].
    vm_compute. discriminate.
Defined.

(** ** A [true] result of [reconcileOldMachineSetsInPlace] *)

Lemma GetReplicaCountForMachineSets_zero (l : list MachineSet) :
  Forall (λ ms, isReplicas ms = 0) l → GetReplicaCountForMachineSets l = 0.
Proof.
  unfold GetReplicaCountForMachineSets. induction 1 as [|ms l Hms _ IH]; simpl; [done|].
  by rewrite Hms.
Qed.

Lemma okPatches_pos_elem (l : list Event) :
  0 < okPatches l → ∃ e, e ∈ l ∧ isPatch e ∧ evOk e = true.
Proof.
  unfold okPatches. intros Hpos.
  destruct (filter (λ e, isPatch e ∧ evOk e = true) l) as [|e l'] eqn:E; [simpl in Hpos; lia|].
  assert (Hin : e ∈ filter (λ e, isPatch e ∧ evOk e = true) l) by (rewrite E; left).
  apply list_elem_of_filter in Hin as [[? ?] ?]. by exists e.
Qed.

(** X8.  [reconcileOldMachineSetsInPlace] returns true only when one of its
    writes went through: a MachineSet scaled to zero or a machine labelled
    as selected for update. *)
Theorem reconcileOldMachineSetsInPlace_true_after_write (dc : controller)
    (allISs oldISs : list MachineSet) (newIS : MachineSet) (deployment : MachineDeployment)
    (w : World) :
  (reconcileOldMachineSetsInPlace dc allISs oldISs newIS deployment w).1.1 = true →
  ∃ evs e,
    trace (reconcileOldMachineSetsInPlace dc allISs oldISs newIS deployment w).2
    = trace w ++ evs
    ∧ e ∈ evs ∧ isWrite e ∧ (isPatch e ∨ isScale e).
Proof.
  destruct (decide (isReplicas newIS = dReplicas deployment)) as [Heq|Hne].
  - (* the old MachineSets go to zero *)
    unfold reconcileOldMachineSetsInPlace.
    destruct (decide (GetReplicaCountForMachineSets oldISs = 0)) as [|Hcount]; [done|].
    destruct (decide (isReplicas newIS = dReplicas deployment)); [|done].
    destruct (reconcileOld_scaleToZero dc oldISs w) as [[b err] w'] eqn:E. simpl.
    intros ->. apply reconcileOld_scaleToZero_run in E as (evs & Hr & Hc & Hb).
    destruct (Hb eq_refl) as [-> Hall].
    destruct (decide (Forall (λ ms, isReplicas ms = 0) oldISs)) as [Hz|Hz].
    { by apply GetReplicaCountForMachineSets_zero in Hz. }
    apply not_Forall_Exists in Hz; [|apply _].
    apply Exists_exists in Hz as (ms & Hin & Hms).
    exists evs, (Ev (CUpdateMachineSet (withReplicas ms 0)) true).
    split; [by apply replay_trace in Hr|]. split; [by apply Hall|].
    split; [|by right]. split; [by intros []|done].
  - destruct (reconcileOldMachineSetsInPlace dc allISs oldISs newIS deployment w)
      as [[b err] w'] eqn:E. simpl. intros ->.
    apply reconcileOld_select_run in E as (evs & Hr & Hc & Hpos); [|done].
    destruct (okPatches_pos_elem evs (Hpos eq_refl)) as (e & Hin & Hp & Hok).
    exists evs, e. split; [by apply replay_trace in Hr|]. split; [done|].
    split; [|by left]. split; [|done].
    destruct e as [c ok]. unfold isPatch, isRead in *. simpl in *. destruct c; tauto.
Qed.

Lemma reconcileOldMachineSetsInPlace_true_after_write_witness :
  ∃ evs e, trace DrainScenario.runA.2 = trace DrainScenario.w0 ++ evs
           ∧ e ∈ evs ∧ isWrite e ∧ (isPatch e ∨ isScale e).
Proof.
  apply (reconcileOldMachineSetsInPlace_true_after_write DrainScenario.dcA
           [DrainScenario.oldIS; DrainScenario.newIS] [DrainScenario.oldIS]
           DrainScenario.newIS DrainScenario.deployment DrainScenario.w0).
  vm_compute. reflexivity.
Defined.

Lemma reconcileOldMachineSetsInPlace_select_frame_witness :
  apiMachineSets DrainScenario.runA.2 = apiMachineSets DrainScenario.w0
  ∧ controlNodes DrainScenario.runA.2 = controlNodes DrainScenario.w0.
Proof.
  destruct (reconcileOldMachineSetsInPlace_select_frame DrainScenario.dcA
              [DrainScenario.oldIS; DrainScenario.newIS] [DrainScenario.oldIS]
              DrainScenario.newIS DrainScenario.deployment DrainScenario.w0)
    as (Hsets & Hnodes & _).
  - vm_compute. discriminate.
  - split; [exact Hsets|exact Hnodes].
Defined.

(** In the scenario of the node that kept its label, [machine-a] is chosen
    and labelled, and the number returned is 0. *)
Lemma labelMachinesToSelectedForUpdate_success_witness :
  (labelMachinesToSelectedForUpdate BudgetScenario.dc BudgetScenario.oldA 0
     BudgetScenario.w0).1.1
  = int32_of_len (filter (λ m, ¬ nodeAlreadySelected BudgetScenario.dc m)
                    (chosenForUpdate BudgetScenario.dc BudgetScenario.oldA 0))
  ∧ ∃ m', apiMachines
            (labelMachinesToSelectedForUpdate BudgetScenario.dc BudgetScenario.oldA 0
               BudgetScenario.w0).2 !! "machine-a" = Some m'
          ∧ isSelected (mLabels m').
Proof.
  destruct (labelMachinesToSelectedForUpdate_success BudgetScenario.dc BudgetScenario.oldA 0
              BudgetScenario.w0) as [Hn Hall].
  - vm_compute. reflexivity.
  - split; [exact Hn|]. apply (Hall BudgetScenario.machineA). left.
Defined.

Lemma selectMachineForUpdate_reported_within_budget_witness :
  0 <= (selectMachineForUpdate BudgetScenario.dc
          [BudgetScenario.oldA; BudgetScenario.oldB; BudgetScenario.newIS]
          [BudgetScenario.oldA; BudgetScenario.oldB] BudgetScenario.deployment 0
          BudgetScenario.w0).1.1
    <= Z.max 0 (sub32 (GetAvailableReplicaCountForMachineSets
                         [BudgetScenario.oldA; BudgetScenario.oldB; BudgetScenario.newIS]) 0
                - sub32 (dReplicas BudgetScenario.deployment)
                        (MaxUnavailable BudgetScenario.deployment)).
Proof.
  apply (selectMachineForUpdate_reported_within_budget BudgetScenario.dc
           [BudgetScenario.oldA; BudgetScenario.oldB; BudgetScenario.newIS]
           [BudgetScenario.oldA; BudgetScenario.oldB] BudgetScenario.deployment 0
           BudgetScenario.w0).
  repeat constructor; vm_compute; discriminate.
Defined.

(** ** The calls of [reconcileNewMachineSetInPlace] *)

Lemma transferCall_mono (dc : controller) (oldISs oldISs' : list MachineSet)
    (newIS : MachineSet) (scalable scalable' : list MachineSet) (e : Event) :
  oldISs ⊆ oldISs' → scalable ⊆ scalable' →
  transferCall dc oldISs newIS scalable e → transferCall dc oldISs' newIS scalable' e.
Proof.
  unfold transferCall. intros Ho Hs. destruct (evCall e); try done.
  - intros (ms & Hin & ->). exists ms. split; [by apply Ho|done].
  - intros (ms & r & Hin & ->). exists ms, r. split; [by apply Hs|done].
Qed.

Lemma transferCall_scale (dc : controller) (oldISs : list MachineSet) (newIS : MachineSet)
    (scalable : list MachineSet) (ms : MachineSet) (r : Z) (err : option Error) :
  ms ∈ scalable → Forall (transferCall dc oldISs newIS scalable) (scaleEvents ms r err).
Proof.
  intros Hin. unfold scaleEvents. destruct (decide _); repeat constructor.
  by exists ms, r.
Qed.

Lemma getMachineFromNode_elem (machines : list Machine) (node : Node) (m : Machine) :
  getMachineFromNode machines node = Some m → m ∈ machines.
Proof.
  unfold getMachineFromNode. intros H. apply head_Some in H as [l' H].
  assert (Hin : m ∈ filter (λ m0, label (mLabels m0) NodeLabelKey = nName node) machines)
    by (rewrite H; left).
  by apply list_elem_of_filter in Hin as [_ ?].
Qed.

Lemma reconcileNew_patchFailed_calls (dc : controller) (oldISs : list MachineSet)
    (ms newIS : MachineSet) (deployment : MachineDeployment) (t a : Z) (e : Error)
    (w : World) :
  ∃ evs,
    replay dc evs w = Some (reconcileNew_patchFailed dc ms newIS deployment t a e w).2
    ∧ Forall (transferCall dc oldISs newIS [newIS; ms]) evs.
Proof.
  unfold reconcileNew_patchFailed.
  destruct (scaleMachineSetAndRecordEvent dc newIS _ w) as [[sc1 e1] w1] eqn:E1.
  apply scale_run in E1 as (R1 & _ & _).
  destruct e1 as [e1|].
  { simpl. eexists. split; [exact R1|]. apply transferCall_scale. left. }
  destruct (scaleMachineSetAndRecordEvent dc ms _ w1) as [[sc2 e2] w2] eqn:E2.
  apply scale_run in E2 as [R2 _].
  exists (scaleEvents newIS (add32 (isReplicas newIS) a) None
          ++ scaleEvents ms (sub32 (isReplicas ms) t) e2).
  split.
  - destruct e2; simpl; by eapply replay_app_Some.
  - apply Forall_app. split; apply transferCall_scale; [left|right; left].
Qed.

Lemma reconcileNew_nodes_calls (dc : controller) (oldISs : list MachineSet)
    (ms newIS : MachineSet) (deployment : MachineDeployment) (machines : list Machine)
    (nodes : list Node) (t a : Z) (w : World) :
  machines ⊆ machineLister dc →
  Forall (λ node, node ∈ nodeLister dc
                  ∧ nLabels node !! LabelKeyMachineUpdateSuccessful = Some "true") nodes →
  ∃ evs,
    replay dc evs w
    = Some (reconcileNew_nodes dc ms newIS deployment machines nodes t a w).2
    ∧ match (reconcileNew_nodes dc ms newIS deployment machines nodes t a w).1 with
      | Next _ => Forall (transferCall dc oldISs newIS []) evs
      | Return _ => Forall (transferCall dc oldISs newIS [newIS; ms]) evs
      end.
Proof.
  intros Hms Hnodes. revert t a w.
  induction Hnodes as [|node nodes [Hnode Hlabel] _ IH]; intros t a w; simpl.
  { exists []. split; [done|constructor]. }
  destruct (getMachineFromNode machines node) as [machine|] eqn:Hm; [|apply IH].
  apply getMachineFromNode_elem, Hms in Hm.
  assert (Hpatch : ∀ S ok,
            transferCall dc oldISs newIS S
              (Ev (CPatchMachine (mName machine)
                     (PatchOwner (isName newIS) (isUID newIS)
                        (MergeStringMaps
                           (MergeWithOverwriteAndFilter (mLabels machine) (isSelector ms)
                              (isSelector newIS))
                           {[ LabelKeyMachineUpdateSuccessful := "true" ]})
                        (mUID machine))) ok)).
  { intros S ok. unfold transferCall. simpl. split; [done|]. split; [done|].
    split; [apply lookup_union_Some_l, lookup_singleton_eq|]. by exists machine. }
  assert (Hupdate : ∀ S ok,
            transferCall dc oldISs newIS S
              (Ev (CUpdateNode ControlCluster (mkNode (nName node) (nLabels node) false)) ok)).
  { intros S ok. unfold transferCall. simpl. by exists node. }
  destruct (PatchMachine dc _ _ w) as [e1 w1] eqn:E1. apply PatchMachine_run in E1.
  destruct e1 as [e1|].
  { destruct (reconcileNew_patchFailed_calls dc oldISs ms newIS deployment t a e1 w1)
      as (post & Rpost & Cpost).
    destruct (reconcileNew_patchFailed dc ms newIS deployment t a e1 w1) as [[sc err'] w2].
    simpl in *. eexists (_ :: post). split; [chain|].
    apply Forall_cons_2; [apply Hpatch|done]. }
  destruct (UpdateNode dc _ _ w1) as [e2 w2] eqn:E2. apply UpdateNode_run in E2.
  destruct e2 as [e2|].
  { simpl. eexists [_; _]. split; [chain|].
    apply Forall_cons_2; [apply Hpatch|]. apply Forall_cons_2; [apply Hupdate|constructor]. }
  destruct (IH (add32 t 1) (add32 a 1) w2) as (evs & Hr & Hc).
  eexists (_ :: _ :: evs). split; [chain|].
  destruct (reconcileNew_nodes dc ms newIS deployment machines nodes _ _ w2) as [[?|?] ?];
    simpl in *;
    (apply Forall_cons_2; [apply Hpatch|]); (apply Forall_cons_2; [apply Hupdate|done]).
Qed.

Lemma reconcileNew_oldISs_calls (dc : controller) (oldISs : list MachineSet)
    (newIS : MachineSet) (deployment : MachineDeployment) (a : Z) (w : World) :
  ∃ evs,
    replay dc evs w = Some (reconcileNew_oldISs dc oldISs newIS deployment a w).2
    ∧ match (reconcileNew_oldISs dc oldISs newIS deployment a w).1 with
      | Next _ => Forall (transferCall dc oldISs newIS oldISs) evs
      | Return _ => Forall (transferCall dc oldISs newIS (newIS :: oldISs)) evs
      end.
Proof.
  revert a w. induction oldISs as [|ms mss IH]; intros a w; simpl.
  { exists []. split; [done|constructor]. }
  assert (Hlm : ∀ S ok, transferCall dc (ms :: mss) newIS S
                         (Ev (CListMachines (isSelector ms)) ok)).
  { intros S ok. exists ms. split; [left|done]. }
  assert (Hln : ∀ S ok,
            transferCall dc (ms :: mss) newIS S
              (Ev (CListNodes {[ LabelKeyMachineUpdateSuccessful := "true" ]}) ok)).
  { intros S ok. done. }
  destruct (listMachines dc _ w) as [[machines e1] w1] eqn:E1.
  apply listMachines_run in E1 as [R1 Hms].
  destruct e1 as [e1|].
  { simpl. eexists [_]. split; [chain|]. apply Forall_cons_2; [apply Hlm|constructor]. }
  destruct (listNodes dc _ w1) as [[nodes e2] w2] eqn:E2.
  apply listNodes_run in E2 as [R2 Hns].
  destruct e2 as [e2|].
  { simpl. eexists [_; _]. split; [chain|].
    apply Forall_cons_2; [apply Hlm|]. apply Forall_cons_2; [apply Hln|constructor]. }
  specialize (Hms eq_refl). specialize (Hns eq_refl).
  destruct (reconcileNew_nodes_calls dc (ms :: mss) ms newIS deployment machines nodes 0 a w2)
    as (evs3 & R3 & C3).
  { rewrite Hms. intros m Hm. by apply list_elem_of_filter in Hm as [_ ?]. }
  { rewrite Hns. apply Forall_forall. intros node Hn.
    apply list_elem_of_filter in Hn as [Hsel Hn]. split; [done|].
    unfold selects in Hsel. apply bool_decide_eq_true in Hsel.
    eapply lookup_weaken; [apply lookup_singleton_eq|exact Hsel]. }
  destruct (reconcileNew_nodes dc ms newIS deployment machines nodes 0 a w2)
    as [[[t a']|r] w3]; simpl in *.
  2:{ eexists (_ :: _ :: evs3). split; [chain|].
      apply Forall_cons_2; [apply Hlm|]. apply Forall_cons_2; [apply Hln|].
      eapply Forall_impl; [exact C3|]. intros e. apply transferCall_mono; [done|].
      intros x Hx. apply elem_of_cons in Hx as [->|Hx]; [left|].
      apply list_elem_of_singleton in Hx as ->. right. left. }
  destruct (scaleMachineSetAndRecordEvent dc ms _ w3) as [[sc e4] w4] eqn:E4.
  apply scale_run in E4 as (R4 & _ & _).
  assert (Hpre : ∀ S, ms ∈ S →
            Forall (transferCall dc (ms :: mss) newIS S)
              (Ev (CListMachines (isSelector ms)) (noError None)
               :: Ev (CListNodes {[ LabelKeyMachineUpdateSuccessful := "true" ]})
                     (noError None)
               :: evs3 ++ scaleEvents ms (sub32 (isReplicas ms) t) e4)).
  { intros S HS. apply Forall_cons_2; [apply Hlm|]. apply Forall_cons_2; [apply Hln|].
    apply Forall_app. split; [|by apply transferCall_scale].
    eapply Forall_impl; [exact C3|]. intros e. apply transferCall_mono; [done|].
    intros x Hx. inversion Hx. }
  assert (Rpre : replay dc
                   (Ev (CListMachines (isSelector ms)) (noError None)
                    :: Ev (CListNodes {[ LabelKeyMachineUpdateSuccessful := "true" ]})
                          (noError None)
                    :: evs3 ++ scaleEvents ms (sub32 (isReplicas ms) t) e4) w = Some w4).
  { chain. }
  destruct e4 as [e4|].
  { simpl. eexists. split; [exact Rpre|]. apply Hpre. right. left. }
  destruct (IH a' w4) as (evs & Hr & Hc).
  eexists (_ ++ evs). split; [eapply replay_app_Some; [exact Rpre|exact Hr]|].
  destruct (reconcileNew_oldISs dc mss newIS deployment a' w4) as [[?|?] ?];
    simpl in Hr, Hc; cbn [fst snd];
    (apply Forall_app; split; [apply Hpre|]).
  - left.
  - eapply Forall_impl; [exact Hc|]. intros e. apply transferCall_mono.
    + intros x ?. by right.
    + intros x ?. by right.
  - right. left.
  - eapply Forall_impl; [exact Hc|]. intros e. apply transferCall_mono.
    + intros x ?. by right.
    + intros x Hx. apply elem_of_cons in Hx as [->|Hx]; [left|right; by right].
Qed.

Lemma reconcileNewMachineSetInPlace_calls (dc : controller) (oldISs : list MachineSet)
    (newIS : MachineSet) (deployment : MachineDeployment) (w : World) :
  ∃ evs,
    replay dc evs w = Some (reconcileNewMachineSetInPlace dc oldISs newIS deployment w).2
    ∧ Forall (transferCall dc oldISs newIS (newIS :: oldISs)) evs.
Proof.
  unfold reconcileNewMachineSetInPlace.
  destruct (decide (isReplicas newIS = dReplicas deployment)).
  { exists []. split; [done|constructor]. }
  destruct (decide (dReplicas deployment < isReplicas newIS)).
  { destruct (scaleMachineSetAndRecordEvent dc newIS _ w) as [[sc e1] w1] eqn:E1.
    apply scale_run in E1 as (R1 & _ & _). eexists. split; [exact R1|].
    apply transferCall_scale. left. }
  destruct (reconcileNew_oldISs_calls dc oldISs newIS deployment 0 w) as (evs & Hr & Hc).
  destruct (reconcileNew_oldISs dc oldISs newIS deployment 0 w) as [[a|[sc err]] w1];
    simpl in *.
  - destruct (scaleMachineSetAndRecordEvent dc newIS _ w1) as [[sc e1] w2] eqn:E1.
    apply scale_run in E1 as (R1 & _ & _).
    eexists (evs ++ _). split; [by eapply replay_app_Some|].
    apply Forall_app. split; [|apply transferCall_scale; left].
    eapply Forall_impl; [exact Hc|]. intros e. apply transferCall_mono; [done|].
    intros x ?. by right.
  - by exists evs.
Qed.

Lemma transferCall_updates (dc : controller) (oldISs : list MachineSet) (newIS : MachineSet)
    (scalable : list MachineSet) (n0 : Node) (e : Event) :
  transferCall dc oldISs newIS scalable e →
  updatesEstablish ControlCluster (sameOrUncordoned dc n0) e.
Proof.
  intros Hc n ->. unfold transferCall in Hc. simpl in Hc.
  destruct Hc as (node & ? & ? & ->). right. by exists node.
Qed.

Lemma transferCall_not_target (dc : controller) (oldISs : list MachineSet)
    (newIS : MachineSet) (scalable : list MachineSet) (e : Event) :
  transferCall dc oldISs newIS scalable e → ¬ updatesCluster TargetCluster e.
Proof.
  unfold transferCall, updatesCluster. destruct (evCall e) as [| | | |cl n|]; try tauto.
  destruct cl; [by intros _ [=]|tauto].
Qed.

(** X10.  On either cluster, [reconcileNewMachineSetInPlace] leaves a stored
    node as it was or stores in its place the uncordoned copy of a cached
    node labelled update-successful=true, whether it fails or not: no node is
    cordoned or deleted, and no node label is changed against the cache. *)
Theorem reconcileNewMachineSetInPlace_nodes (dc : controller) (oldISs : list MachineSet)
    (newIS : MachineSet) (deployment : MachineDeployment) (w : World)
    (cl : Cluster) (name : string) (n : Node) :
  nodesOf cl w !! name = Some n →
  ∃ n', nodesOf cl (reconcileNewMachineSetInPlace dc oldISs newIS deployment w).2
        !! name = Some n'
        ∧ sameOrUncordoned dc n n'.
Proof.
  intros Hn.
  destruct (reconcileNewMachineSetInPlace_calls dc oldISs newIS deployment w)
    as (evs & Hr & Hc).
  destruct cl.
  - apply (replay_updated ControlCluster (sameOrUncordoned dc n) _ _ _ _ name Hr).
    + eapply Forall_impl; [exact Hc|]. intros e. apply transferCall_updates.
    + left. exists n. split; [done|by left].
  - exists n. split; [|by left]. simpl in *. rewrite <- Hn. f_equal.
    apply (replay_frame_nodes TargetCluster _ _ _ _ Hr).
    eapply Forall_impl; [exact Hc|]. intros e He _. by eapply transferCall_not_target.
Qed.

Lemma reconcileNewMachineSetInPlace_nodes_witness :
  ∃ n', nodesOf ControlCluster
          (reconcileNewMachineSetInPlace TransferScenario.dc [TransferScenario.oldIS]
             TransferScenario.newIS TransferScenario.deployment TransferScenario.w0).2
        !! "node-0" = Some n'
        ∧ sameOrUncordoned TransferScenario.dc
            (mkNode "node-0" {[ LabelKeyMachineUpdateSuccessful := "true" ]} true) n'.
Proof.
  apply (reconcileNewMachineSetInPlace_nodes TransferScenario.dc [TransferScenario.oldIS]
           TransferScenario.newIS TransferScenario.deployment TransferScenario.w0
           ControlCluster "node-0").
  vm_compute. reflexivity.
Defined.

(** ** The regular path of [reconcileNewMachineSetInPlace] *)

Lemma replay_same_trace (dc : controller) (evs evs' : list Event) (w w' : World) :
  replay dc evs w = Some w' → replay dc evs' w = Some w' → evs = evs'.
Proof.
  intros H1%replay_trace H2%replay_trace. rewrite H1 in H2. by apply app_inv_head in H2.
Qed.

(** X9.  When the new MachineSet is below the size of the deployment and
    [reconcileNewMachineSetInPlace] returns no error, every call went
    through, the only MachineSets scaled before the last call are old ones,
    and the last call scales the new MachineSet up by the number of machines
    whose ownership was transferred (no call when that number is 0). *)
Theorem reconcileNewMachineSetInPlace_success (dc : controller) (oldISs : list MachineSet)
    (newIS : MachineSet) (deployment : MachineDeployment) (w : World) :
  isReplicas newIS < dReplicas deployment →
  (reconcileNewMachineSetInPlace dc oldISs newIS deployment w).1.2 = None →
  ∃ evs,
    trace (reconcileNewMachineSetInPlace dc oldISs newIS deployment w).2
    = trace w ++ evs
              ++ scaleEvents newIS (add32 (isReplicas newIS) (wrap32 (okPatches evs))) None
    ∧ Forall (λ e, evOk e = true) evs
    ∧ Forall (transferCall dc oldISs newIS oldISs) evs.
Proof.
  intros Hlt. unfold reconcileNewMachineSetInPlace.
  destruct (decide (isReplicas newIS = dReplicas deployment)); [lia|].
  destruct (decide (dReplicas deployment < isReplicas newIS)); [lia|].
  destruct (reconcileNew_oldISs_calls dc oldISs newIS deployment 0 w) as (evs' & Hr' & Hc').
  destruct (reconcileNew_oldISs dc oldISs newIS deployment 0 w) as [[a|[sc err]] w1] eqn:E;
    simpl in *.
  - apply reconcileNew_oldISs_run in E as (evs & Hr & _ & Hok & ->); [|done].
    assert (evs' = evs) as -> by (by eapply replay_same_trace).
    destruct (scaleMachineSetAndRecordEvent dc newIS _ w1) as [[sc e1] w2] eqn:E1.
    apply scale_run in E1 as (R1 & _ & _). simpl. intros ->.
    exists evs. split; [|done].
    rewrite Z.add_0_l in R1.
    rewrite (replay_trace _ _ _ _ (replay_app_Some _ _ _ _ _ _ Hr R1)). done.
  - apply reconcileNew_oldISs_run in E as (evs & Hr & _ & Herr & _); [|done].
    by intros ->.
Qed.

Lemma reconcileNewMachineSetInPlace_success_witness :
  ∃ evs,
    trace (reconcileNewMachineSetInPlace TransferScenario.dc [TransferScenario.oldIS]
             TransferScenario.newIS TransferScenario.deployment TransferScenario.w0).2
    = trace TransferScenario.w0 ++ evs
        ++ scaleEvents TransferScenario.newIS
             (add32 (isReplicas TransferScenario.newIS) (wrap32 (okPatches evs))) None
    ∧ Forall (λ e, evOk e = true) evs.
Proof.
  destruct (reconcileNewMachineSetInPlace_success TransferScenario.dc
              [TransferScenario.oldIS] TransferScenario.newIS TransferScenario.deployment
              TransferScenario.w0) as (evs & Ht & Hok & _).
  - vm_compute. reflexivity.
  - vm_compute. reflexivity.
  - exists evs. split; [exact Ht|exact Hok].
Defined.

(** ** The calls of [syncMachineSets] *)

Lemma syncCall_mono (dc : controller) (l l' : list MachineSet) (newIS : MachineSet)
    (e : Event) :
  l ⊆ l' → syncCall dc l newIS e → syncCall dc l' newIS e.
Proof.
  unfold syncCall. intros Hsub. destruct (evCall e); try done.
  - intros [?|(ms & Hin & ->)]; [by left|right]. exists ms. split; [by apply Hsub|done].
  - intros [?|(ms & Hin & ?)]; [by left|right]. exists ms. split; [by apply Hsub|done].
Qed.

Lemma syncMachineSets_removeLabels_calls (dc : controller) (olsISs : list MachineSet)
    (newIS : MachineSet) (machines : list Machine) (w : World) :
  Forall (λ m, m ∈ matching dc (isSelector newIS)
               ∧ mLabels m !! LabelKeyMachineUpdateSuccessful = Some "true") machines →
  ∃ evs,
    replay dc evs w = Some (syncMachineSets_removeLabels dc machines w).2
    ∧ Forall (syncCall dc olsISs newIS) evs.
Proof.
  intros Hall. revert w. induction Hall as [|m machines [Hm Hl] _ IH]; intros w; simpl.
  { exists []. split; [done|constructor]. }
  destruct (PatchMachine dc _ _ w) as [e1 w1] eqn:E1. apply PatchMachine_run in E1.
  assert (Hp : ∀ ok, syncCall dc olsISs newIS
                       (Ev (CPatchMachine (mName m) (PatchRemoveLabels labelsToRemove)) ok)).
  { intros ok. split; [done|]. by exists m. }
  destruct e1 as [e1|].
  { simpl. eexists [_]. split; [chain|]. apply Forall_cons_2; [apply Hp|constructor]. }
  destruct (IH w1) as (evs & Hr & Hc).
  eexists (_ :: evs). split; [chain|]. apply Forall_cons_2; [apply Hp|done].
Qed.

Lemma syncMachineSets_uncordon_calls (dc : controller) (olsISs : list MachineSet)
    (newIS : MachineSet) (machines : list Machine) (w : World) :
  ∃ evs,
    replay dc evs w = Some (syncMachineSets_uncordon dc machines w).2
    ∧ Forall (syncCall dc olsISs newIS) evs.
Proof.
  revert w. induction machines as [|m machines IH]; intros w; simpl.
  { exists []. split; [done|constructor]. }
  destruct (mLabels m !! NodeLabelKey) as [nodeName|].
  2:{ exists []. split; [done|constructor]. }
  destruct (getNode dc nodeName w) as [[node e1] w1] eqn:E1.
  apply getNode_run in E1 as (R1 & Hget & _).
  assert (Hg : ∀ ok, syncCall dc olsISs newIS (Ev (CGetNode nodeName) ok)) by done.
  destruct e1 as [e1|].
  { destruct node; simpl; eexists [_]; (split; [chain|]);
      (apply Forall_cons_2; [apply Hg|constructor]). }
  destruct Hget as (nd & -> & Hf). apply findNode_name in Hf as [_ Hin].
  destruct (UpdateNode dc _ _ w1) as [e2 w2] eqn:E2. apply UpdateNode_run in E2.
  assert (Hu : ∀ ok, syncCall dc olsISs newIS
                       (Ev (CUpdateNode TargetCluster (uncordoned nd)) ok)).
  { intros ok. split; [done|]. by exists nd. }
  destruct e2 as [e2|].
  { simpl. eexists [_; _]. split; [chain|].
    apply Forall_cons_2; [apply Hg|]. apply Forall_cons_2; [apply Hu|constructor]. }
  destruct (IH w2) as (evs & Hr & Hc).
  eexists (_ :: _ :: evs). split; [chain|].
  apply Forall_cons_2; [apply Hg|]. apply Forall_cons_2; [apply Hu|done].
Qed.

Lemma syncMachineSets_scaleDown_calls (dc : controller) (olsISs : list MachineSet)
    (newIS : MachineSet) (deployment : MachineDeployment) (w : World) :
  ∃ evs,
    replay dc evs w = Some (syncMachineSets_scaleDown dc olsISs deployment w).2
    ∧ Forall (syncCall dc olsISs newIS) evs.
Proof.
  revert w. induction olsISs as [|ms mss IH]; intros w; simpl.
  { exists []. split; [done|constructor]. }
  destruct (listMachines dc _ w) as [[machines e1] w1] eqn:E1.
  apply listMachines_run in E1 as [R1 Hms].
  assert (Hl : ∀ ok, syncCall dc (ms :: mss) newIS (Ev (CListMachines (isSelector ms)) ok)).
  { intros ok. right. exists ms. split; [left|done]. }
  assert (Hrest : ∀ w2, ∃ evs,
            replay dc evs w2 = Some (syncMachineSets_scaleDown dc mss deployment w2).2
            ∧ Forall (syncCall dc (ms :: mss) newIS) evs).
  { intros w2. destruct (IH w2) as (evs & Hr & Hc). exists evs. split; [done|].
    eapply Forall_impl; [exact Hc|]. intros e. apply syncCall_mono. intros x ?. by right. }
  destruct e1 as [e1|].
  { simpl. eexists [_]. split; [chain|]. apply Forall_cons_2; [apply Hl|constructor]. }
  specialize (Hms eq_refl). fold (matching dc (isSelector ms)) in Hms. subst machines.
  destruct (decide (_ < _)) as [Hlt|Hge].
  - destruct (scaleMachineSetAndRecordEvent dc ms _ w1) as [[sc e2] w2] eqn:E2.
    apply scale_run in E2 as (R2 & _ & _).
    assert (Hs : Forall (syncCall dc (ms :: mss) newIS)
                   (scaleEvents ms (int32_of_len (matching dc (isSelector ms))) e2)).
    { unfold scaleEvents. destruct (decide _); [constructor|].
      apply Forall_cons_2; [|constructor]. right. exists ms. split; [left|done]. }
    destruct e2 as [e2|].
    { simpl. eexists (_ :: _). split; [chain|]. apply Forall_cons_2; [apply Hl|done]. }
    destruct (Hrest w2) as (evs & Hr & Hc).
    eexists (_ :: _ ++ evs). split.
    { eapply replay_cons_Some; [exact R1|]. by eapply replay_app_Some. }
    apply Forall_cons_2; [apply Hl|]. by apply Forall_app.
  - destruct (Hrest w1) as (evs & Hr & Hc).
    eexists (_ :: evs). split; [chain|]. apply Forall_cons_2; [apply Hl|done].
Qed.

Lemma syncMachineSets_calls (dc : controller) (olsISs : list MachineSet)
    (newIS : MachineSet) (deployment : MachineDeployment) (w : World) :
  ∃ evs,
    replay dc evs w = Some (syncMachineSets dc olsISs newIS deployment w).2
    ∧ Forall (syncCall dc olsISs newIS) evs.
Proof.
  unfold syncMachineSets.
  destruct (listMachines dc _ w) as [[machines e1] w1] eqn:E1.
  apply listMachines_run in E1 as [R1 Hms].
  assert (Hl : ∀ ok, syncCall dc olsISs newIS (Ev (CListMachines (isSelector newIS)) ok)).
  { intros ok. by left. }
  destruct e1 as [e1|].
  { simpl. eexists [_]. split; [chain|]. apply Forall_cons_2; [apply Hl|constructor]. }
  specialize (Hms eq_refl). fold (matching dc (isSelector newIS)) in Hms. subst machines.
  (* the scale-up of the new MachineSet *)
  assert (Hup : ∃ evs2 err2 w2,
            (if decide (isReplicas newIS < Z.of_nat (length (matching dc (isSelector newIS)))
                        ∧ (0 < length (filterMachinesWithUpdateSuccessfulLabel
                                         (matching dc (isSelector newIS))))%nat)
             then
               let '(_, err, w2) :=
                 scaleMachineSetAndRecordEvent dc newIS
                   (add32 (isReplicas newIS)
                      (wrap32
                         (Z.min
                            (Z.of_nat (length (filterMachinesWithUpdateSuccessfulLabel
                                                 (matching dc (isSelector newIS)))))
                            (Z.of_nat (length (matching dc (isSelector newIS)))
                             - isReplicas newIS)))) w1 in
               (err, w2)
             else (None, w1)) = (err2, w2)
            ∧ replay dc evs2 w1 = Some w2 ∧ Forall (syncCall dc olsISs newIS) evs2).
  { destruct (decide _) as [[Hlt Hpos]|_].
    - destruct (scaleMachineSetAndRecordEvent dc newIS _ w1) as [[sc e2] w2] eqn:E2.
      apply scale_run in E2 as (R2 & _ & _).
      eexists _, e2, w2. split; [done|]. split; [exact R2|].
      unfold scaleEvents. destruct (decide _); [constructor|].
      apply Forall_cons_2; [|constructor]. by left.
    - exists [], None, w1. split; [done|]. split; [done|constructor]. }
  destruct Hup as (evs2 & err2 & w2 & -> & R2 & C2).
  destruct err2 as [e2|].
  { simpl. eexists (_ :: evs2). split; [chain|]. apply Forall_cons_2; [apply Hl|done]. }
  destruct (syncMachineSets_removeLabels_calls dc olsISs newIS
              (filterMachinesWithUpdateSuccessfulLabel (matching dc (isSelector newIS))) w2)
    as (evs3 & R3 & C3).
  { apply Forall_forall. intros m Hm.
    by apply list_elem_of_filter in Hm as [? ?]. }
  destruct (syncMachineSets_removeLabels dc _ w2) as [e3 w3]. simpl in R3.
  assert (R13 : replay dc (Ev (CListMachines (isSelector newIS)) (noError None)
                           :: evs2 ++ evs3) w = Some w3).
  { eapply replay_cons_Some; [exact R1|]. by eapply replay_app_Some. }
  assert (C13 : Forall (syncCall dc olsISs newIS)
                  (Ev (CListMachines (isSelector newIS)) (noError None) :: evs2 ++ evs3)).
  { apply Forall_cons_2; [apply Hl|]. by apply Forall_app. }
  destruct e3 as [e3|]; [by eexists|].
  destruct (syncMachineSets_uncordon_calls dc olsISs newIS (matching dc (isSelector newIS)) w3)
    as (evs4 & R4 & C4).
  destruct (syncMachineSets_uncordon dc _ w3) as [e4 w4]. simpl in R4.
  destruct e4 as [e4|].
  { simpl. eexists (_ ++ evs4). split; [by eapply replay_app_Some|]. by apply Forall_app. }
  destruct (syncMachineSets_scaleDown_calls dc olsISs newIS deployment w4)
    as (evs5 & R5 & C5).
  eexists ((_ ++ evs4) ++ evs5). split.
  - eapply replay_app_Some; [|exact R5]. by eapply replay_app_Some.
  - apply Forall_app. split; [by apply Forall_app|done].
Qed.

#[local] Instance updateLabelsOnly_refl : Reflexive updateLabelsOnly.
Proof. by intros m. Qed.

#[local] Instance updateLabelsOnly_trans : Transitive updateLabelsOnly.
Proof.
  intros a b c [Hab Kab] [Hbc Kbc]. split; [by transitivity b|].
  intros k Hk. by rewrite Kbc, Kab.
Qed.

Lemma syncCall_relates (dc : controller) (olsISs : list MachineSet) (newIS : MachineSet)
    (e : Event) :
  syncCall dc olsISs newIS e → patchesRelate updateLabelsOnly e.
Proof.
  intros Hc name p -> m m' Hp. unfold syncCall in Hc. simpl in Hc.
  destruct Hc as [-> _]. simpl in Hp. injection Hp as <-. split; [done|]. simpl.
  intros k Hk. unfold labelsToRemove in Hk.
  rewrite !not_elem_of_cons in Hk. destruct Hk as (? & ? & ? & _).
  by rewrite !lookup_delete_ne.
Qed.

Lemma syncCall_updates (dc : controller) (olsISs : list MachineSet) (newIS : MachineSet)
    (n0 : Node) (e : Event) :
  syncCall dc olsISs newIS e → updatesEstablish TargetCluster (sameOrSynced dc n0) e.
Proof.
  intros Hc n ->. unfold syncCall in Hc. simpl in Hc.
  destruct Hc as (_ & node & ? & ->). right. by exists node.
Qed.

Lemma syncCall_not_control (dc : controller) (olsISs : list MachineSet)
    (newIS : MachineSet) (e : Event) :
  syncCall dc olsISs newIS e → ¬ updatesCluster ControlCluster e.
Proof.
  unfold syncCall, updatesCluster. destruct (evCall e) as [| | | |cl n|]; try tauto.
  intros [-> _] [=].
Qed.

(** X13.  [syncMachineSets] writes no node of the control cluster; a node of the
    target cluster is left as stored or is stored as the uncordoned copy of
    a cached node; and every stored machine keeps its name, UID and owner
    and all labels but selected-for-update, drain-successful and
    update-successful. *)
Theorem syncMachineSets_frame (dc : controller) (olsISs : list MachineSet)
    (newIS : MachineSet) (deployment : MachineDeployment) (w : World) :
  controlNodes (syncMachineSets dc olsISs newIS deployment w).2 = controlNodes w
  ∧ (∀ name n,
       targetNodes w !! name = Some n →
       ∃ n', targetNodes (syncMachineSets dc olsISs newIS deployment w).2 !! name = Some n'
             ∧ sameOrSynced dc n n')
  ∧ ∀ name m,
      apiMachines w !! name = Some m →
      ∃ m', apiMachines (syncMachineSets dc olsISs newIS deployment w).2 !! name = Some m'
            ∧ updateLabelsOnly m m'.
Proof.
  destruct (syncMachineSets_calls dc olsISs newIS deployment w) as (evs & Hr & Hc).
  split; [|split].
  - apply (replay_frame_nodes ControlCluster _ _ _ _ Hr).
    eapply Forall_impl; [exact Hc|]. intros e He _. by eapply syncCall_not_control.
  - intros name n Hn.
    apply (replay_updated TargetCluster (sameOrSynced dc n) _ _ _ _ name Hr).
    + eapply Forall_impl; [exact Hc|]. intros e. apply syncCall_updates.
    + left. exists n. split; [done|by left].
  - intros name m Hm. eapply (replay_related updateLabelsOnly); [exact Hr| |exact Hm].
    eapply Forall_impl; [exact Hc|]. intros e. apply syncCall_relates.
Qed.

Lemma matching_length (dc : controller) (sel : gmap string string) :
  (length (matching dc sel) <= length (machineLister dc))%nat.
Proof. apply length_filter. Qed.

(** X12.  With fewer than 2^31 machines in the cache, every scale request of
    [syncMachineSets] either raises the new MachineSet, to no more than the
    number of machines its selector matches, or lowers an old MachineSet to
    exactly the number of machines its selector matches. *)
Theorem syncMachineSets_scales (dc : controller) (olsISs : list MachineSet)
    (newIS : MachineSet) (deployment : MachineDeployment) (w : World) :
  is_int32 (isReplicas newIS) →
  Z.of_nat (length (machineLister dc)) < 2 ^ 31 →
  ∃ evs,
    trace (syncMachineSets dc olsISs newIS deployment w).2 = trace w ++ evs
    ∧ ∀ isCopy ok,
        Ev (CUpdateMachineSet isCopy) ok ∈ evs →
        (isCopy = withReplicas newIS (isReplicas isCopy)
         ∧ isReplicas newIS < isReplicas isCopy
           <= Z.of_nat (length (matching dc (isSelector newIS))))
        ∨ ∃ ms, ms ∈ olsISs
                ∧ isCopy = withReplicas ms (isReplicas isCopy)
                ∧ isReplicas isCopy = Z.of_nat (length (matching dc (isSelector ms)))
                ∧ isReplicas isCopy < isReplicas ms.
Proof.
  intros Hint Hlen.
  destruct (syncMachineSets_calls dc olsISs newIS deployment w) as (evs & Hr & Hc).
  exists evs. split; [by apply replay_trace in Hr|].
  intros isCopy ok Hin. rewrite Forall_forall in Hc. specialize (Hc _ Hin).
  unfold syncCall in Hc. simpl in Hc. unfold is_int32 in Hint.
  destruct Hc as [(-> & Hlt & Hpos)|(ms & Hms & -> & Hlt)].
  - left. simpl. split; [done|].
    pose proof (matching_length dc (isSelector newIS)) as Hm.
    unfold syncScaleUp. set (k := Z.of_nat (length (filterMachinesWithUpdateSuccessfulLabel _))).
    set (len := Z.of_nat (length (matching dc (isSelector newIS)))) in *.
    assert (Hk : 0 < k) by (subst k; lia).
    assert (Hkl : k <= len).
    { subst k len. unfold filterMachinesWithUpdateSuccessfulLabel.
      pose proof (length_filter
                    (λ m, mLabels m !! LabelKeyMachineUpdateSuccessful = Some "true")
                    (matching dc (isSelector newIS))). lia. }
    assert (Hmin : wrap32 (Z.min k (len - isReplicas newIS)) = Z.min k (len - isReplicas newIS)).
    { apply wrap32_id. unfold is_int32. lia. }
    rewrite Hmin. unfold add32. rewrite wrap32_id; [lia|]. unfold is_int32. lia.
  - right. exists ms. simpl. split; [done|]. split; [done|].
    pose proof (matching_length dc (isSelector ms)) as Hm.
    unfold int32_of_len. rewrite wrap32_id; [lia|]. unfold is_int32. lia.
Qed.

Lemma syncMachineSets_scales_witness :
  ∃ evs,
    trace (syncMachineSets SyncScenario.dcDone [SyncScenario.oldIS]
             (withReplicas SyncScenario.newIS 0) SyncScenario.deployment
             SyncScenario.wDone).2
    = trace SyncScenario.wDone ++ evs
    ∧ ∀ isCopy ok,
        Ev (CUpdateMachineSet isCopy) ok ∈ evs →
        (isCopy = withReplicas (withReplicas SyncScenario.newIS 0) (isReplicas isCopy)
         ∧ isReplicas (withReplicas SyncScenario.newIS 0) < isReplicas isCopy
           <= Z.of_nat (length (matching SyncScenario.dcDone
                                  (isSelector (withReplicas SyncScenario.newIS 0)))))
        ∨ ∃ ms, ms ∈ [SyncScenario.oldIS]
                ∧ isCopy = withReplicas ms (isReplicas isCopy)
                ∧ isReplicas isCopy
                  = Z.of_nat (length (matching SyncScenario.dcDone (isSelector ms)))
                ∧ isReplicas isCopy < isReplicas ms.
Proof.
  apply (syncMachineSets_scales SyncScenario.dcDone [SyncScenario.oldIS]
           (withReplicas SyncScenario.newIS 0) SyncScenario.deployment SyncScenario.wDone).
  - vm_compute. split; [discriminate|reflexivity].
  - vm_compute. reflexivity.
Defined.

(** ** What [labelNodesBackingMachineSets] leaves alone *)

Lemma candidateEvent_relates (e : Event) :
  candidateEvent e → patchesRelate keepsLabelKeys e.
Proof.
  intros Hc name p -> m m' Hp. specialize (Hc eq_refl). simpl in Hc.
  destruct p; try done. simpl in Hp. injection Hp as <-. split; [done|]. simpl.
  intros k [v Hk]. destruct (ls !! k) as [v'|] eqn:E.
  - exists v'. by apply lookup_union_Some_l.
  - exists v. rewrite lookup_union_r; done.
Qed.

Lemma candidateEvent_node_updates (n0 : Node) (e : Event) :
  candidateEvent e → updatesEstablish TargetCluster (sameOrCandidate n0) e.
Proof. intros Hc n ->. right. exact (Hc eq_refl). Qed.

(** X15.  Whether it fails or not, [labelNodesBackingMachineSets] writes no
    MachineSet and no node of the control cluster; a node of the target
    cluster is left as stored or carries candidate-for-update=true; and
    every stored machine keeps its name, UID, owner and all its label
    keys. *)
Theorem labelNodesBackingMachineSets_frame (dc : controller)
    (machineSets : list (option MachineSet)) (lbl : gmap string string) (w : World) :
  apiMachineSets (labelNodesBackingMachineSets dc machineSets lbl w).2 = apiMachineSets w
  ∧ controlNodes (labelNodesBackingMachineSets dc machineSets lbl w).2 = controlNodes w
  ∧ (∀ name n,
       targetNodes w !! name = Some n →
       ∃ n', targetNodes (labelNodesBackingMachineSets dc machineSets lbl w).2 !! name
             = Some n'
             ∧ sameOrCandidate n n')
  ∧ ∀ name m,
      apiMachines w !! name = Some m →
      ∃ m', apiMachines (labelNodesBackingMachineSets dc machineSets lbl w).2 !! name
            = Some m'
            ∧ keepsLabelKeys m m'.
Proof.
  destruct (labelNodesBackingMachineSets dc machineSets lbl w) as [err w'] eqn:E.
  apply labelNodesBackingMachineSets_run in E as (evs & Hr & Hc & _). simpl.
  split; [|split; [|split]].
  - eapply replay_frame_machineSets; [exact Hr|].
    eapply Forall_impl; [exact Hc|]. intros [c ok] He Hok. specialize (He Hok).
    unfold isScale. simpl in *. destruct c; tauto.
  - apply (replay_frame_nodes ControlCluster _ _ _ _ Hr).
    eapply Forall_impl; [exact Hc|]. intros [c ok] He Hok. specialize (He Hok).
    unfold updatesCluster. simpl in *. destruct c as [| | | |cl n|]; try tauto.
    destruct cl; [tauto|]. by intros [=].
  - intros name n Hn.
    apply (replay_updated TargetCluster (sameOrCandidate n) _ _ _ _ name Hr).
    + eapply Forall_impl; [exact Hc|]. intros e. apply candidateEvent_node_updates.
    + left. exists n. split; [done|by left].
  - intros name m Hm. eapply (replay_related keepsLabelKeys); [exact Hr| |exact Hm].
    eapply Forall_impl; [exact Hc|]. apply candidateEvent_relates.
Qed.

(** ** Labelling the MachineSets: [labelMachineSets] *)

Section LabelMachineSetsProperties.
Import LabelMachineSets.

Lemma PatchMachineSet_ok (c : control) (name : string) (labels : gmap string string)
    (a a' : Api) :
  PatchMachineSet c name labels a = (true, a') →
  labelled labels a' name
  ∧ (∀ other, other ≠ name → stored a' !! other = stored a !! other)
  ∧ ∀ other ls, stored a !! other = Some ls →
                ∃ ls', stored a' !! other = Some ls' ∧ dom ls ⊆ dom ls'.
Proof.
  unfold PatchMachineSet. destruct (fault c _ name); [done|].
  destruct (stored a !! name) as [old|] eqn:E; [|done]. intros [= <-]. simpl.
  split; [|split].
  - exists (labels ∪ old). split; [apply lookup_insert_eq|]. apply map_union_subseteq_l.
  - intros other Hne. by apply lookup_insert_ne.
  - intros other ls Hls. destruct (decide (name = other)) as [->|Hne].
    + rewrite lookup_insert_eq. eexists; split; [done|].
      assert (ls = old) as -> by congruence. rewrite dom_union. set_solver.
    + rewrite lookup_insert_ne by done. by exists ls.
Qed.

Lemma PatchMachineSet_failed (c : control) (name : string) (labels : gmap string string)
    (a a' : Api) :
  PatchMachineSet c name labels a = (false, a') → stored a' = stored a.
Proof.
  unfold PatchMachineSet. destruct (fault c _ name); [by intros [= <-]|].
  destruct (stored a !! name); [done|]. by intros [= <-].
Qed.

Lemma labelled_merge (ms : MachineSetMeta) (labels : gmap string string) (a : Api)
    (name : string) :
  labelled (MergeStringMaps (msLabels ms) labels) a name → labelled labels a name.
Proof.
  intros (ls & Hls & Hsub). exists ls. split; [done|].
  etrans; [|exact Hsub]. unfold MergeStringMaps. apply map_union_subseteq_l.
Qed.

(** A later patch keeps the labels of an earlier one. *)
Lemma labelMachineSets_keeps (c : control) (MachineSets : list (option MachineSetMeta))
    (labels : gmap string string) (a : Api) (name : string) :
  labelled labels a name → labelled labels (labelMachineSets c MachineSets labels a).2 name.
Proof.
  revert a. induction MachineSets as [|[ms|] mss IH]; intros a Hl; simpl; [done| |by apply IH].
  destruct (PatchMachineSet c _ _ a) as [[] a1] eqn:E.
  - apply IH. destruct (decide (msName ms = name)) as [<-|Hne].
    + apply PatchMachineSet_ok in E as [E _]. by eapply labelled_merge.
    + apply PatchMachineSet_ok in E as (_ & E & _). destruct Hl as (ls & Hls & Hsub).
      exists ls. split; [|done]. by rewrite E.
  - simpl. apply PatchMachineSet_failed in E. destruct Hl as (ls & Hls & Hsub).
    exists ls. split; [|done]. by rewrite E.
Qed.

(** X16.  After a run of [labelMachineSets] without error, every MachineSet of
    the slice is stored with all the labels given. *)
Theorem labelMachineSets_success (c : control) (MachineSets : list (option MachineSetMeta))
    (labels : gmap string string) (a : Api) (ms : MachineSetMeta) :
  (labelMachineSets c MachineSets labels a).1 = None →
  Some ms ∈ MachineSets →
  labelled labels (labelMachineSets c MachineSets labels a).2 (msName ms).
Proof.
  revert a. induction MachineSets as [|[ms0|] mss IH]; intros a; simpl.
  - intros _ Hin. inversion Hin.
  - destruct (PatchMachineSet c _ _ a) as [[] a1] eqn:E; [|done].
    intros Hnone Hin. apply elem_of_cons in Hin as [[= ->]|Hin]; [|by apply IH].
    apply labelMachineSets_keeps. apply PatchMachineSet_ok in E as [E _].
    by eapply labelled_merge.
  - intros Hnone Hin. apply elem_of_cons in Hin as [[=]|Hin]. by apply IH.
Qed.

Lemma labelMachineSets_success_witness :
  labelled skipUpdate (labelMachineSets noFault [Some setA; None; Some setB] skipUpdate apiBoth).2
    "machineset-b".
Proof.
  apply (labelMachineSets_success noFault [Some setA; None; Some setB] skipUpdate apiBoth setB).
  - vm_compute. reflexivity.
  - right. right. left.
Defined.

(** X17.  When [labelMachineSets] fails, the error names the first MachineSet of
    the slice whose patch failed; the MachineSets before it are stored with
    the labels given, and a stored MachineSet that has none of their names
    is left as it was. *)
Theorem labelMachineSets_failure (c : control) (MachineSets : list (option MachineSetMeta))
    (labels : gmap string string) (a : Api) (name : string) :
  (labelMachineSets c MachineSets labels a).1 = Some (ErrFailedToLabel name) →
  ∃ pre ms post,
    MachineSets = pre ++ Some ms :: post
    ∧ msName ms = name
    ∧ (∀ ms0, Some ms0 ∈ pre →
              labelled labels (labelMachineSets c MachineSets labels a).2 (msName ms0))
    ∧ ∀ other, (∀ ms0, Some ms0 ∈ pre → msName ms0 ≠ other) →
               stored (labelMachineSets c MachineSets labels a).2 !! other
               = stored a !! other.
Proof.
  revert a. induction MachineSets as [|[ms0|] mss IH]; intros a; simpl; [done| |].
  - destruct (PatchMachineSet c _ _ a) as [[] a1] eqn:E.
    + intros H. destruct (IH _ H) as (pre & ms & post & -> & Hname & Hpre & Hframe).
      exists (Some ms0 :: pre), ms, post. split; [done|]. split; [done|].
      pose proof E as E'. apply PatchMachineSet_ok in E as (Hl & Hother & _).
      split.
      * intros ms1 Hin. apply elem_of_cons in Hin as [[= ->]|Hin]; [|by apply Hpre].
        apply (labelMachineSets_keeps c (pre ++ Some ms :: post)).
        by eapply labelled_merge.
      * intros other Hno. rewrite Hframe.
        -- apply Hother. intros ->. by apply (Hno ms0); [left|].
        -- intros ms1 Hin. apply Hno. by right.
    + simpl. intros [= <-]. exists [], ms0, mss. split; [done|]. split; [done|].
      split; [intros ms1 Hin; inversion Hin|].
      intros other _. by rewrite (PatchMachineSet_failed _ _ _ _ _ E).
  - intros H. destruct (IH _ H) as (pre & ms & post & -> & Hname & Hpre & Hframe).
    exists (None :: pre), ms, post. split; [done|]. split; [done|]. split.
    + intros ms1 Hin. apply elem_of_cons in Hin as [[=]|Hin]. by apply Hpre.
    + intros other Hno. apply Hframe. intros ms1 Hin. apply Hno. by right.
Qed.

Lemma labelMachineSets_failure_witness :
  ∃ pre ms post,
    [Some setA; None; Some setB] = pre ++ Some ms :: post
    ∧ msName ms = "machineset-b"
    ∧ (∀ ms0, Some ms0 ∈ pre →
              labelled skipUpdate
                (labelMachineSets noFault [Some setA; None; Some setB] skipUpdate apiOne).2
                (msName ms0))
    ∧ ∀ other, (∀ ms0, Some ms0 ∈ pre → msName ms0 ≠ other) →
               stored (labelMachineSets noFault [Some setA; None; Some setB] skipUpdate
                         apiOne).2 !! other
               = stored apiOne !! other.
Proof.
  apply (labelMachineSets_failure noFault [Some setA; None; Some setB] skipUpdate apiOne
           "machineset-b").
  vm_compute. reflexivity.
Defined.

End LabelMachineSetsProperties.

(** ** The budget when no node is labelled ahead of its machine *)

Lemma okPatches_after (dc : controller) (e : Event) (w w' : World) :
  after dc e w = Some w' → okPatches (trace w') = okPatches (trace w) + okPatches [e].
Proof.
  intros H. rewrite (replay_trace dc [e] w w'), okPatches_app; [done|].
  simpl. by rewrite H.
Qed.

Lemma okPatches_replay (dc : controller) (evs : list Event) (w w' : World) :
  replay dc evs w = Some w' → okPatches (trace w') = okPatches (trace w) + okPatches evs.
Proof. intros H. by rewrite (replay_trace _ _ _ _ H), okPatches_app. Qed.

Lemma okPatches_one (e : Event) : 0 <= okPatches [e] <= 1.
Proof.
  rewrite okPatches_cons, okPatches_nil. destruct (decide _); lia.
Qed.

Lemma okPatches_read (e : Event) : ¬ isPatch e → okPatches [e] = 0.
Proof. intros H. rewrite okPatches_skip by (by left). apply okPatches_nil. Qed.

(** A machine is patched at most once by the loop of
    [labelMachinesToSelectedForUpdate]. *)
Lemma labelMachinesToSelectedForUpdate_loop_patches (dc : controller)
    (machines : list Machine) (c : Z) (w : World) :
  okPatches (trace (labelMachinesToSelectedForUpdate_loop dc machines c w).2)
  <= okPatches (trace w) + Z.of_nat (length machines).
Proof.
  revert c w. induction machines as [|m machines IH]; intros c w; simpl; [lia|].
  rewrite Nat2Z.inj_succ.
  destruct (PatchMachine dc _ _ w) as [e1 w1] eqn:E1. apply PatchMachine_run in E1.
  apply okPatches_after in E1.
  pose proof (okPatches_one (Ev (CPatchMachine (mName m)
                (PatchAddLabels
                   (MergeStringMaps (mLabels m)
                      {[ LabelKeyMachineSelectedForUpdate := "true" ]}))) (noError e1))) as H1.
  destruct e1 as [e1|]; simpl; [lia|].
  destruct (decide _).
  2:{ specialize (IH (add32 c 1) w1). lia. }
  destruct (getNode dc _ w1) as [[node e2] w2] eqn:E2.
  apply getNode_run in E2 as (R2 & _ & _). apply okPatches_after in R2.
  rewrite okPatches_read in R2 by (by intros []).
  destruct node as [node|], e2 as [e2|]; simpl; try lia.
  destruct (decide _).
  { specialize (IH c w2). lia. }
  destruct (UpdateNode dc _ _ w2) as [e3 w3] eqn:E3. apply UpdateNode_run in E3.
  apply okPatches_after in E3. rewrite okPatches_read in E3 by (by intros []).
  destruct e3 as [e3|]; simpl; [lia|]. specialize (IH (add32 c 1) w3). lia.
Qed.

Lemma chosenForUpdate_length (dc : controller) (ms : MachineSet) (newScale : Z) :
  Z.of_nat (length (chosenForUpdate dc ms newScale))
  <= Z.max 0 (sub32 (isReplicas ms) newScale).
Proof. unfold chosenForUpdate. rewrite length_take. lia. Qed.

Lemma chosenForUpdate_sublist (dc : controller) (ms : MachineSet) (newScale : Z) :
  chosenForUpdate dc ms newScale `sublist_of` machineLister dc.
Proof.
  unfold chosenForUpdate, eligibleForDrain.
  etrans; [apply sublist_take|]. etrans; apply sublist_filter.
Qed.

Lemma labelMachinesToSelectedForUpdate_patches (dc : controller) (ms : MachineSet)
    (newScale : Z) (w : World) :
  okPatches (trace (labelMachinesToSelectedForUpdate dc ms newScale w).2)
  <= okPatches (trace w) + Z.of_nat (length (chosenForUpdate dc ms newScale)).
Proof.
  unfold labelMachinesToSelectedForUpdate, getMachinesForDrain.
  destruct (listMachines dc _ w) as [[machines e1] w1] eqn:E1.
  apply listMachines_run in E1 as [R1 Hms]. apply okPatches_after in R1.
  rewrite okPatches_read in R1 by (by intros []).
  destruct e1 as [e1|]; simpl; [lia|].
  specialize (Hms eq_refl).
  destruct (machinesForDrain machines _) as [chosen e2] eqn:E2.
  destruct e2 as [e2|]; simpl; [lia|].
  assert (Hchosen : chosen = chosenForUpdate dc ms newScale).
  { unfold chosenForUpdate, eligibleForDrain. rewrite <- Hms.
    destruct (decide (0 <= sub32 (isReplicas ms) newScale)) as [Hk|Hk].
    - rewrite machinesForDrain_take in E2 by done. by injection E2 as <-.
    - unfold machinesForDrain in E2.
      destruct (decide (_ < _)) as [_|Hge]; [|lia].
      destruct (decide (_ < 0)); [done|lia]. }
  pose proof (labelMachinesToSelectedForUpdate_loop_patches dc chosen 0 w1) as Hp.
  rewrite <- Hchosen. lia.
Qed.

Lemma filter_all {A} (P : A → Prop) `{!∀ x, Decision (P x)} (l : list A) :
  Forall P l → filter P l = l.
Proof.
  induction 1 as [|x l Hx _ IH]; [done|]. rewrite filter_cons, decide_True by done.
  by rewrite IH.
Qed.

Lemma selectMachineForUpdate_loop_patches (dc : controller) (oldISs : list MachineSet)
    (totalReadyForUpdateCount totalReadyForUpdate : Z) (w : World) :
  Forall (λ m, nodeAlreadySelected dc m →
               mLabels m !! LabelKeyMachineSelectedForUpdate ≠ None) (machineLister dc) →
  Forall (λ ms, is_int32 (isReplicas ms)) oldISs →
  is_int32 totalReadyForUpdateCount →
  0 <= totalReadyForUpdate <= Z.max 0 totalReadyForUpdateCount →
  okPatches (trace (selectMachineForUpdate_loop dc oldISs totalReadyForUpdateCount
                      totalReadyForUpdate w).2)
  <= okPatches (trace w) + (Z.max 0 totalReadyForUpdateCount - totalReadyForUpdate).
Proof.
  intros Hfresh. revert totalReadyForUpdate w.
  induction oldISs as [|ms mss IH]; intros total w Hall Hcap Htot; simpl; [lia|].
  apply Forall_cons_1 in Hall as [Hms Hall].
  destruct (decide (totalReadyForUpdateCount <= total)); simpl; [lia|].
  destruct (decide (isReplicas ms = 0)); [by apply IH|].
  unfold is_int32 in *.
  assert (Hsub : sub32 totalReadyForUpdateCount total = totalReadyForUpdateCount - total)
    by (apply wrap32_id; unfold is_int32; lia).
  rewrite Hsub.
  assert (Hmin : wrap32 (Z.min (isReplicas ms) (totalReadyForUpdateCount - total))
                 = Z.min (isReplicas ms) (totalReadyForUpdateCount - total))
    by (apply wrap32_id; unfold is_int32; lia).
  rewrite Hmin.
  set (ready := Z.min (isReplicas ms) (totalReadyForUpdateCount - total)).
  assert (Hnew : sub32 (isReplicas ms) ready = isReplicas ms - ready)
    by (apply wrap32_id; unfold is_int32; lia).
  rewrite Hnew.
  destruct (decide (isReplicas ms < isReplicas ms - ready)); simpl; [lia|].
  assert (Hk : sub32 (isReplicas ms) (isReplicas ms - ready) = ready)
    by (unfold sub32; rewrite wrap32_id; unfold is_int32; lia).
  pose proof (labelMachinesToSelectedForUpdate_patches dc ms (isReplicas ms - ready) w) as Hp.
  pose proof (chosenForUpdate_length dc ms (isReplicas ms - ready)) as Hlen.
  rewrite Hk in Hlen.
  destruct (labelMachinesToSelectedForUpdate dc ms (isReplicas ms - ready) w)
    as [[k err] w1] eqn:E. simpl in Hp.
  destruct err as [e|]; simpl; [lia|].
  apply labelMachinesToSelectedForUpdate_run in E as (evs & _ & _ & _ & Hok).
  destruct (Hok eq_refl) as [-> _].
  (* a chosen machine is not selected yet, so neither is its node: none is
     left out of the count *)
  assert (Hall' : filter (λ m, ¬ nodeAlreadySelected dc m)
                    (chosenForUpdate dc ms (isReplicas ms - ready))
                  = chosenForUpdate dc ms (isReplicas ms - ready)).
  { apply filter_all, Forall_forall. intros m Hm Hsel. rewrite Forall_forall in Hfresh.
    assert (Hin : m ∈ machineLister dc)
      by (by apply (sublist_subseteq _ _
                      (chosenForUpdate_sublist dc ms (isReplicas ms - ready)))).
    apply (Hfresh m Hin Hsel).
    assert (Hel : m ∈ eligibleForDrain dc ms)
      by (by apply (subseteq_take (Z.to_nat (sub32 (isReplicas ms) (isReplicas ms - ready))))).
    unfold eligibleForDrain in Hel. apply list_elem_of_filter in Hel as [Hnone _]. done. }
  rewrite Hall'. unfold int32_of_len, add32.
  rewrite (wrap32_id (Z.of_nat _)) by (unfold is_int32; lia).
  rewrite wrap32_id by (unfold is_int32; lia).
  etrans; [apply IH; [done|unfold is_int32; lia|lia]|]. lia.
Qed.

(** X2.  When the cache shows a node as selected for update only if its
    machine carries the selected-for-update label too,
    [selectMachineForUpdate] patches no more machines than
    [availableMachineCount - minAvailable], whether it fails or not. *)
Theorem selectMachineForUpdate_patches_within_budget (dc : controller)
    (allISs oldISs : list MachineSet) (deployment : MachineDeployment)
    (oldISsMachinesUndergoingUpdate : Z) (w : World) :
  Forall (λ m, nodeAlreadySelected dc m →
               mLabels m !! LabelKeyMachineSelectedForUpdate ≠ None) (machineLister dc) →
  Forall (λ ms, is_int32 (isReplicas ms)) oldISs →
  ∃ evs,
    trace (selectMachineForUpdate dc allISs oldISs deployment
             oldISsMachinesUndergoingUpdate w).2 = trace w ++ evs
    ∧ okPatches evs
      <= Z.max 0
           (sub32 (GetAvailableReplicaCountForMachineSets allISs)
                  oldISsMachinesUndergoingUpdate
            - sub32 (dReplicas deployment) (MaxUnavailable deployment)).
Proof.
  intros Hfresh Hall.
  destruct (selectMachineForUpdate dc allISs oldISs deployment
              oldISsMachinesUndergoingUpdate w) as [[n err] w'] eqn:E.
  pose proof E as E'.
  apply selectMachineForUpdate_run in E' as (evs & Hr & _ & _).
  exists evs. simpl. split; [by apply replay_trace in Hr|].
  apply okPatches_replay in Hr.
  assert (Hgoal : okPatches (trace w')
                  <= okPatches (trace w)
                     + Z.max 0
                         (sub32 (GetAvailableReplicaCountForMachineSets allISs)
                                oldISsMachinesUndergoingUpdate
                          - sub32 (dReplicas deployment) (MaxUnavailable deployment)));
    [|lia].
  clear Hr. revert E. unfold selectMachineForUpdate.
  set (avail := sub32 _ oldISsMachinesUndergoingUpdate).
  set (minAvailable := sub32 (dReplicas deployment) _).
  pose proof (wrap32_int32 (GetAvailableReplicaCountForMachineSets allISs
                            - oldISsMachinesUndergoingUpdate)) as Ha.
  pose proof (wrap32_int32 (dReplicas deployment - MaxUnavailable deployment)) as Hm.
  fold (sub32 (GetAvailableReplicaCountForMachineSets allISs) oldISsMachinesUndergoingUpdate)
    in Ha.
  fold (sub32 (dReplicas deployment) (MaxUnavailable deployment)) in Hm.
  fold avail in Ha. fold minAvailable in Hm.
  destruct (decide (avail <= minAvailable)); [intros [= _ _ <-]; lia|].
  intros E.
  pose proof (wrap32_int32 (avail - minAvailable)) as Hc. fold (sub32 avail minAvailable) in Hc.
  pose proof (selectMachineForUpdate_loop_patches dc (sortMachineSets oldISs)
                (sub32 avail minAvailable) 0 w Hfresh) as Hloop.
  rewrite E in Hloop. simpl in Hloop.
  assert (Hsorted : Forall (λ ms, is_int32 (isReplicas ms)) (sortMachineSets oldISs)).
  { unfold sortMachineSets. by rewrite merge_sort_Permutation. }
  specialize (Hloop Hsorted Hc ltac:(lia)).
  unfold is_int32 in *.
  destruct (decide (avail - minAvailable < 2 ^ 31)) as [Hsmall|Hbig].
  - assert (Heq : sub32 avail minAvailable = avail - minAvailable)
      by (apply wrap32_id; unfold is_int32; lia).
    lia.
  - assert (Hneg : sub32 avail minAvailable < 0).
    { unfold sub32, wrap32.
      replace (avail - minAvailable + 2 ^ 31)
        with ((avail - minAvailable - 2 ^ 31) + 1 * 2 ^ 32) by lia.
      rewrite Z_mod_plus_full, Z.mod_small; lia. }
    lia.
Qed.

Lemma selectMachineForUpdate_patches_within_budget_witness :
  nodeAlreadySelected MidRolloutScenario.dc MidRolloutScenario.machine0
  ∧ ∃ evs,
      trace (selectMachineForUpdate MidRolloutScenario.dc
               [MidRolloutScenario.oldIS; MidRolloutScenario.newIS]
               [MidRolloutScenario.oldIS] MidRolloutScenario.deployment 1
               MidRolloutScenario.w0).2
      = trace MidRolloutScenario.w0 ++ evs
      ∧ okPatches evs
        <= Z.max 0
             (sub32 (GetAvailableReplicaCountForMachineSets
                       [MidRolloutScenario.oldIS; MidRolloutScenario.newIS]) 1
              - sub32 (dReplicas MidRolloutScenario.deployment)
                      (MaxUnavailable MidRolloutScenario.deployment)).
Proof.
  split; [split; vm_compute; [discriminate|reflexivity]|].
  apply (selectMachineForUpdate_patches_within_budget MidRolloutScenario.dc
           [MidRolloutScenario.oldIS; MidRolloutScenario.newIS]
           [MidRolloutScenario.oldIS] MidRolloutScenario.deployment 1
           MidRolloutScenario.w0).
  - apply Forall_cons_2; [intros _; vm_compute; discriminate|].
    apply Forall_cons_2; [intros [_ Hl]; revert Hl; vm_compute; discriminate|].
    apply Forall_cons_2; [intros [_ Hl]; revert Hl; vm_compute; discriminate|].
    constructor.
  - apply Forall_cons_2; [|constructor]. vm_compute. split; [discriminate|reflexivity].
Defined.

(** ** The test fixtures *)

Section TestFixturesProperties.
Import TestFixtures.

Lemma sprintf_sd_inj (s : string) : Inj (=) (=) (sprintf_sd s).
Proof.
  intros i j H. unfold sprintf_sd in H.
  apply (inj (String.app s)) in H. apply (inj (String.app "-")) in H.
  by apply (inj pretty) in H.
Qed.

Lemma NoDup_fmap_seq {A B} (f : nat → A) (g : A → B) (n : nat) :
  Inj (=) (=) (λ i, g (f i)) → NoDup (g <$> (f <$> seq 0 n)).
Proof.
  intros Hinj. rewrite <- list_fmap_compose. apply (NoDup_fmap_2 _). apply NoDup_seq.
Qed.

(** X18.  Each builder returns as many objects as asked for, with pairwise
    distinct names; the machines also get pairwise distinct provider IDs
    when the template has one. *)
Theorem fixtures_distinct_names (count : nat) (specTemplate : MachineTemplateSpec)
    (owner : option OwnerReference) (labels : gmap string string) (replicas : Z) :
  (length (newMachines count specTemplate owner labels) = count
   ∧ NoDup (tmName <$> newMachines count specTemplate owner labels)
   ∧ (tProviderID specTemplate ≠ "" →
      NoDup (tmProviderID <$> newMachines count specTemplate owner labels)))
  ∧ (length (newNodes count labels) = count
     ∧ NoDup (tnName <$> newNodes count labels))
  ∧ (length (newMachineSets count specTemplate replicas owner labels) = count
     ∧ NoDup (tsName <$> newMachineSets count specTemplate replicas owner labels)).
Proof.
  unfold newMachines, newNodes, newMachineSets.
  rewrite !length_fmap, !length_seq.
  split; [split; [done|split]|split; split; try done].
  - apply NoDup_fmap_seq. intros i j. simpl.
    destruct (decide _); apply sprintf_sd_inj.
  - intros Hp. apply NoDup_fmap_seq. intros i j. simpl. unfold newMachineSpec.
    destruct (decide _); [done|]. apply sprintf_sd_inj.
  - apply NoDup_fmap_seq. intros i j. simpl. apply sprintf_sd_inj.
  - apply NoDup_fmap_seq. intros i j. simpl. apply sprintf_sd_inj.
Qed.

(** X19.  A machine built by [newMachinesFromMachineSet] from a MachineSet built
    by [newMachineSets] is matched by the selector of that MachineSet and
    has the MachineSet as its only owner. *)
Theorem newMachinesFromMachineSet_selected (machineSetCount machineCount : nat)
    (specTemplate : MachineTemplateSpec) (replicas : Z) (owner : option OwnerReference)
    (setLabels labels : gmap string string) (machineSet : TestMachineSet) (m : TestMachine) :
  machineSet ∈ newMachineSets machineSetCount specTemplate replicas owner setLabels →
  m ∈ newMachinesFromMachineSet machineCount machineSet labels →
  selects (tsSelector machineSet) (tmLabels m) = true
  ∧ tmOwnerReferences m = [mkOwnerReference "MachineSet" (tsName machineSet)].
Proof.
  unfold newMachineSets, newMachinesFromMachineSet, newMachines.
  intros (i & -> & _)%list_elem_of_fmap (j & -> & _)%list_elem_of_fmap. simpl.
  split; [|done]. unfold selects. apply bool_decide_eq_true. apply map_union_subseteq_l.
Qed.

Lemma newMachinesFromMachineSet_selected_witness :
  selects {[ "machineset" := "old" ]} ({[ "machineset" := "old" ]} ∪ ∅) = true.
Proof.
  pose (tmpl := mkTemplate (mkObjectMeta "" "" "test" {[ "machineset" := "old" ]}) "").
  pose (ms := mkTestMachineSet "MachineSet" (sprintf_sd "machineset" 0) ∅ 1
                {[ "machineset" := "old" ]} tmpl []).
  pose (m := mkTestMachine (sprintf_sd "machine" 1) ({[ "machineset" := "old" ]} ∪ ∅)
               (newMachineSpec tmpl 1) [mkOwnerReference "MachineSet" (tsName ms)]).
  apply (newMachinesFromMachineSet_selected 2 2 tmpl 1 None ∅ ∅ ms m).
  - apply list_elem_of_fmap. exists 0%nat. split; [reflexivity|left].
  - apply list_elem_of_fmap. exists 1%nat. split; [reflexivity|right; left].
Defined.

(** X20.  [newObjectMeta] never leaves the name empty, and
    [newSecretReference] gives the secret the name and the namespace that
    [newObjectMeta] gives the object of the same index. *)
Theorem newSecretReference_name (meta : ObjectMeta) (index : nat) :
  srName (newSecretReference meta index) = Name (newObjectMeta meta index)
  ∧ srNamespace (newSecretReference meta index) = Namespace (newObjectMeta meta index)
  ∧ Name (newObjectMeta meta index) ≠ "".
Proof.
  unfold newSecretReference, newObjectMeta.
  destruct (decide (Name meta ≠ "")); [done|].
  destruct (decide (GenerateName meta ≠ "")) as [Hg|_]; simpl.
  - split; [done|]. split; [done|]. unfold sprintf_sd.
    destruct (GenerateName meta); done.
  - done.
Qed.

End TestFixturesProperties.

(** ** [reconcileNewMachineSetInPlace] with the new MachineSet at or above size *)

(** X11.  When the new MachineSet has at least the replicas of the deployment,
    [reconcileNewMachineSetInPlace] transfers nothing: no machine and no
    node is written.  At the size of the deployment it makes no call at
    all; above it, a [true] result means that the new MachineSet is stored
    with the replicas of the deployment. *)
Theorem reconcileNewMachineSetInPlace_no_transfer (dc : controller)
    (oldISs : list MachineSet) (newIS : MachineSet) (deployment : MachineDeployment)
    (w : World) :
  dReplicas deployment <= isReplicas newIS →
  apiMachines (reconcileNewMachineSetInPlace dc oldISs newIS deployment w).2 = apiMachines w
  ∧ (∀ cl, nodesOf cl (reconcileNewMachineSetInPlace dc oldISs newIS deployment w).2
           = nodesOf cl w)
  ∧ (isReplicas newIS = dReplicas deployment →
     reconcileNewMachineSetInPlace dc oldISs newIS deployment w = (false, None, w))
  ∧ ((reconcileNewMachineSetInPlace dc oldISs newIS deployment w).1.1 = true →
     ∃ ms', apiMachineSets (reconcileNewMachineSetInPlace dc oldISs newIS deployment w).2
            !! isName newIS = Some ms'
            ∧ isReplicas ms' = dReplicas deployment).
Proof.
  intros Hle. unfold reconcileNewMachineSetInPlace.
  destruct (decide (isReplicas newIS = dReplicas deployment)) as [Heq|Hne]; [done|].
  destruct (decide (dReplicas deployment < isReplicas newIS)); [|lia].
  destruct (scaleMachineSetAndRecordEvent dc newIS (dReplicas deployment) w)
    as [[sc err] w'] eqn:E.
  apply scale_run in E as (Hr & Hsc & _). simpl.
  assert (Hscale : Forall isScale (scaleEvents newIS (dReplicas deployment) err)).
  { unfold scaleEvents. destruct (decide _); repeat constructor. }
  split; [|split; [|split]].
  - eapply replay_frame_machines; [exact Hr|].
    eapply Forall_impl; [exact Hscale|]. intros [c ok]. unfold isScale, isPatch. simpl.
    destruct c; tauto.
  - intros cl. eapply replay_frame_nodes; [exact Hr|].
    eapply Forall_impl; [exact Hscale|]. intros [c ok]. unfold isScale, updatesCluster. simpl.
    destruct c; tauto.
  - done.
  - intros ->. destruct (Hsc eq_refl) as [Hch ->].
    eapply (replay_scaled (λ ms, isReplicas ms = dReplicas deployment)); [exact Hr| |].
    + unfold scaleEvents. rewrite decide_False by done.
      apply Forall_cons_2; [|constructor]. by intros c [= <-].
    + right. exists (withReplicas newIS (dReplicas deployment)). split; [done|].
      unfold scaleEvents. rewrite decide_False by done. left.
Qed.

Lemma reconcileNewMachineSetInPlace_no_transfer_witness :
  apiMachines (reconcileNewMachineSetInPlace TransferScenario.dc [TransferScenario.oldIS]
                 (withReplicas TransferScenario.newIS 5) TransferScenario.deployment
                 TransferScenario.w0).2
  = apiMachines TransferScenario.w0
  ∧ ∃ ms', apiMachineSets
             (reconcileNewMachineSetInPlace TransferScenario.dc [TransferScenario.oldIS]
                (withReplicas TransferScenario.newIS 5) TransferScenario.deployment
                TransferScenario.w0).2
           !! isName (withReplicas TransferScenario.newIS 5) = Some ms'
           ∧ isReplicas ms' = dReplicas TransferScenario.deployment.
Proof.
  destruct (reconcileNewMachineSetInPlace_no_transfer TransferScenario.dc
              [TransferScenario.oldIS] (withReplicas TransferScenario.newIS 5)
              TransferScenario.deployment TransferScenario.w0) as (Hm & _ & _ & Hs).
  - vm_compute. discriminate.
  - split; [exact Hm|]. apply Hs. vm_compute. reflexivity.
Defined.
